(** * Dynamic decoupling sequences of python-open-controls

    A shallow embedding of
    [qctrlopencontrols/dynamic_decoupling_sequences/dynamic_decoupling_sequence.py]
    (the [DynamicDecouplingSequence] constructor and
    [get_plot_formatted_arrays]) and of
    [qctrlopencontrols/dynamic_decoupling_sequences/predefined.py]
    (the predefined generators and their dispatcher).

    Numbers.  Python floats are modelled by the rationals they denote
    ([Q]), with exact arithmetic: rounding, infinities and NaN are outside
    the model.  Float comparison [==] is [Qeq_bool], [<=] is [Qle_bool].
    Python ints are [Z].  Numpy arrays of floats are [list Q]; every
    in-place update of the source is written as the list it leaves behind.

    [np.sin] has no rational counterpart and is a parameter of the
    generators that use it.

    Exceptions.  Fallible code returns [result A]: either [Return a] or
    [Raise e], where [e] tells the exception class apart. *)

From Stdlib Require Import List ZArith QArith Qround Bool String Ascii Lia Lqa PeanoNat Arith.
From Stdlib Require Import Sorted Permutation.
Import ListNotations.

Local Open Scope Q_scope.

(* ================================================================= *)
(** ** Python values, exceptions and results *)

(** Values stored in the argument dictionaries of an [ArgumentsValueError]. *)
Inductive pyval : Type :=
| PyNone
| PyFloat (q : Q)
| PyInt (z : Z)
| PyStr (s : string)
| PyArray (l : list Q).

(** The exceptions the modelled code can raise.  [ArgumentsValueError] is
    the library's own validation error (description, arguments, extras);
    [IndexError] and [TypeError] are the interpreter's. *)
Inductive exn : Type :=
| ArgumentsValueError (description : string)
                      (arguments : list (string * pyval))
                      (extras : list (string * pyval))
| IndexError
| TypeError.

Inductive result (A : Type) : Type :=
| Return (a : A)
| Raise (e : exn).

Arguments Return {A} a.
Arguments Raise {A} e.

Definition bind {A B : Type} (m : result A) (k : A -> result B) : result B :=
  match m with
  | Return a => k a
  | Raise e => Raise e
  end.

Notation "x <- m ;; k" := (bind m (fun x => k))
  (at level 61, m at next level, right associativity).

Definition is_ArgumentsValueError {A : Type} (r : result A) : bool :=
  match r with
  | Raise (ArgumentsValueError _ _ _) => true
  | _ => false
  end.

(* ================================================================= *)
(** ** Numbers and arrays *)

(** [np.pi], the binary64 number nearest to pi, as the rational it denotes. *)
Definition np_pi : Q := 884279719003555 # 281474976710656.

(** [x < y] on floats. *)
Definition Qlt_bool (x y : Q) : bool := negb (Qle_bool y x).

(** [np.zeros(a.shape)] and [np.ones(a.shape)] for a one-dimensional [a]. *)
Definition np_zeros (n : nat) : list Q := repeat 0 n.
Definition np_ones (n : nat) : list Q := repeat 1 n.

(** [a[0]] and [a[-1]]: an [IndexError] on an empty array. *)
Definition getitem_first (a : list Q) : result Q :=
  match a with
  | [] => Raise IndexError
  | x :: _ => Return x
  end.

Definition getitem_last (a : list Q) : result Q :=
  match a with
  | [] => Raise IndexError
  | x :: r => Return (last r x)
  end.

(** [a[0] = v] and [a[-1] = v]. *)
Definition setitem_first (a : list Q) (v : Q) : result (list Q) :=
  match a with
  | [] => Raise IndexError
  | _ :: r => Return (v :: r)
  end.

Definition setitem_last (a : list Q) (v : Q) : result (list Q) :=
  match a with
  | [] => Raise IndexError
  | _ :: _ => Return (removelast a ++ [v])
  end.

(* ================================================================= *)
(** ** Constants of [dynamic_decoupling_sequences/constants.py] *)

(** Modelled from the spec: [UPPER_BOUND_OFFSETS] is imported from
    [dynamic_decoupling_sequences/constants.py], which is not part of the
    sources at hand; the specification fixes the maximum offset count at
    10000. *)
Definition UPPER_BOUND_OFFSETS : Z := 10000.

(** Modelled from the spec: the ten scheme identifiers are imported from the
    same absent [constants.py]; their values are the ones listed in the
    docstring of [new_predefined_dds]. *)
Definition RAMSEY : string := "Ramsey"%string.
Definition SPIN_ECHO : string := "Spin echo"%string.
Definition CARR_PURCELL : string := "Carr-Purcell"%string.
Definition CARR_PURCELL_MEIBOOM_GILL : string := "Carr-Purcell-Meiboom-Gill"%string.
Definition UHRIG_SINGLE_AXIS : string := "Uhrig single-axis"%string.
Definition PERIODIC_SINGLE_AXIS : string := "Periodic single-axis"%string.
Definition WALSH_SINGLE_AXIS : string := "Walsh single-axis"%string.
Definition QUADRATIC : string := "Quadratic"%string.
Definition X_CONCATENATED : string := "X concatenated"%string.
Definition XY_CONCATENATED : string := "XY concatenated"%string.

(* ================================================================= *)
(** ** The sequence model: [DynamicDecouplingSequence.__init__] *)

Record DynamicDecouplingSequence : Type := mkSequence {
  duration : Q;
  offsets : list Q;
  rabi_rotations : list Q;
  azimuthal_angles : list Q;
  detuning_rotations : list Q;
  pre_post_rotation : bool;
  number_of_offsets : nat;
  name : option string
}.

(** The defaulting rules of lines 99-123. *)
Definition default_offsets (offsets : option (list Q)) : list Q :=
  match offsets with
  | None => [1 # 2]
  | Some o => o
  end.

Definition default_rabi_rotations (n : nat) (r : option (list Q)) : list Q :=
  match r with
  | None => map (fun x => np_pi * x) (np_ones n)
  | Some a => a
  end.

Definition default_zeros (n : nat) (r : option (list Q)) : list Q :=
  match r with
  | None => np_zeros n
  | Some a => a
  end.

(** Lines 131-142: the boundary at the start.  The state is the four arrays
    [(offsets, rabi_rotations, azimuthal_angles, detuning_rotations)]. *)
Definition arrays : Type := (list Q * list Q * list Q * list Q)%type.

Definition normalize_start (ppr : bool) (st : arrays) : result arrays :=
  let '(offs, rabi, azi, det) := st in
  first <- getitem_first offs ;;
  if negb (Qeq_bool first 0) then
    Return (0 :: offs,
            (if ppr then np_pi / 2 else 0) :: rabi,
            0 :: azi,
            0 :: det)
  else if ppr then
    rabi' <- setitem_first rabi (np_pi / 2) ;;
    Return (offs, rabi', azi, det)
  else Return (offs, rabi, azi, det).

(** Lines 144-155: the boundary at the end. *)
Definition normalize_end (duration : Q) (ppr : bool) (st : arrays) : result arrays :=
  let '(offs, rabi, azi, det) := st in
  final <- getitem_last offs ;;
  if negb (Qeq_bool final duration) then
    Return (offs ++ [duration],
            rabi ++ [if ppr then np_pi / 2 else 0],
            azi ++ [0],
            det ++ [0])
  else if ppr then
    rabi' <- setitem_last rabi (np_pi / 2) ;;
    Return (offs, rabi', azi, det)
  else Return (offs, rabi, azi, det).

(** [DynamicDecouplingSequence(duration, offsets, rabi_rotations,
    azimuthal_angles, detuning_rotations, pre_post_rotation, name)]. *)
Definition new_sequence
    (duration : Q)
    (offsets rabi_rotations azimuthal_angles detuning_rotations : option (list Q))
    (pre_post_rotation : bool)
    (name : option string) : result DynamicDecouplingSequence :=
  if Qle_bool duration 0 then
    Raise (ArgumentsValueError "Sequence duration must be above zero:"%string
             [("duration"%string, PyFloat duration)] [])
  else
    let offs := default_offsets offsets in
    if (UPPER_BOUND_OFFSETS <? Z.of_nat (List.length offs))%Z then
      Raise (ArgumentsValueError
               "Number of offsets is above the allowed number of maximum offsets. "%string
               [("number_of_offsets"%string, PyInt (Z.of_nat (List.length offs)));
                ("allowed_maximum_offsets"%string, PyInt UPPER_BOUND_OFFSETS)] [])
    else if existsb (fun x => Qlt_bool x 0) offs
            || existsb (fun x => Qlt_bool duration x) offs then
      Raise (ArgumentsValueError
               "Offsets for dynamic decoupling sequence must be between 0 and sequence duration (inclusive). "%string
               [("offsets"%string, PyArray offs);
                ("duration"%string, PyFloat duration)] [])
    else
      let rabi := default_rabi_rotations (List.length offs) rabi_rotations in
      let azi := default_zeros (List.length offs) azimuthal_angles in
      let det := default_zeros (List.length offs) detuning_rotations in
      st1 <- normalize_start pre_post_rotation (offs, rabi, azi, det) ;;
      st2 <- normalize_end duration pre_post_rotation st1 ;;
      let '(offs2, rabi2, azi2, det2) := st2 in
      let n := List.length offs2 in
      if negb (List.length rabi2 =? n)%nat then
        Raise (ArgumentsValueError
                 "rabi rotations must have the same length as offsets. "%string
                 [("offsets"%string, PyArray offs);
                  ("rabi_rotations"%string, PyArray rabi)] [])
      else if negb (List.length azi2 =? n)%nat then
        Raise (ArgumentsValueError
                 "azimuthal angles must have the same length as offsets. "%string
                 [("offsets"%string, PyArray offs);
                  ("azimuthal_angles"%string, PyArray azi)] [])
      else if negb (List.length det2 =? n)%nat then
        Raise (ArgumentsValueError
                 "detuning rotations must have the same length as offsets. "%string
                 [("offsets"%string, PyArray offs);
                  ("detuning_rotations"%string, PyArray det);
                  ("len(detuning_rotations)"%string, PyInt (Z.of_nat (List.length det2)));
                  ("number_of_offsets"%string, PyInt (Z.of_nat n))] [])
      else
        Return (mkSequence duration offs2 rabi2 azi2 det2
                           pre_post_rotation n name).

(* ================================================================= *)
(** ** Numpy helpers used by the generators *)

(** [np.cumsum]. *)
Fixpoint cumsum_from (acc : Q) (a : list Q) : list Q :=
  match a with
  | [] => []
  | x :: r => (acc + x) :: cumsum_from (acc + x) r
  end.

Definition np_cumsum (a : list Q) : list Q :=
  match a with
  | [] => []
  | x :: r => x :: cumsum_from x r
  end.

(** [np.unique(a, return_counts=True)]: the sorted distinct values of [a]
    and, for each, how often it occurs.  Sorting is by insertion; equal
    neighbours of the sorted array are then counted together. *)
Fixpoint insert_sorted (x : Q) (a : list Q) : list Q :=
  match a with
  | [] => [x]
  | y :: r => if Qle_bool x y then x :: a else y :: insert_sorted x r
  end.

Definition np_sort (a : list Q) : list Q := fold_right insert_sorted [] a.

Fixpoint group_counts (a : list Q) : list (Q * nat) :=
  match a with
  | [] => []
  | x :: r =>
      match group_counts r with
      | (y, c) :: g => if Qeq_bool x y then (x, S c) :: g else (x, 1%nat) :: (y, c) :: g
      | [] => [(x, 1%nat)]
      end
  end.

Definition np_unique (a : list Q) : list Q * list nat :=
  let g := group_counts (np_sort a) in (map fst g, map snd g).

(** [[values[i] for i in range(counts.shape[0]) if counts[i] % 2 == 0]]. *)
Definition even_count_values (vc : list Q * list nat) : list Q :=
  map fst (filter (fun p => Nat.even (snd p)) (combine (fst vc) (snd vc))).

(** [a[0:-k]] for [k > 0]. *)
Definition drop_last {A : Type} (k : nat) (a : list A) : list A :=
  firstn (List.length a - k) a.

(** [a[-1] = v] on an integer array. *)
Definition set_last {A : Type} (a : list A) (v : A) : list A :=
  match a with
  | [] => []
  | _ :: _ => removelast a ++ [v]
  end.

(** [a[i+1:] = a[i:-1]]: everything from index [i] on moves one place to the
    right, the last entry falls off, and index [i] keeps its old value. *)
Definition shift_right (i : nat) (a : list Q) : list Q :=
  firstn (S i) a ++ removelast (skipn i a).

(** [a[i] = v] for an index within the array. *)
Definition setitem (i : nat) (v : Q) (a : list Q) : list Q :=
  firstn i a ++ v :: skipn (S i) a.

(** [np.sign]. *)
Definition np_sign (x : Q) : Q :=
  if Qlt_bool x 0 then -1 else if Qlt_bool 0 x then 1 else 0.

(** [range(a, b)] over Python ints. *)
Definition py_range (a b : Z) : list Z :=
  map (fun k => (a + Z.of_nat k)%Z) (seq 0 (Z.to_nat (b - a))).

(** [np.arange(start, stop, step)] for a positive [step]: numpy fixes the
    length at [ceil((stop - start) / step)] and fills [start + k * step]. *)
Definition np_arange (start stop step : Q) : list Q :=
  map (fun k => start + inject_Z (Z.of_nat k) * step)
      (seq 0 (Z.to_nat (Qceiling ((stop - start) / step)))).

(* ================================================================= *)
(** ** Keyword arguments *)

(** The [**kwargs] a caller hands to the dispatcher or to a generator: each
    recognised keyword is present ([Some]) or absent ([None]); a keyword
    given as [None] behaves as an absent one wherever the source tests
    [is None].  [kw_other] lists every other keyword given: whatever it
    is, the constructor call of the generator rejects it. *)
Record kwargs : Type := mkKwargs {
  kw_duration : option Q;
  kw_number_of_offsets : option Z;
  kw_paley_order : option Z;
  kw_number_inner_offsets : option Z;
  kw_number_outer_offsets : option Z;
  kw_concatenation_order : option Z;
  kw_pre_post_rotation : option bool;
  kw_name : option string;
  kw_other : list string
}.

Definition no_kwargs : kwargs :=
  mkKwargs None None None None None None None None [].

Definition is_some {A : Type} (o : option A) : bool :=
  match o with Some _ => true | None => false end.

Definition or_default {A : Type} (o : option A) (d : A) : A :=
  match o with Some a => a | None => d end.

(** The keywords a generator can consume itself. *)
Inductive keyword : Type :=
| KwNumberOfOffsets | KwPaleyOrder | KwNumberInner | KwNumberOuter | KwConcatenationOrder.

Definition keyword_eqb (a b : keyword) : bool :=
  match a, b with
  | KwNumberOfOffsets, KwNumberOfOffsets
  | KwPaleyOrder, KwPaleyOrder
  | KwNumberInner, KwNumberInner
  | KwNumberOuter, KwNumberOuter
  | KwConcatenationOrder, KwConcatenationOrder => true
  | _, _ => false
  end.

Definition keyword_given (kw : kwargs) (k : keyword) : bool :=
  match k with
  | KwNumberOfOffsets => is_some (kw_number_of_offsets kw)
  | KwPaleyOrder => is_some (kw_paley_order kw)
  | KwNumberInner => is_some (kw_number_inner_offsets kw)
  | KwNumberOuter => is_some (kw_number_outer_offsets kw)
  | KwConcatenationOrder => is_some (kw_concatenation_order kw)
  end.

Definition all_keywords : list keyword :=
  [KwNumberOfOffsets; KwPaleyOrder; KwNumberInner; KwNumberOuter; KwConcatenationOrder].

(** What is left in [**kwargs] after a generator took the keywords in
    [own] reaches the constructor, which accepts only [pre_post_rotation]
    and [name] besides the five arguments every generator passes itself:
    any other keyword is a [TypeError] at the call. *)
Definition leftover_keywords (own : list keyword) (kw : kwargs) : bool :=
  existsb (fun k => negb (existsb (keyword_eqb k) own) && keyword_given kw k) all_keywords
  || negb (match kw_other kw with [] => true | _ => false end).

(** [DynamicDecouplingSequence(duration=..., offsets=..., rabi_rotations=...,
    azimuthal_angles=..., detuning_rotations=..., **kwargs)], the call every
    generator ends with. *)
Definition call_constructor (own : list keyword) (kw : kwargs)
    (duration : Q) (offsets rabi azi det : list Q) : result DynamicDecouplingSequence :=
  if leftover_keywords own kw then Raise TypeError
  else new_sequence duration (Some offsets) (Some rabi) (Some azi) (Some det)
                    (or_default (kw_pre_post_rotation kw) false) (kw_name kw).

Definition duration_error {A : Type} (duration : Q) : result A :=
  Raise (ArgumentsValueError "Sequence duration must be above zero:"%string
           [("duration"%string, PyFloat duration)] []).

(* ================================================================= *)
(** ** Generators that need no sine *)

Definition new_ramsey_sequence (kw : kwargs) : result DynamicDecouplingSequence :=
  let duration := or_default (kw_duration kw) 1 in
  if Qle_bool duration 0 then duration_error duration
  else
    let offsets := [0; duration] in
    let rabi_rotations := np_zeros (List.length offsets) in
    let azimuthal_angles := np_zeros (List.length offsets) in
    let detuning_rotations := np_zeros (List.length offsets) in
    call_constructor [] kw duration offsets rabi_rotations azimuthal_angles detuning_rotations.

Definition new_spin_echo_sequence (kw : kwargs) : result DynamicDecouplingSequence :=
  let duration := or_default (kw_duration kw) 1 in
  if Qle_bool duration 0 then duration_error duration
  else
    let offsets := map (fun x => duration * x) [1 # 2] in
    let rabi_rotations := [np_pi] in
    let azimuthal_angles := np_zeros (List.length offsets) in
    let detuning_rotations := np_zeros (List.length offsets) in
    call_constructor [] kw duration offsets rabi_rotations azimuthal_angles detuning_rotations.

(** [_carr_purcell_meiboom_gill_offsets]. *)
Definition _carr_purcell_meiboom_gill_offsets (duration : Q) (number_of_offsets : Z) : list Q :=
  let spacing := 1 / inject_Z number_of_offsets in
  let start := spacing * (1 # 2) in
  let deltas := map (fun k => spacing * inject_Z k) (py_range 0 number_of_offsets) in
  let deltas := map (fun x => x + start) deltas in
  map (fun x => x * duration) deltas.

Definition number_of_offsets_error {A : Type} (n : Z) : result A :=
  Raise (ArgumentsValueError "Number of offsets must be above zero:"%string
           [("number_of_offsets"%string, PyInt n)] []).

Definition new_carr_purcell_sequence (kw : kwargs) : result DynamicDecouplingSequence :=
  let duration := or_default (kw_duration kw) 1 in
  if Qle_bool duration 0 then duration_error duration
  else
    let number_of_offsets := or_default (kw_number_of_offsets kw) 1%Z in
    if (number_of_offsets <=? 0)%Z then number_of_offsets_error number_of_offsets
    else
      let offsets := _carr_purcell_meiboom_gill_offsets duration number_of_offsets in
      let rabi_rotations := map (fun _ => np_pi) (np_zeros (List.length offsets)) in
      let azimuthal_angles := np_zeros (List.length offsets) in
      let detuning_rotations := np_zeros (List.length offsets) in
      call_constructor [KwNumberOfOffsets] kw duration offsets
                       rabi_rotations azimuthal_angles detuning_rotations.

Definition new_carr_purcell_meiboom_gill_sequence (kw : kwargs)
    : result DynamicDecouplingSequence :=
  let duration := or_default (kw_duration kw) 1 in
  if Qle_bool duration 0 then duration_error duration
  else
    let number_of_offsets := or_default (kw_number_of_offsets kw) 1%Z in
    if (number_of_offsets <=? 0)%Z then number_of_offsets_error number_of_offsets
    else
      let offsets := _carr_purcell_meiboom_gill_offsets duration number_of_offsets in
      let rabi_rotations := map (fun _ => np_pi) (np_zeros (List.length offsets)) in
      let azimuthal_angles := map (fun _ => np_pi / 2) (np_zeros (List.length offsets)) in
      let detuning_rotations := np_zeros (List.length offsets) in
      call_constructor [KwNumberOfOffsets] kw duration offsets
                       rabi_rotations azimuthal_angles detuning_rotations.

Definition new_periodic_single_axis_sequence (kw : kwargs)
    : result DynamicDecouplingSequence :=
  let duration := or_default (kw_duration kw) 1 in
  if Qle_bool duration 0 then duration_error duration
  else
    let number_of_offsets := or_default (kw_number_of_offsets kw) 1%Z in
    if (number_of_offsets <=? 0)%Z then number_of_offsets_error number_of_offsets
    else
      let spacing := 1 / inject_Z (number_of_offsets + 1) in
      let deltas := map (fun k => inject_Z k * spacing)
                        (py_range 1 (number_of_offsets + 1)) in
      let offsets := map (fun x => duration * x) deltas in
      let rabi_rotations := map (fun _ => np_pi) (np_zeros (List.length offsets)) in
      let azimuthal_angles := np_zeros (List.length offsets) in
      let detuning_rotations := np_zeros (List.length offsets) in
      call_constructor [KwNumberOfOffsets] kw duration offsets
                       rabi_rotations azimuthal_angles detuning_rotations.

(* ================================================================= *)
(** ** The X-concatenated generator *)

(** [_concatenation_x]: the recursion stops at order 1 and is entered only
    with an order the generator has checked to be positive, hence the
    domain [positive]. *)
Definition _concatenation_x (concatenation_sequence : positive) : list Z :=
  Pos.peano_rect (fun _ => list Z)
    [1; 0; 1; 0]%Z
    (fun _ previous => previous ++ [0%Z] ++ previous ++ [0%Z])
    concatenation_sequence.

Definition concatenation_order_error {A : Type} (n : Z) (duration : Q) : result A :=
  Raise (ArgumentsValueError "Concatenation oder must be above zero:"%string
           [("concatenation_order"%string, PyInt n)]
           [("duration"%string, PyFloat duration)]).

(** Lines 642-650: the offsets computed from the pattern, before the
    trimming of line 652. *)
Definition x_concatenated_computed_offsets (duration : Q) (concatenation_order : positive)
    : list Q :=
  let unit_spacing := duration / inject_Z (2 ^ Z.pos concatenation_order) in
  let cumulations := _concatenation_x concatenation_order in
  let pos_cum := map (fun c => inject_Z c * unit_spacing) cumulations in
  let pos_cum_sum := np_cumsum pos_cum in
  even_count_values (np_unique pos_cum_sum).

(** Lines 652-655. *)
Definition x_concatenated_offsets (duration : Q) (concatenation_order : positive) : list Q :=
  let offsets := x_concatenated_computed_offsets duration concatenation_order in
  if (Z.pos concatenation_order mod 2 =? 1)%Z then drop_last 1 offsets else offsets.

Definition new_x_concatenated_sequence (kw : kwargs) : result DynamicDecouplingSequence :=
  let duration := or_default (kw_duration kw) 1 in
  if Qle_bool duration 0 then duration_error duration
  else
    let concatenation_order := or_default (kw_concatenation_order kw) 1%Z in
    if (concatenation_order <=? 0)%Z then
      concatenation_order_error concatenation_order duration
    else
      let offsets := x_concatenated_offsets duration (Z.to_pos concatenation_order) in
      let rabi_rotations := map (fun x => np_pi * x) (np_ones (List.length offsets)) in
      let azimuthal_angles := np_zeros (List.length offsets) in
      let detuning_rotations := np_zeros (List.length offsets) in
      call_constructor [KwConcatenationOrder] kw duration offsets
                       rabi_rotations azimuthal_angles detuning_rotations.

(* ================================================================= *)
(** ** The XY-concatenated generator *)

(** [_concatenation_xy]. *)
Definition _concatenation_xy_step (previous : list Z) : list Z :=
  let cumulations := previous ++ [(-1)%Z] in
  let cumulations := drop_last 1 cumulations in
  let cumulations := set_last cumulations (-3)%Z in
  let cumulations := cumulations ++ previous ++ [(-2)%Z] in
  let cumulations := drop_last 2 cumulations in
  let cumulations := cumulations ++ previous ++ [(-1)%Z] in
  let cumulations := drop_last 1 cumulations in
  let cumulations := set_last cumulations (-3)%Z in
  let cumulations := cumulations ++ previous ++ [(-2)%Z] in
  if (last cumulations 0 =? -2)%Z && (last (removelast cumulations) 0 =? -2)%Z
  then drop_last 2 cumulations
  else cumulations.

Definition _concatenation_xy (concatenation_sequence : positive) : list Z :=
  Pos.peano_rect (fun _ => list Z)
    [1; -1; 1; -2; 1; -1; 1; -2]%Z
    (fun _ previous => _concatenation_xy_step previous)
    concatenation_sequence.

(** Lines 715-743, once per stream: the markers [drop1] and [drop2] are
    removed, [pulse] marks this stream's instantaneous operation and every
    other entry advances time by one unit. *)
Definition stream_offsets (drop1 drop2 pulse : Z) (unit_spacing : Q) (cumulations : list Z)
    : list Q :=
  let operations := filter (fun c => negb (c =? drop1)%Z) cumulations in
  let operations := filter (fun c => negb (c =? drop2)%Z) operations in
  let positions := map (fun c => if negb (c =? pulse)%Z then 1 else 0) operations in
  let positions := map (fun x => x * unit_spacing) positions in
  let positions := np_cumsum positions in
  even_count_values (np_unique positions).

(** The four output arrays while they are being filled in lines 748-801. *)
Record xy_arrays : Type := mkXY {
  xy_offsets : list Q;
  xy_rabi_rotations : list Q;
  xy_azimuthal_angles : list Q;
  xy_detuning_rotations : list Q
}.

(** Lines 754-785: the merge of the rabi and the azimuthal offsets.  The
    source runs one loop while both lists have entries left and then one
    loop for whichever list is not exhausted; these are the cases of the
    match below, taken in that order.  [fuel] bounds the number of
    iterations; every iteration consumes one entry of one list, so the
    joint length of the lists is enough. *)
Fixpoint merge_rabi_azimuthal (fuel : nat) (rabi_offsets azimuthal_offsets : list Q)
    (carr_idx : nat) (st : xy_arrays) : xy_arrays :=
  match fuel with
  | O => st
  | S fuel' =>
      match rabi_offsets, azimuthal_offsets with
      | [], [] => st
      | r :: rabi_rest, [] =>
          merge_rabi_azimuthal fuel' rabi_rest [] (S carr_idx)
            (mkXY (setitem carr_idx r (xy_offsets st))
                  (setitem carr_idx np_pi (xy_rabi_rotations st))
                  (xy_azimuthal_angles st)
                  (xy_detuning_rotations st))
      | [], a :: azimuthal_rest =>
          merge_rabi_azimuthal fuel' [] azimuthal_rest (S carr_idx)
            (mkXY (setitem carr_idx a (xy_offsets st))
                  (setitem carr_idx np_pi (xy_rabi_rotations st))
                  (setitem carr_idx (np_pi / 2) (xy_azimuthal_angles st))
                  (xy_detuning_rotations st))
      | r :: rabi_rest, a :: azimuthal_rest =>
          if Qlt_bool r a then
            merge_rabi_azimuthal fuel' rabi_rest azimuthal_offsets (S carr_idx)
              (mkXY (setitem carr_idx r (xy_offsets st))
                    (setitem carr_idx np_pi (xy_rabi_rotations st))
                    (xy_azimuthal_angles st)
                    (xy_detuning_rotations st))
          else
            merge_rabi_azimuthal fuel' rabi_offsets azimuthal_rest (S carr_idx)
              (mkXY (setitem carr_idx a (xy_offsets st))
                    (setitem carr_idx np_pi (xy_rabi_rotations st))
                    (setitem carr_idx (np_pi / 2) (xy_azimuthal_angles st))
                    (xy_detuning_rotations st))
      end
  end.

(** Lines 788-801: the insertion of the detuning offsets.  The loop runs
    over the indices of [offsets] and reads the entry an index holds when
    the loop reaches it, as the iteration over a numpy array does; [indices]
    is what is left of [range(len(offsets))]. *)
Fixpoint insert_detuning (indices : list nat) (detuning_offsets : list Q)
    (z_idx : nat) (st : xy_arrays) : xy_arrays :=
  match indices with
  | [] => st
  | carr_idx :: rest =>
      let offset := nth carr_idx (xy_offsets st) 0 in
      let z := nth z_idx detuning_offsets 0 in
      let '(st', z_idx') :=
        if Qlt_bool z offset then
          (mkXY (setitem carr_idx z (shift_right carr_idx (xy_offsets st)))
                (setitem carr_idx 0 (shift_right carr_idx (xy_rabi_rotations st)))
                (setitem carr_idx 0 (shift_right carr_idx (xy_azimuthal_angles st)))
                (setitem carr_idx np_pi (xy_detuning_rotations st)),
           S z_idx)
        else (st, z_idx) in
      if (List.length detuning_offsets <=? z_idx')%nat then st'
      else insert_detuning rest detuning_offsets z_idx' st'
  end.

(** Lines 748-785: the merged rabi/azimuthal arrays, padded with zeros for
    the detuning offsets still to come. *)
Definition xy_merged (rabi_offsets azimuthal_offsets detuning_offsets : list Q) : xy_arrays :=
  let n := (List.length rabi_offsets + List.length azimuthal_offsets
            + List.length detuning_offsets)%nat in
  merge_rabi_azimuthal (List.length rabi_offsets + List.length azimuthal_offsets)
    rabi_offsets azimuthal_offsets 0
    (mkXY (np_zeros n) (np_zeros n) (np_zeros n) (np_zeros n)).

(** Lines 787-801. *)
Definition xy_with_detuning (detuning_offsets : list Q) (st : xy_arrays) : xy_arrays :=
  match detuning_offsets with
  | [] => st
  | _ :: _ => insert_detuning (seq 0 (List.length (xy_offsets st))) detuning_offsets 0 st
  end.

Definition xy_rabi_offsets (duration : Q) (concatenation_order : positive) : list Q :=
  stream_offsets (-2) (-3) (-1)
    (duration / inject_Z (2 ^ (Z.pos concatenation_order * 2)))
    (_concatenation_xy concatenation_order).

Definition xy_azimuthal_offsets (duration : Q) (concatenation_order : positive) : list Q :=
  stream_offsets (-1) (-3) (-2)
    (duration / inject_Z (2 ^ (Z.pos concatenation_order * 2)))
    (_concatenation_xy concatenation_order).

Definition xy_detuning_offsets (duration : Q) (concatenation_order : positive) : list Q :=
  stream_offsets (-2) (-1) (-3)
    (duration / inject_Z (2 ^ (Z.pos concatenation_order * 2)))
    (_concatenation_xy concatenation_order).

Definition xy_concatenated_arrays (duration : Q) (concatenation_order : positive) : xy_arrays :=
  let rabi_offsets := xy_rabi_offsets duration concatenation_order in
  let azimuthal_offsets := xy_azimuthal_offsets duration concatenation_order in
  let detuning_offsets := xy_detuning_offsets duration concatenation_order in
  xy_with_detuning detuning_offsets
    (xy_merged rabi_offsets azimuthal_offsets detuning_offsets).

Definition new_xy_concatenated_sequence (kw : kwargs) : result DynamicDecouplingSequence :=
  let duration := or_default (kw_duration kw) 1 in
  if Qle_bool duration 0 then duration_error duration
  else
    let concatenation_order := or_default (kw_concatenation_order kw) 1%Z in
    if (concatenation_order <=? 0)%Z then
      concatenation_order_error concatenation_order duration
    else
      let st := xy_concatenated_arrays duration (Z.to_pos concatenation_order) in
      call_constructor [KwConcatenationOrder] kw duration (xy_offsets st)
                       (xy_rabi_rotations st) (xy_azimuthal_angles st)
                       (xy_detuning_rotations st).

(* ================================================================= *)
(** ** Generators that evaluate a sine, and the dispatcher *)

Section WithSine.

(** [np.sin] on floats has no rational counterpart; the generators below
    take it as a parameter. *)
Variable np_sin : Q -> Q.

(** [_uhrig_single_axis_offsets]. *)
Definition _uhrig_single_axis_offsets (duration : Q) (number_of_offsets : Z) : list Q :=
  let constant := 1 / inject_Z (2 * number_of_offsets + 2) in
  let deltas := map (fun k => (np_sin (np_pi * inject_Z k * constant)) ^ 2)
                    (py_range 1 (number_of_offsets + 1)) in
  map (fun x => duration * x) deltas.

Definition new_uhrig_single_axis_sequence (kw : kwargs) : result DynamicDecouplingSequence :=
  let duration := or_default (kw_duration kw) 1 in
  if Qle_bool duration 0 then duration_error duration
  else
    let number_of_offsets := or_default (kw_number_of_offsets kw) 1%Z in
    if (number_of_offsets <=? 0)%Z then number_of_offsets_error number_of_offsets
    else
      let offsets := _uhrig_single_axis_offsets duration number_of_offsets in
      let rabi_rotations := map (fun _ => np_pi) (np_zeros (List.length offsets)) in
      let azimuthal_angles := map (fun _ => np_pi / 2) (np_zeros (List.length offsets)) in
      let detuning_rotations := np_zeros (List.length offsets) in
      call_constructor [KwNumberOfOffsets] kw duration offsets
                       rabi_rotations azimuthal_angles detuning_rotations.

(** Lines 465-483 of [new_walsh_single_axis_sequence]: the relative offsets
    of the sign changes of the Walsh function of the given Paley order. *)
Definition walsh_relative_offsets (paley_order : Z) : list Q :=
  let hamming_weight := (Z.log2 paley_order + 1)%Z in
  let samples := (2 ^ hamming_weight)%Z in
  let relative_offset :=
    np_arange (1 / inject_Z (2 * samples)) 1 (1 / inject_Z samples) in
  let binary_order :=
    map (fun i => Z.b2z (Z.testbit paley_order (hamming_weight - 1 - i)))
        (py_range 0 hamming_weight) in
  let walsh_array :=
    fold_left
      (fun walsh_array i =>
         map (fun wt =>
                fst wt * (np_sign (np_sin (inject_Z (2 ^ (i + 1)) * np_pi * snd wt)))
                         ^ (nth (Z.to_nat (hamming_weight - 1 - i)) binary_order 0%Z))
             (combine walsh_array relative_offset))
      (py_range 0 hamming_weight)
      (np_ones (Z.to_nat samples)) in
  flat_map
    (fun i =>
       if negb (Qeq_bool (nth (Z.to_nat i) walsh_array 0)
                         (nth (Z.to_nat (i + 1)) walsh_array 0))
       then [inject_Z (i + 1) * (1 / inject_Z samples)]
       else [])
    (py_range 0 (samples - 1)).

Definition new_walsh_single_axis_sequence (kw : kwargs) : result DynamicDecouplingSequence :=
  let duration := or_default (kw_duration kw) 1 in
  if Qle_bool duration 0 then duration_error duration
  else
    let paley_order := or_default (kw_paley_order kw) 1%Z in
    if (paley_order <? 1)%Z || (2000 <? paley_order)%Z then
      Raise (ArgumentsValueError "Paley order must be between 1 and 2000."%string
               [("paley_order"%string, PyInt paley_order)] [])
    else
      let offsets := map (fun x => duration * x) (walsh_relative_offsets paley_order) in
      let rabi_rotations := map (fun _ => np_pi) (np_zeros (List.length offsets)) in
      let azimuthal_angles := np_zeros (List.length offsets) in
      let detuning_rotations := np_zeros (List.length offsets) in
      call_constructor [KwPaleyOrder] kw duration offsets
                       rabi_rotations azimuthal_angles detuning_rotations.

(** [new_quadratic_sequence].  The two-dimensional arrays are lists of rows;
    row [r] holds the inner offsets of the [r]-th interval followed by one
    trailing slot. *)
Definition new_quadratic_sequence (kw : kwargs) : result DynamicDecouplingSequence :=
  let duration := or_default (kw_duration kw) 1 in
  if Qle_bool duration 0 then duration_error duration
  else
    let number_inner_offsets := or_default (kw_number_inner_offsets kw) 1%Z in
    if (number_inner_offsets <=? 0)%Z then
      Raise (ArgumentsValueError
               "Number of offsets of inner pulses must be above zero:"%string
               [("number_inner_offsets"%string, PyInt number_inner_offsets)]
               [("duration"%string, PyFloat duration);
                ("number_outer_offsets"%string,
                 match kw_number_outer_offsets kw with
                 | Some n => PyInt n
                 | None => PyNone
                 end)])
    else
      let number_outer_offsets := or_default (kw_number_outer_offsets kw) 1%Z in
      if (number_outer_offsets <=? 0)%Z then
        Raise (ArgumentsValueError
                 "Number of offsets of outer pulses must be above zero:"%string
                 [("number_inner_offsets"%string, PyInt number_outer_offsets)]
                 [("duration"%string, PyFloat duration);
                  ("number_inner_offsets"%string, PyInt number_inner_offsets)])
      else
        let outer_offsets := _uhrig_single_axis_offsets duration number_outer_offsets in
        let outer_offsets := 0 :: outer_offsets ++ [duration] in
        let starts := drop_last 1 outer_offsets in
        let ends := tl outer_offsets in
        let inner_durations := map (fun se => snd se - fst se) (combine starts ends) in
        let rows := seq 0 (List.length inner_durations) in
        let n_outer := Z.to_nat number_outer_offsets in
        let n_inner := Z.to_nat number_inner_offsets in
        let offsets :=
          map (fun r =>
                 map (fun x => x + nth r starts 0)
                     (_uhrig_single_axis_offsets (nth r inner_durations 0)
                                                 number_inner_offsets)
                 ++ [if (r <? n_outer)%nat then nth (S r) outer_offsets 0 else 0])
              rows in
        let rabi_rotations :=
          map (fun r => np_zeros n_inner ++ [if (r <? n_outer)%nat then np_pi else 0]) rows in
        let detuning_rotations :=
          map (fun r => (if (r <? n_outer + 1)%nat then repeat np_pi n_inner
                         else np_zeros n_inner) ++ [0]) rows in
        let offsets := drop_last 1 (List.concat offsets) in
        let rabi_rotations := drop_last 1 (List.concat rabi_rotations) in
        let detuning_rotations := drop_last 1 (List.concat detuning_rotations) in
        let azimuthal_angles := np_zeros (List.length offsets) in
        call_constructor [KwNumberInner; KwNumberOuter] kw duration offsets
                         rabi_rotations azimuthal_angles detuning_rotations.

(** The argument-validation error of the dispatcher's last branch. *)
Fixpoint join (sep : string) (l : list string) : string :=
  match l with
  | [] => EmptyString
  | [x] => x
  | x :: r => (x ++ sep ++ join sep r)%string
  end.

Definition scheme_names : list string :=
  [RAMSEY; SPIN_ECHO; CARR_PURCELL; CARR_PURCELL_MEIBOOM_GILL; UHRIG_SINGLE_AXIS;
   PERIODIC_SINGLE_AXIS; WALSH_SINGLE_AXIS; QUADRATIC; X_CONCATENATED; XY_CONCATENATED].

Definition unknown_scheme_description : string :=
  ("Unknown predefined sequence scheme. Allowed schemes are: "
   ++ join ", " scheme_names ++ ".")%string.

(** [new_predefined_dds(scheme, **kwargs)]. *)
Definition new_predefined_dds (scheme : string) (kw : kwargs)
    : result DynamicDecouplingSequence :=
  if String.eqb scheme RAMSEY then new_ramsey_sequence kw
  else if String.eqb scheme SPIN_ECHO then new_spin_echo_sequence kw
  else if String.eqb scheme CARR_PURCELL then new_carr_purcell_sequence kw
  else if String.eqb scheme CARR_PURCELL_MEIBOOM_GILL then
    new_carr_purcell_meiboom_gill_sequence kw
  else if String.eqb scheme UHRIG_SINGLE_AXIS then new_uhrig_single_axis_sequence kw
  else if String.eqb scheme PERIODIC_SINGLE_AXIS then new_periodic_single_axis_sequence kw
  else if String.eqb scheme WALSH_SINGLE_AXIS then new_walsh_single_axis_sequence kw
  else if String.eqb scheme QUADRATIC then new_quadratic_sequence kw
  else if String.eqb scheme X_CONCATENATED then new_x_concatenated_sequence kw
  else if String.eqb scheme XY_CONCATENATED then new_xy_concatenated_sequence kw
  else
    Raise (ArgumentsValueError unknown_scheme_description
             [("sequence_name"%string, PyStr scheme)] []).

End WithSine.

(** A crude stand-in for the sine, positive below [np_pi] and negative
    above, to run the generators on concrete inputs. *)
Definition square_sin (x : Q) : Q := if Qle_bool x np_pi then 1 else -1.

(** Another stand-in, for the generators that evaluate the sine between
    [0] and [np_pi / 2] only: positive, increasing and below [1] there. *)
Definition ramp_sin (x : Q) : Q := x / 2.

(* ================================================================= *)
(** ** Vocabulary of the statements about the constructor *)

(** The arrays the boundary normalization starts from. *)
Definition supplied (offsets rabi azi det : option (list Q)) : arrays :=
  let offs := default_offsets offsets in
  (offs,
   default_rabi_rotations (List.length offs) rabi,
   default_zeros (List.length offs) azi,
   default_zeros (List.length offs) det).

(** Whether the boundary offset is missing from the supplied offsets, as
    lines 131 and 144 test it. *)
Definition head_missing (offs : list Q) : bool := negb (Qeq_bool (hd 0 offs) 0).
Definition tail_missing (d : Q) (offs : list Q) : bool := negb (Qeq_bool (last offs 0) d).

(** The rabi value placed at a boundary. *)
Definition boundary_rabi (ppr : bool) : Q := if ppr then np_pi / 2 else 0.

(** The rabi array after the start has been normalized, and after both ends
    have been. *)
Definition rabi_after_start (ppr : bool) (offs rabi : list Q) : list Q :=
  if head_missing offs then boundary_rabi ppr :: rabi
  else if ppr then np_pi / 2 :: tl rabi
  else rabi.

Definition rabi_after_end (d : Q) (ppr : bool) (offs rabi1 : list Q) : list Q :=
  if tail_missing d offs then rabi1 ++ [boundary_rabi ppr]
  else if ppr then removelast rabi1 ++ [np_pi / 2]
  else rabi1.


(* ================================================================= *)
(** ** Vocabulary of the statements about the generators *)

(** Whether the text [s] contains [name]. *)
Definition mentions (name s : string) : bool :=
  match String.index 0 name s with
  | Some _ => true
  | None => false
  end.

(** The keyword arguments [duration=d, paley_order=1, name=nm]. *)
Definition walsh_paley_one_kwargs (d : Q) (nm : option string) : kwargs :=
  mkKwargs (Some d) None (Some 1%Z) None None None None nm [].

(** The keyword arguments [duration=d, name=nm]. *)
Definition duration_kwargs (d : Q) (nm : option string) : kwargs :=
  mkKwargs (Some d) None None None None None None nm [].

(** How often the value [p] occurs in the array [a]. *)
Definition countQ (p : Q) (a : list Q) : nat := List.length (filter (Qeq_bool p) a).

(** The pulses of a pattern of unit steps ([1]) and instantaneous pulses
    ([0]): entry [k] sits at the cumulative position
    [np.cumsum(pattern * unit_spacing)[k]].  [pulse_multiplicity] counts the
    pulses of the pattern that sit at position [p]. *)
Definition pulse_multiplicity (pattern : list Z) (unit_spacing p : Q) : nat :=
  List.length
    (filter (fun cp => (fst cp =? 0)%Z && Qeq_bool p (snd cp))
            (combine pattern
                     (np_cumsum (map (fun c => inject_Z c * unit_spacing) pattern)))).

(** The time steps one stream of the XY pattern takes: the pattern without
    the two other streams' markers, its own marker [pulse] taking no time
    and every other entry one [unit_spacing] (lines 715-719). *)
Definition stream_steps (drop1 drop2 pulse : Z) (unit_spacing : Q) (cumulations : list Z)
    : list Q :=
  map (fun x => x * unit_spacing)
      (map (fun c => if negb (c =? pulse)%Z then 1 else 0)
           (filter (fun c => negb (c =? drop2)%Z)
                   (filter (fun c => negb (c =? drop1)%Z) cumulations))).

(** The number of unit steps in a stretch of the XY pattern. *)
Definition time_steps (cumulations : list Z) : nat :=
  List.length
    (filter (fun c => negb (c =? -1)%Z && negb (c =? -2)%Z && negb (c =? -3)%Z)
            cumulations).

(* ================================================================= *)
(** ** Sequences used as concrete instances *)

(** What [duration=1, offsets=[0, 0.5, 1], rabi_rotations=[7, 8, 9],
    pre_post_rotation=True] constructs. *)
Definition framed_example : DynamicDecouplingSequence :=
  mkSequence 1 [0; 1 # 2; 1] [np_pi / 2; 8; np_pi / 2] [0; 0; 0] [0; 0; 0] true 3%nat None.

(** What [duration=2, offsets=[0.5], rabi_rotations=[5],
    azimuthal_angles=[6], detuning_rotations=[7], pre_post_rotation=True]
    constructs. *)
Definition quarter_example : DynamicDecouplingSequence :=
  mkSequence 2 [0; 1 # 2; 2] [np_pi / 2; 5; np_pi / 2] [0; 6; 0] [0; 7; 0] true 3%nat None.

(** What [duration=1, offsets=[0.25, 0.75]] constructs. *)
Definition two_pulse_example : DynamicDecouplingSequence :=
  mkSequence 1 [0; 1 # 4; 3 # 4; 1] [0; np_pi * 1; np_pi * 1; 0] [0; 0; 0; 0] [0; 0; 0; 0]
             false 4%nat None.

(* ================================================================= *)
(** ** Auxiliary notions of the proofs *)

(** The counts the groups hold for the value [p]. *)
Fixpoint group_total (p : Q) (g : list (Q * nat)) : nat :=
  match g with
  | [] => 0%nat
  | (v, c) :: g' => ((if Qeq_bool p v then c else 0%nat) + group_total p g')%nat
  end.

(** A pattern of unit steps and pulses scaled to time steps, and the pulses
    that sit at position [p] when the cumulative sum starts from [acc]. *)
Definition scaled (u : Q) (pattern : list Z) : list Q :=
  map (fun c => inject_Z c * u) pattern.

Definition pulses_from (acc : Q) (pattern : list Z) (u p : Q) : nat :=
  List.length
    (filter (fun cp => (fst cp =? 0)%Z && Qeq_bool p (snd cp))
            (combine pattern (cumsum_from acc (scaled u pattern)))).


(* ================================================================= *)
(** ** [DynamicDecouplingSequence.get_plot_formatted_arrays] *)

(** Modelled from the spec: [MATPLOTLIB] is imported from the absent
    [constants.py]; the docstring of [get_plot_formatted_arrays] gives its
    value. *)
Definition MATPLOTLIB : string := "matplotlib"%string.

(** The dictionary the method returns, one field per key. *)
Record plot_data : Type := mkPlotData {
  plot_rabi_rotations : list Q;
  plot_azimuthal_angles : list Q;
  plot_detuning_rotations : list Q;
  plot_times : list Q
}.

(** Lines 218-237 for one stream: the column of values times the
    [number_of_offsets] rows [[0, 1, 0]] of the multiplier, flattened.  The
    arrays of a constructed sequence all have the length
    [number_of_offsets], so row [k] of the multiplier meets entry [k]. *)
Definition plot_stream (number_of_offsets : nat) (values : list Q) : list Q :=
  List.concat
    (map (fun vm => map (fun m => fst vm * m) (snd vm))
         (combine values (repeat [0; 1; 0] number_of_offsets))).

Definition get_plot_formatted_arrays (self : DynamicDecouplingSequence) (plot_format : string)
    : result plot_data :=
  if negb (String.eqb plot_format MATPLOTLIB) then
    Raise (ArgumentsValueError
             "Open Controls currently supports `matplotlib` data format only."%string
             [("data_format"%string, PyStr plot_format)] [])
  else
    let number_of_offsets := number_of_offsets self in
    let plot_times := List.concat (map (fun t => repeat t 3) (offsets self)) in
    Return (mkPlotData (plot_stream number_of_offsets (rabi_rotations self))
                       (plot_stream number_of_offsets (azimuthal_angles self))
                       (plot_stream number_of_offsets (detuning_rotations self))
                       plot_times).

(** Every third entry of a flattened plot array, starting with the second:
    the middle of each triplet. *)
Fixpoint triplet_middles (a : list Q) : list Q :=
  match a with
  | _ :: m :: _ :: r => m :: triplet_middles r
  | _ => []
  end.

(** The rotations one offset of the XY-concatenated sequence may carry, as
    [(rabi, (azimuthal, detuning))]: a detuning pulse alone, or a rabi
    pulse about the X axis (azimuthal [0]) or the Y axis (azimuthal
    [np.pi / 2]). *)
Definition xy_pulse_kind (row : Q * (Q * Q)) : Prop :=
  let '(rabi, (azimuthal, detuning)) := row in
  (detuning = np_pi /\ rabi = 0 /\ azimuthal = 0) \/
  (detuning = 0 /\ rabi = np_pi /\ (azimuthal = 0 \/ azimuthal = np_pi / 2)).
(* ================================================================= *)
(** * Running the model *)

Example spin_echo_default :
  new_spin_echo_sequence no_kwargs
  = Return (mkSequence 1 [0; 1 # 2; 1] [0; np_pi; 0] [0; 0; 0] [0; 0; 0] false 3%nat None).
Proof. vm_compute. reflexivity. Qed.

Example ramsey_duration_two :
  new_ramsey_sequence (duration_kwargs 2 None)
  = Return (mkSequence 2 [0; 2] [0; 0] [0; 0] [0; 0] false 2%nat None).
Proof. vm_compute. reflexivity. Qed.

Example cpmg_two_offsets :
  match new_carr_purcell_meiboom_gill_sequence
          (mkKwargs (Some 1) (Some 2%Z) None None None None None None []) with
  | Return sequence =>
      map Qred (offsets sequence) = [0; 1 # 4; 3 # 4; 1] /\
      rabi_rotations sequence = [0; np_pi; np_pi; 0] /\
      azimuthal_angles sequence = [0; np_pi / 2; np_pi / 2; 0]
  | Raise _ => False
  end.
Proof. vm_compute. repeat split; reflexivity. Qed.

Example duration_zero_is_rejected :
  is_ArgumentsValueError (new_sequence 0 None None None None false None) = true.
Proof. reflexivity. Qed.

Example empty_offsets_raise_IndexError :
  new_sequence 1 (Some []) None None None false None = Raise IndexError.
Proof. reflexivity. Qed.

Example concatenation_x_order_two :
  _concatenation_x 2 = [1; 0; 1; 0; 0; 1; 0; 1; 0; 0]%Z.
Proof. reflexivity. Qed.

Example x_concatenated_small_orders :
  map Qred (x_concatenated_offsets 1 1) = [1 # 2] /\
  map Qred (x_concatenated_offsets 1 2) = [1 # 4; 3 # 4] /\
  map Qred (x_concatenated_offsets 1 3) = [1 # 8; 3 # 8; 1 # 2; 5 # 8; 7 # 8].
Proof. vm_compute. repeat split; reflexivity. Qed.

Example concatenation_xy_order_two :
  _concatenation_xy 2
  = [1; -1; 1; -2; 1; -1; 1; -3; 1; -1; 1; -2; 1; -1; 1;
     1; -1; 1; -2; 1; -1; 1; -3; 1; -1; 1; -2; 1; -1; 1]%Z.
Proof. reflexivity. Qed.

Example xy_concatenated_order_two :
  map Qred (xy_rabi_offsets 16 2) = [1; 3; 5; 7; 9; 11; 13; 15] /\
  map Qred (xy_azimuthal_offsets 16 2) = [2; 6; 10; 14] /\
  map Qred (xy_detuning_offsets 16 2) = [4; 12] /\
  map Qred (xy_offsets (xy_concatenated_arrays 16 2))
  = [1; 2; 3; 4; 5; 6; 7; 9; 10; 11; 12; 13; 14; 15] /\
  xy_detuning_rotations (xy_concatenated_arrays 16 2)
  = [0; 0; 0; np_pi; 0; 0; 0; 0; 0; 0; np_pi; 0; 0; 0].
Proof. vm_compute. repeat split; reflexivity. Qed.

(* ================================================================= *)
(** * Properties of the constructor *)

(** ** Comparisons *)

Lemma Qlt_bool_false (x y : Q) : Qlt_bool x y = false <-> y <= x.
Proof.
  unfold Qlt_bool. rewrite negb_false_iff. apply Qle_bool_iff.
Qed.

Lemma Qlt_bool_true (x y : Q) : Qlt_bool x y = true <-> x < y.
Proof.
  unfold Qlt_bool. rewrite negb_true_iff. split; intro H.
  - apply Qnot_le_lt. intro Hle. apply Qle_bool_iff in Hle. congruence.
  - destruct (Qle_bool y x) eqn:E; [|reflexivity].
    apply Qle_bool_iff in E. exfalso. exact (Qlt_not_le _ _ H E).
Qed.

Lemma Qle_bool_false (x y : Q) : Qle_bool x y = false <-> y < x.
Proof.
  rewrite <- Qlt_bool_true. unfold Qlt_bool. now rewrite negb_true_iff.
Qed.

Lemma Qeq_bool_false (x y : Q) : Qeq_bool x y = false <-> ~ x == y.
Proof.
  split; intro H.
  - intro E. apply Qeq_bool_iff in E. congruence.
  - destruct (Qeq_bool x y) eqn:E; [|reflexivity].
    apply Qeq_bool_iff in E. contradiction.
Qed.

(** ** What a successful construction went through *)

Lemma bind_Return {A B : Type} (m : result A) (k : A -> result B) (b : B) :
  bind m k = Return b -> exists a, m = Return a /\ k a = Return b.
Proof.
  destruct m as [a|e]; simpl; intro H; [eauto | discriminate].
Qed.

Lemma existsb_false_Forall {A : Type} (f : A -> bool) (l : list A) :
  existsb f l = false -> Forall (fun x => f x = false) l.
Proof.
  induction l as [|x l IH]; simpl; intro H; constructor.
  - now apply orb_false_iff in H.
  - apply IH. now apply orb_false_iff in H.
Qed.

Lemma new_sequence_Return d o r a z ppr nm S :
  new_sequence d o r a z ppr nm = Return S ->
  0 < d /\
  (Z.of_nat (List.length (default_offsets o)) <= UPPER_BOUND_OFFSETS)%Z /\
  Forall (fun x => 0 <= x <= d) (default_offsets o) /\
  exists st1 rabi2 azi2 det2 offs2,
    normalize_start ppr (supplied o r a z) = Return st1 /\
    normalize_end d ppr st1 = Return (offs2, rabi2, azi2, det2) /\
    List.length rabi2 = List.length offs2 /\
    List.length azi2 = List.length offs2 /\
    List.length det2 = List.length offs2 /\
    S = mkSequence d offs2 rabi2 azi2 det2 ppr (List.length offs2) nm.
Proof.
  unfold new_sequence, supplied.
  destruct (Qle_bool d 0) eqn:Hd; [discriminate|].
  destruct (UPPER_BOUND_OFFSETS <? _)%Z eqn:Hn; [discriminate|].
  destruct (existsb _ _ || existsb _ _) eqn:Hr; [discriminate|].
  intro H. apply bind_Return in H as (st1 & H1 & H).
  apply bind_Return in H as (st2 & H2 & H).
  destruct st2 as [[[offs2 rabi2] azi2] det2].
  destruct (List.length rabi2 =? _)%nat eqn:L1; simpl in H; [|discriminate].
  destruct (List.length azi2 =? _)%nat eqn:L2; simpl in H; [|discriminate].
  destruct (List.length det2 =? _)%nat eqn:L3; simpl in H; [|discriminate].
  apply Nat.eqb_eq in L1, L2, L3.
  apply Qle_bool_false in Hd. apply Z.ltb_ge in Hn.
  apply orb_false_iff in Hr as [Hlo Hhi].
  apply existsb_false_Forall in Hlo, Hhi.
  repeat split; try assumption.
  - apply Forall_forall. intros x Hx.
    rewrite Forall_forall in Hlo, Hhi.
    split; [apply Qlt_bool_false, Hlo, Hx | apply Qlt_bool_false, Hhi, Hx].
  - exists st1, rabi2, azi2, det2, offs2. repeat split; try assumption.
    now inversion H.
Qed.

(** The two normalization steps, seen from their results. *)
Lemma normalize_start_Return ppr offs rabi azi det st :
  normalize_start ppr (offs, rabi, azi, det) = Return st ->
  exists first rest,
    offs = first :: rest /\
    ((~ first == 0 /\
      st = (0 :: offs, (if ppr then np_pi / 2 else 0) :: rabi, 0 :: azi, 0 :: det))
     \/
     (first == 0 /\
      exists rabi', st = (offs, rabi', azi, det) /\
        if ppr then exists r0 rrest, rabi = r0 :: rrest /\ rabi' = np_pi / 2 :: rrest
        else rabi' = rabi)).
Proof.
  unfold normalize_start. destruct offs as [|first rest]; simpl; [discriminate|].
  intro H. exists first, rest. split; [reflexivity|].
  destruct (Qeq_bool first 0) eqn:E; simpl in H.
  - right. apply Qeq_bool_iff in E. split; [assumption|].
    destruct ppr.
    + destruct rabi as [|r0 rrest]; simpl in H; [discriminate|].
      inversion H. eauto 6.
    + inversion H. eauto.
  - left. apply Qeq_bool_false in E. split; [assumption|]. now inversion H.
Qed.

Lemma normalize_end_Return d ppr offs rabi azi det st :
  normalize_end d ppr (offs, rabi, azi, det) = Return st ->
  offs <> [] /\
  ((~ last offs 0 == d /\
    st = (offs ++ [d], rabi ++ [if ppr then np_pi / 2 else 0], azi ++ [0], det ++ [0]))
   \/
   (last offs 0 == d /\
    exists rabi', st = (offs, rabi', azi, det) /\
      if ppr then rabi <> [] /\ rabi' = removelast rabi ++ [np_pi / 2]
      else rabi' = rabi)).
Proof.
  unfold normalize_end. destruct offs as [|x rest]; simpl getitem_last; [discriminate|].
  unfold bind. intro H. split; [discriminate|].
  replace (last (x :: rest) 0) with (last rest x)
    by (clear; revert x; induction rest; intros; simpl in *; auto;
        destruct rest; auto).
  destruct (Qeq_bool (last rest x) d) eqn:E; simpl in H.
  - right. apply Qeq_bool_iff in E. split; [assumption|].
    destruct ppr.
    + destruct rabi as [|r0 rrest]; simpl in H; [discriminate|].
      inversion H. eexists. split; [reflexivity|]. split; [discriminate|reflexivity].
    + inversion H. eauto.
  - left. apply Qeq_bool_false in E. split; [assumption|]. now inversion H.
Qed.

(** ** The shape of a constructed sequence *)

Lemma last_cons_nonempty {A : Type} (x : A) (l : list A) (d : A) :
  l <> [] -> last (x :: l) d = last l d.
Proof. destruct l; [congruence | reflexivity]. Qed.

Lemma new_sequence_shape d o r a z ppr nm S :
  new_sequence d o r a z ppr nm = Return S ->
  let '(offs, rabi, azi, det) := supplied o r a z in
  let hn := head_missing offs in
  let tn := tail_missing d offs in
  offs <> [] /\
  duration S = d /\ pre_post_rotation S = ppr /\ name S = nm /\
  number_of_offsets S = List.length (offsets S) /\
  offsets S = (if hn then [0] else []) ++ offs ++ (if tn then [d] else []) /\
  azimuthal_angles S = (if hn then [0] else []) ++ azi ++ (if tn then [0] else []) /\
  detuning_rotations S = (if hn then [0] else []) ++ det ++ (if tn then [0] else []) /\
  rabi_rotations S = rabi_after_end d ppr offs (rabi_after_start ppr offs rabi) /\
  (hn = false -> ppr = true -> rabi <> []) /\
  List.length (rabi_rotations S) = List.length (offsets S) /\
  List.length (azimuthal_angles S) = List.length (offsets S) /\
  List.length (detuning_rotations S) = List.length (offsets S).
Proof.
  intro H. apply new_sequence_Return in H
    as (_ & _ & _ & st1 & rabi2 & azi2 & det2 & offs2 & H1 & H2 & L1 & L2 & L3 & ->).
  unfold supplied in *.
  set (offs := default_offsets o) in *.
  set (rabi := default_rabi_rotations _ r) in *.
  set (azi := default_zeros _ a) in *.
  set (det := default_zeros _ z) in *.
  cbn [duration pre_post_rotation name number_of_offsets offsets
       azimuthal_angles detuning_rotations rabi_rotations].
  apply normalize_start_Return in H1 as (first & rest & Hoffs & H1).
  assert (Hne : offs <> []) by (rewrite Hoffs; discriminate).
  unfold rabi_after_end, rabi_after_start, head_missing, tail_missing.
  rewrite Hoffs in *. cbn [hd].
  destruct H1 as [[Hf ->] | [Hf (rabi' & -> & Hr)]].
  - apply Qeq_bool_false in Hf. rewrite Hf. cbn [negb].
    apply normalize_end_Return in H2 as [_ H2].
    rewrite last_cons_nonempty in H2 by discriminate.
    destruct H2 as [[Hl E] | [Hl (rabi'' & E & Hr)]]; inversion E; subst; clear E.
    + apply Qeq_bool_false in Hl. rewrite Hl. cbn [negb].
      repeat split; auto; try discriminate.
    + apply Qeq_bool_iff in Hl. rewrite Hl. cbn [negb].
      rewrite !app_nil_r.
      destruct ppr; [destruct Hr as [_ ->] | subst rabi''];
        repeat split; auto; try discriminate.
  - apply Qeq_bool_iff in Hf. rewrite Hf. cbn [negb].
    apply normalize_end_Return in H2 as [_ H2].
    destruct H2 as [[Hl E] | [Hl (rabi'' & E & Hr2)]]; inversion E; subst; clear E.
    + apply Qeq_bool_false in Hl. rewrite Hl. cbn [negb].
      destruct ppr; [destruct Hr as (r0 & rrest & Er & ->); rewrite Er | subst rabi'];
        repeat split; auto; try discriminate.
    + apply Qeq_bool_iff in Hl. rewrite Hl. cbn [negb].
      rewrite !app_nil_r.
      destruct ppr.
      * destruct Hr as (r0 & rrest & Er & ->). rewrite Er. destruct Hr2 as [_ ->].
        repeat split; auto; try discriminate.
      * subst. repeat split; auto; try discriminate.
Qed.

(** ** Boundary facts shared by the theorems below *)

Lemma removelast_snoc {A : Type} (l : list A) (x : A) : removelast (l ++ [x]) = l.
Proof. apply removelast_last. Qed.

Lemma snoc_cases {A : Type} (l : list A) :
  l = [] \/ exists body x, l = body ++ [x].
Proof.
  destruct l as [|y l]; [now left | right].
  destruct (exists_last (l := y :: l)) as (body & x & E); [discriminate|].
  eauto.
Qed.

Lemma constructed_first_zero d o r a z ppr nm S :
  new_sequence d o r a z ppr nm = Return S ->
  exists x rest, offsets S = x :: rest /\ x == 0.
Proof.
  intro H. pose proof (new_sequence_shape _ _ _ _ _ _ _ _ H) as Sh.
  unfold supplied in Sh.
  destruct Sh as (Hne & _ & _ & _ & _ & Ho & _).
  rewrite Ho. unfold head_missing.
  destruct (default_offsets o) as [|first rest]; [congruence|].
  cbn [hd]. destruct (Qeq_bool first 0) eqn:E; cbn [negb app].
  - apply Qeq_bool_iff in E. eauto.
  - exists 0. eexists. split; [reflexivity | reflexivity].
Qed.

Lemma constructed_last_duration d o r a z ppr nm S :
  new_sequence d o r a z ppr nm = Return S ->
  exists body y, offsets S = body ++ [y] /\ y == d.
Proof.
  intro H. pose proof (new_sequence_shape _ _ _ _ _ _ _ _ H) as Sh.
  unfold supplied in Sh.
  destruct Sh as (Hne & _ & _ & _ & _ & Ho & _).
  rewrite Ho. unfold tail_missing.
  destruct (Qeq_bool (last (default_offsets o) 0) d) eqn:E; cbn [negb].
  - apply Qeq_bool_iff in E. rewrite app_nil_r.
    destruct (snoc_cases (default_offsets o)) as [E0 | (body & y & E0)]; [congruence|].
    rewrite E0 in *. rewrite last_last in E.
    exists (((if head_missing (body ++ [y]) then [0] else []) ++ body)), y.
    now rewrite app_assoc.
  - eexists. exists d. rewrite app_assoc. split; reflexivity.
Qed.

Lemma constructed_rabi_quarter_turns d o r a z nm S :
  new_sequence d o r a z true nm = Return S ->
  (exists rest, rabi_rotations S = np_pi / 2 :: rest) /\
  (exists body, rabi_rotations S = body ++ [np_pi / 2]).
Proof.
  intro H. pose proof (new_sequence_shape _ _ _ _ _ _ _ _ H) as Sh.
  unfold supplied in Sh.
  destruct Sh as (_ & _ & _ & _ & _ & _ & _ & _ & Hr & _).
  rewrite Hr. unfold rabi_after_end, rabi_after_start, boundary_rabi.
  set (rabi := default_rabi_rotations _ r).
  assert (E1 : exists t, (if head_missing (default_offsets o)
                          then np_pi / 2 :: rabi else np_pi / 2 :: tl rabi)
                         = np_pi / 2 :: t)
    by (destruct (head_missing _); eauto).
  destruct E1 as (t & ->).
  destruct (tail_missing d _).
  - split; [exists (t ++ [np_pi / 2]); reflexivity | eauto].
  - split; [|eauto].
    destruct t as [|y t]; [exists []; reflexivity|].
    exists (removelast (y :: t) ++ [np_pi / 2]). reflexivity.
Qed.

Lemma constructed_offsets_in_range d o r a z ppr nm S :
  new_sequence d o r a z ppr nm = Return S ->
  0 < d /\ Forall (fun x => 0 <= x <= d) (offsets S).
Proof.
  intro H. pose proof (new_sequence_shape _ _ _ _ _ _ _ _ H) as Sh.
  apply new_sequence_Return in H as (Hd & _ & Hr & _).
  unfold supplied in Sh.
  destruct Sh as (_ & _ & _ & _ & _ & Ho & _).
  split; [assumption|]. rewrite Ho.
  apply Forall_app. split; [|apply Forall_app; split; [assumption|]].
  - destruct (head_missing _); constructor; [|constructor].
    split; [apply Qle_refl | apply Qlt_le_weak, Hd].
  - destruct (tail_missing _ _); constructor; [|constructor].
    split; [apply Qlt_le_weak, Hd | apply Qle_refl].
Qed.

(** ** Indexing into the normalized arrays *)

Lemma nth_error_removelast {A : Type} (l : list A) (i : nat) :
  (S i < List.length l)%nat -> nth_error (removelast l) i = nth_error l i.
Proof.
  destruct (snoc_cases l) as [-> | (body & x & ->)]; simpl; [lia|].
  rewrite length_app, removelast_snoc. simpl. intro Hi.
  symmetry. apply nth_error_app1. lia.
Qed.

Lemma nth_error_framed {A : Type} (hn tn : bool) (h t : A) (m : list A) (i : nat) :
  (0 < i)%nat ->
  (S i < List.length ((if hn then [h] else []) ++ m ++ (if tn then [t] else [])))%nat ->
  nth_error ((if hn then [h] else []) ++ m ++ (if tn then [t] else [])) i
  = nth_error m (i - (if hn then 1 else 0)).
Proof.
  intros Hi Hlen. rewrite !length_app in Hlen.
  destruct hn; cbn [app List.length] in *.
  - destruct i as [|i]; [lia|]. cbn [nth_error]. rewrite Nat.sub_succ, Nat.sub_0_r.
    apply nth_error_app1. destruct tn; simpl in Hlen; lia.
  - rewrite Nat.sub_0_r. apply nth_error_app1. destruct tn; simpl in Hlen; lia.
Qed.

Lemma nth_error_rabi_after_start ppr offs rabi i :
  (0 < i)%nat ->
  nth_error (rabi_after_start ppr offs rabi) i
  = nth_error rabi (i - (if head_missing offs then 1 else 0)).
Proof.
  intro Hi. unfold rabi_after_start.
  destruct i as [|i]; [lia|].
  destruct (head_missing offs).
  - cbn [nth_error]. now rewrite Nat.sub_succ, Nat.sub_0_r.
  - rewrite Nat.sub_0_r. destruct ppr; [|reflexivity].
    destruct rabi; [destruct i|]; reflexivity.
Qed.

Lemma nth_error_rabi_after_end d ppr offs rabi1 i :
  (S i < List.length (rabi_after_end d ppr offs rabi1))%nat ->
  nth_error (rabi_after_end d ppr offs rabi1) i = nth_error rabi1 i.
Proof.
  unfold rabi_after_end. destruct (tail_missing d offs).
  - rewrite length_app. simpl. intro Hi. apply nth_error_app1. lia.
  - destruct ppr; [|reflexivity].
    rewrite length_app. simpl. intro Hi.
    rewrite nth_error_app1 by lia.
    apply nth_error_removelast.
    destruct (snoc_cases rabi1) as [-> | (body & x & ->)]; [simpl in Hi; lia|].
    rewrite removelast_snoc in Hi. rewrite length_app. simpl. lia.
Qed.

(** ** Normalizing what is already normalized *)

Lemma getitem_last_snoc (body : list Q) (y : Q) : getitem_last (body ++ [y]) = Return y.
Proof.
  destruct body as [|x body]; [reflexivity|].
  cbn [app getitem_last]. f_equal. apply last_last.
Qed.

Lemma normalize_start_fixed ppr x rest rabi azi det :
  x == 0 ->
  (ppr = true -> exists t, rabi = np_pi / 2 :: t) ->
  normalize_start ppr (x :: rest, rabi, azi, det) = Return (x :: rest, rabi, azi, det).
Proof.
  intros Hx Hr. unfold normalize_start. cbn [getitem_first bind].
  apply Qeq_bool_iff in Hx. rewrite Hx. cbn [negb].
  destruct ppr; [|reflexivity].
  destruct (Hr eq_refl) as (t & ->). reflexivity.
Qed.

Lemma normalize_end_fixed d ppr body y rabi azi det :
  y == d ->
  (ppr = true -> exists b, rabi = b ++ [np_pi / 2]) ->
  normalize_end d ppr (body ++ [y], rabi, azi, det) = Return (body ++ [y], rabi, azi, det).
Proof.
  intros Hy Hr. unfold normalize_end. rewrite getitem_last_snoc. cbn [bind].
  apply Qeq_bool_iff in Hy. rewrite Hy. cbn [negb].
  destruct ppr; [|reflexivity].
  destruct (Hr eq_refl) as (b & ->).
  unfold setitem_last. destruct (b ++ [np_pi / 2]) eqn:E.
  - destruct b; discriminate.
  - rewrite <- E, removelast_snoc. reflexivity.
Qed.

Lemma Forall_existsb_false {A : Type} (f : A -> bool) (l : list A) :
  Forall (fun x => f x = false) l -> existsb f l = false.
Proof.
  induction 1 as [|x l Hx _ IH]; simpl; [reflexivity|].
  now rewrite Hx, IH.
Qed.

(** ** Order of the constructed offsets *)

Lemma Sorted_Qle_snoc (l : list Q) (d : Q) :
  Sorted Qle l -> Forall (fun x => x <= d) l -> Sorted Qle (l ++ [d]).
Proof.
  induction 1 as [|x l Hs IH Hhd]; intro Hall; simpl.
  - repeat constructor.
  - inversion Hall as [|? ? Hx Hl]; subst.
    constructor; [apply IH, Hl|].
    destruct Hhd; simpl; constructor; assumption.
Qed.

Lemma Sorted_Qle_cons (l : list Q) (c : Q) :
  Sorted Qle l -> Forall (fun x => c <= x) l -> Sorted Qle (c :: l).
Proof.
  intros Hs Hall. constructor; [assumption|].
  destruct Hall; constructor; assumption.
Qed.

(* ================================================================= *)
(** * Properties of the generators *)

(** ** The sign of the sine, and the Walsh function of Paley order 1 *)

Lemma np_sign_pos x : 0 < x -> np_sign x = 1.
Proof.
  intro H. unfold np_sign.
  assert (E : Qlt_bool x 0 = false) by (apply Qlt_bool_false, Qlt_le_weak, H).
  rewrite E. apply Qlt_bool_true in H. now rewrite H.
Qed.

Lemma np_sign_neg x : x < 0 -> np_sign x = -1.
Proof.
  intro H. unfold np_sign. apply Qlt_bool_true in H. now rewrite H.
Qed.

Lemma walsh_relative_offsets_one (np_sin : Q -> Q) :
  (forall x y, x == y -> np_sin x == np_sin y) ->
  0 < np_sin (np_pi / 2) ->
  np_sin (3 * np_pi / 2) < 0 ->
  walsh_relative_offsets np_sin 1 = [1 # 2].
Proof.
  intros Hp H1 H2.
  unfold walsh_relative_offsets.
  cbv -[np_sign].
  repeat match goal with
  | |- context [np_sign (np_sin ?a)] =>
      first
        [ replace (np_sign (np_sin a)) with 1
            by (symmetry; apply np_sign_pos;
                rewrite (Hp a (np_pi / 2)); [assumption | reflexivity])
        | replace (np_sign (np_sin a)) with (-1)
            by (symmetry; apply np_sign_neg;
                rewrite (Hp a (3 * np_pi / 2)); [assumption | reflexivity]) ]
  end.
  reflexivity.
Qed.

Lemma new_sequence_single_pulse (d x rb az dt : Q) (nm : option string) :
  0 < x -> x < d ->
  new_sequence d (Some [x]) (Some [rb]) (Some [az]) (Some [dt]) false nm
  = Return (mkSequence d [0; x; d] [0; rb; 0] [0; az; 0] [0; dt; 0] false 3%nat nm).
Proof.
  intros H0 Hd. unfold new_sequence.
  assert (Hpos : 0 < d) by (eapply Qlt_trans; eassumption).
  apply Qle_bool_false in Hpos. rewrite Hpos.
  cbn [default_offsets List.length Z.of_nat].
  change (UPPER_BOUND_OFFSETS <? _)%Z with false. cbn [existsb orb].
  assert (E1 : Qlt_bool x 0 = false) by (apply Qlt_bool_false, Qlt_le_weak, H0).
  assert (E2 : Qlt_bool d x = false) by (apply Qlt_bool_false, Qlt_le_weak, Hd).
  rewrite E1, E2. cbn [orb default_rabi_rotations default_zeros].
  unfold normalize_start. cbn [getitem_first bind].
  assert (E3 : Qeq_bool x 0 = false).
  { apply Qeq_bool_false. intro E. rewrite E in H0. exact (Qlt_irrefl _ H0). }
  rewrite E3. cbn [negb].
  unfold normalize_end. cbn [getitem_last last bind].
  assert (E4 : Qeq_bool x d = false).
  { apply Qeq_bool_false. intro E. rewrite E in Hd. exact (Qlt_irrefl _ Hd). }
  rewrite E4. reflexivity.
Qed.


Lemma square_sin_compat (x y : Q) : x == y -> square_sin x == square_sin y.
Proof.
  intro E. unfold square_sin.
  destruct (Qle_bool x np_pi) eqn:Ex, (Qle_bool y np_pi) eqn:Ey; try reflexivity.
  - apply Qle_bool_iff in Ex. rewrite E in Ex. apply Qle_bool_iff in Ex. congruence.
  - apply Qle_bool_iff in Ey. rewrite <- E in Ey. apply Qle_bool_iff in Ey. congruence.
Qed.

(* ================================================================= *)
(** ** Counting occurrences up to numeric equality *)

Lemma Qeq_bool_compat_l (p q x : Q) : p == q -> Qeq_bool p x = Qeq_bool q x.
Proof.
  intro E. destruct (Qeq_bool q x) eqn:Eq.
  - apply Qeq_bool_iff. apply Qeq_bool_iff in Eq. now rewrite E.
  - apply Qeq_bool_false. apply Qeq_bool_false in Eq. now rewrite E.
Qed.

Lemma Qeq_bool_compat_r (p x y : Q) : x == y -> Qeq_bool p x = Qeq_bool p y.
Proof.
  intro E. destruct (Qeq_bool p y) eqn:Eq.
  - apply Qeq_bool_iff. apply Qeq_bool_iff in Eq. now rewrite E.
  - apply Qeq_bool_false. apply Qeq_bool_false in Eq. now rewrite E.
Qed.

Lemma countQ_cons (p x : Q) (l : list Q) :
  countQ p (x :: l) = ((if Qeq_bool p x then 1%nat else 0%nat) + countQ p l)%nat.
Proof. unfold countQ. simpl. destruct (Qeq_bool p x); reflexivity. Qed.

Lemma countQ_app (p : Q) (l1 l2 : list Q) :
  countQ p (l1 ++ l2) = (countQ p l1 + countQ p l2)%nat.
Proof. unfold countQ. now rewrite filter_app, length_app. Qed.

Lemma countQ_compat (p q : Q) (l : list Q) : p == q -> countQ p l = countQ q l.
Proof.
  intro E. induction l as [|x l IH]; [reflexivity|].
  now rewrite !countQ_cons, IH, (Qeq_bool_compat_l p q x E).
Qed.

Lemma countQ_Forall2 (p : Q) (l1 l2 : list Q) :
  Forall2 Qeq l1 l2 -> countQ p l1 = countQ p l2.
Proof.
  induction 1 as [|x y l1 l2 E _ IH]; [reflexivity|].
  now rewrite !countQ_cons, IH, (Qeq_bool_compat_r p x y E).
Qed.

Lemma countQ_zero_iff (p : Q) (l : list Q) :
  countQ p l = 0%nat <-> Forall (fun x => ~ p == x) l.
Proof.
  induction l as [|x l IH]; [split; [constructor | reflexivity]|].
  rewrite countQ_cons. split.
  - destruct (Qeq_bool p x) eqn:E; [discriminate|]. simpl. intro H.
    constructor; [now apply Qeq_bool_false | now apply IH].
  - intro H. inversion H as [|? ? Hx Hl]; subst.
    apply Qeq_bool_false in Hx. rewrite Hx. simpl. now apply IH.
Qed.

Lemma countQ_pos_iff (p : Q) (l : list Q) :
  (0 < countQ p l)%nat <-> exists x, In x l /\ x == p.
Proof.
  induction l as [|x l IH]; [split; [inversion 1 | intros (? & [] & _)]|].
  rewrite countQ_cons. split.
  - destruct (Qeq_bool p x) eqn:E.
    + intros _. exists x. split; [now left|]. symmetry. now apply Qeq_bool_iff.
    + simpl. intro H. apply IH in H as (y & Hy & Ey). exists y. split; [now right | assumption].
  - intros (y & [<- | Hy] & Ey).
    + symmetry in Ey. apply Qeq_bool_iff in Ey. rewrite Ey. lia.
    + assert (0 < countQ p l)%nat by (apply IH; eauto). lia.
Qed.

(* ================================================================= *)
(** ** [np.sort] and [np.unique] *)

Lemma insert_sorted_count (p x : Q) (l : list Q) :
  countQ p (insert_sorted x l) = countQ p (x :: l).
Proof.
  induction l as [|y l IH]; [reflexivity|]. simpl.
  destruct (Qle_bool x y); [reflexivity|].
  rewrite countQ_cons, IH, !countQ_cons. lia.
Qed.

Lemma np_sort_count (p : Q) (l : list Q) : countQ p (np_sort l) = countQ p l.
Proof.
  induction l as [|x l IH]; [reflexivity|].
  unfold np_sort in *. simpl. now rewrite insert_sorted_count, !countQ_cons, IH.
Qed.

Lemma insert_sorted_In (x y : Q) (l : list Q) :
  In y (insert_sorted x l) -> y = x \/ In y l.
Proof.
  induction l as [|z l IH]; simpl.
  - intros [<- | []]. now left.
  - destruct (Qle_bool x z); simpl.
    + intros [<- | H]; auto.
    + intros [<- | H]; auto. destruct (IH H); auto.
Qed.

Lemma insert_sorted_sorted (x : Q) (l : list Q) :
  StronglySorted Qle l -> StronglySorted Qle (insert_sorted x l).
Proof.
  induction 1 as [|y l Hs IH Hall]; simpl; [repeat constructor|].
  destruct (Qle_bool x y) eqn:E.
  - apply Qle_bool_iff in E. constructor; [now constructor|].
    constructor; [assumption|].
    eapply Forall_impl; [|exact Hall]. intros z Hz. eapply Qle_trans; eassumption.
  - apply Qle_bool_false in E. constructor; [assumption|].
    apply Forall_forall. intros z Hz. apply insert_sorted_In in Hz as [-> | Hz].
    + now apply Qlt_le_weak.
    + rewrite Forall_forall in Hall. now apply Hall.
Qed.

Lemma np_sort_sorted (l : list Q) : StronglySorted Qle (np_sort l).
Proof.
  induction l as [|x l IH]; [constructor|].
  unfold np_sort in *. simpl. now apply insert_sorted_sorted.
Qed.

Lemma insert_sorted_fixed (x : Q) (l : list Q) :
  Forall (fun y => x <= y) l -> insert_sorted x l = x :: l.
Proof.
  destruct 1 as [|y l Hy _]; [reflexivity|]. simpl.
  apply Qle_bool_iff in Hy. now rewrite Hy.
Qed.

Lemma np_sort_fixed (l : list Q) : StronglySorted Qle l -> np_sort l = l.
Proof.
  induction 1 as [|x l _ IH Hall]; [reflexivity|].
  unfold np_sort in *. simpl. rewrite IH. now apply insert_sorted_fixed.
Qed.

Lemma group_counts_total (p : Q) (l : list Q) :
  group_total p (group_counts l) = countQ p l.
Proof.
  induction l as [|x l IH]; [reflexivity|].
  rewrite countQ_cons, <- IH. simpl.
  destruct (group_counts l) as [|[y c] g]; simpl.
  - destruct (Qeq_bool p x); reflexivity.
  - destruct (Qeq_bool x y) eqn:E; simpl.
    + apply Qeq_bool_iff in E. rewrite (Qeq_bool_compat_r p x y E).
      destruct (Qeq_bool p y); lia.
    + destruct (Qeq_bool p x), (Qeq_bool p y); lia.
Qed.

Lemma group_counts_head (x : Q) (l : list Q) :
  exists c g, group_counts (x :: l) = (x, c) :: g.
Proof.
  simpl. destruct (group_counts l) as [|[y c] g]; [eauto|].
  destruct (Qeq_bool x y); eauto.
Qed.

Lemma group_counts_values_in (l : list Q) (v : Q) :
  In v (map fst (group_counts l)) -> In v l.
Proof.
  revert v. induction l as [|x l IH]; intros v; [intros []|].
  simpl. destruct (group_counts l) as [|[y c] g]; simpl in *.
  - intros [<- | []]. now left.
  - destruct (Qeq_bool x y); simpl.
    + intros [<- | H]; [now left | right; apply IH; now right].
    + intros [<- | H]; [now left | right; apply IH; exact H].
Qed.

Lemma group_counts_increasing (l : list Q) :
  StronglySorted Qle l -> StronglySorted Qlt (map fst (group_counts l)).
Proof.
  induction 1 as [|x l Hs IH Hall]; [constructor|].
  simpl. destruct l as [|y l'].
  - simpl. repeat constructor.
  - destruct (group_counts_head y l') as (c & g & E). rewrite E in *. simpl in IH.
    inversion IH as [|? ? IHs IHall]; subst.
    inversion Hall as [|? ? Hxy _]; subst.
    destruct (Qeq_bool x y) eqn:Exy; simpl.
    + apply Qeq_bool_iff in Exy. constructor; [assumption|].
      eapply Forall_impl; [|exact IHall]. intros z Hz. now rewrite Exy.
    + apply Qeq_bool_false in Exy.
      assert (Hlt : x < y).
      { apply Qle_lteq in Hxy as [H | H]; [assumption | contradiction]. }
      constructor; [assumption|]. constructor; [assumption|].
      eapply Forall_impl; [|exact IHall]. intros z Hz. eapply Qlt_trans; eassumption.
Qed.

Lemma group_total_distinct (v : Q) (c : nat) (g : list (Q * nat)) :
  StronglySorted Qlt (map fst g) -> In (v, c) g -> group_total v g = c.
Proof.
  induction g as [|[w k] g IH]; [intros _ []|].
  simpl. intros Hs Hin. inversion Hs as [|? ? Hs' Hall]; subst.
  destruct Hin as [E | Hin].
  - inversion E; subst. rewrite (proj2 (Qeq_bool_iff v v)) by reflexivity.
    assert (group_total v g = 0%nat); [|lia].
    clear -Hall. induction g as [|[w k] g IH]; [reflexivity|].
    simpl in *. inversion Hall as [|? ? Hw Hg]; subst.
    assert (Ew : Qeq_bool v w = false).
    { apply Qeq_bool_false. intro E. rewrite E in Hw. exact (Qlt_irrefl _ Hw). }
    rewrite Ew. simpl. now apply IH.
  - assert (Ew : Qeq_bool v w = false).
    { apply Qeq_bool_false. intro E.
      rewrite Forall_forall in Hall.
      assert (Hlt : w < v) by (apply Hall; apply in_map_iff; exists (v, c); auto).
      rewrite E in Hlt. exact (Qlt_irrefl _ Hlt). }
    rewrite Ew. simpl. now apply IH.
Qed.

Lemma group_total_pos (p : Q) (g : list (Q * nat)) :
  (0 < group_total p g)%nat -> exists v c, In (v, c) g /\ v == p.
Proof.
  induction g as [|[w k] g IH]; simpl; [lia|].
  destruct (Qeq_bool p w) eqn:E.
  - intros _. exists w, k. split; [now left|]. symmetry. now apply Qeq_bool_iff.
  - simpl. intro H. destruct (IH H) as (v & c & Hin & Ev). eauto 6.
Qed.

Lemma combine_fst_snd {A B : Type} (g : list (A * B)) :
  combine (map fst g) (map snd g) = g.
Proof.
  induction g as [|[a b] g IH]; [reflexivity|]. simpl. now rewrite IH.
Qed.

(** The values [np.unique] reports with an even count. *)
Lemma even_count_values_unique (l : list Q) :
  even_count_values (np_unique l)
  = map fst (filter (fun vc => Nat.even (snd vc)) (group_counts (np_sort l))).
Proof.
  unfold even_count_values, np_unique. cbn [fst snd].
  now rewrite combine_fst_snd.
Qed.

Lemma StronglySorted_filter {A : Type} (R : A -> A -> Prop) (f : A -> bool) (l : list A) :
  StronglySorted R l -> StronglySorted R (filter f l).
Proof.
  induction 1 as [|x l Hs IH Hall]; [constructor|]. simpl.
  destruct (f x); [|assumption].
  constructor; [assumption|].
  apply Forall_forall. intros y Hy. apply filter_In in Hy as [Hy _].
  rewrite Forall_forall in Hall. now apply Hall.
Qed.

Lemma map_fst_filter_sorted (f : Q * nat -> bool) (g : list (Q * nat)) :
  StronglySorted Qlt (map fst g) -> StronglySorted Qlt (map fst (filter f g)).
Proof.
  induction g as [|[v c] g IH]; [constructor|].
  simpl. intro Hs. inversion Hs as [|? ? Hs' Hall]; subst.
  destruct (f (v, c)); [|now apply IH].
  simpl. constructor; [now apply IH|].
  apply Forall_forall. intros y Hy.
  apply in_map_iff in Hy as ([w k] & <- & Hin). apply filter_In in Hin as [Hin _].
  rewrite Forall_forall in Hall. apply Hall. apply in_map_iff. exists (w, k). auto.
Qed.

Lemma even_count_values_increasing (l : list Q) :
  StronglySorted Qlt (even_count_values (np_unique l)).
Proof.
  rewrite even_count_values_unique.
  apply map_fst_filter_sorted, group_counts_increasing, np_sort_sorted.
Qed.

Lemma In_countQ_pos (x : Q) (l : list Q) : In x l -> (0 < countQ x l)%nat.
Proof. intro H. apply countQ_pos_iff. exists x. split; [assumption | reflexivity]. Qed.

(** [even_count_values (np_unique l)] holds the values that occur in [l] an
    even number of times. *)
Lemma even_count_values_spec (l : list Q) (p : Q) :
  (exists q, In q (even_count_values (np_unique l)) /\ q == p) <->
  (0 < countQ p l)%nat /\ Nat.even (countQ p l) = true.
Proof.
  rewrite even_count_values_unique.
  set (g := group_counts (np_sort l)).
  assert (Hs : StronglySorted Qlt (map fst g))
    by apply group_counts_increasing, np_sort_sorted.
  assert (Ht : forall v, group_total v g = countQ v l)
    by (intro v; unfold g; now rewrite group_counts_total, np_sort_count).
  split.
  - intros (q & Hq & Eq).
    apply in_map_iff in Hq as ([v c] & Ev & Hin). simpl in Ev. subst v.
    apply filter_In in Hin as [Hin Hc]. simpl in Hc.
    pose proof (group_total_distinct q c g Hs Hin) as Ec.
    rewrite Ht in Ec. rewrite <- (countQ_compat q p l Eq). rewrite Ec.
    split; [|assumption].
    rewrite <- Ec, <- np_sort_count. apply In_countQ_pos.
    apply group_counts_values_in. apply in_map_iff. exists (q, c). auto.
  - intros [Hpos Hev]. rewrite <- Ht in Hpos.
    apply group_total_pos in Hpos as (v & c & Hin & Ev).
    exists v. split; [|assumption].
    apply in_map_iff. exists (v, c). split; [reflexivity|].
    apply filter_In. split; [assumption|]. simpl.
    pose proof (group_total_distinct v c g Hs Hin) as Ec.
    rewrite Ht, (countQ_compat v p l Ev) in Ec. now rewrite <- Ec.
Qed.

(* ================================================================= *)
(** ** Cumulative positions of a pattern of steps and pulses *)

Lemma cumsum_from_lower_bound (acc : Q) (l : list Q) :
  Forall (fun x => 0 <= x) l -> Forall (fun x => acc <= x) (cumsum_from acc l).
Proof.
  revert acc. induction l as [|x l IH]; intros acc Hl; [constructor|].
  inversion Hl as [|? ? Hx Hl']; subst. simpl. constructor.
  - lra.
  - eapply Forall_impl; [|apply IH, Hl']. intros y Hy. simpl in Hy. lra.
Qed.

Lemma countQ_below (p acc : Q) (l : list Q) :
  p < acc -> Forall (fun x => acc <= x) l -> countQ p l = 0%nat.
Proof.
  intros Hp Hl. apply countQ_zero_iff.
  eapply Forall_impl; [|exact Hl]. intros x Hx E. simpl in Hx. rewrite E in Hp. lra.
Qed.

Lemma scaled_nonneg (u : Q) (pattern : list Z) :
  0 < u -> Forall (fun c => c = 0%Z \/ c = 1%Z) pattern ->
  Forall (fun x => 0 <= x) (scaled u pattern).
Proof.
  intros Hu Hp. unfold scaled. apply Forall_map.
  eapply Forall_impl; [|exact Hp].
  intros c [-> | ->]; [change (inject_Z 0) with 0 | change (inject_Z 1) with 1]; lra.
Qed.

Lemma pulses_below (p acc u : Q) (pattern : list Z) :
  0 < u -> Forall (fun c => c = 0%Z \/ c = 1%Z) pattern ->
  p < acc -> pulses_from acc pattern u p = 0%nat.
Proof.
  intros Hu Hpat Hp. unfold pulses_from.
  pose proof (cumsum_from_lower_bound acc _ (scaled_nonneg u pattern Hu Hpat)) as Hlb.
  revert Hlb. generalize (cumsum_from acc (scaled u pattern)).
  clear Hpat. induction pattern as [|c pattern IH]; intros l Hl; [reflexivity|].
  destruct l as [|x l]; [reflexivity|].
  inversion Hl as [|? ? Hx Hl']; subst. simpl.
  assert (E : Qeq_bool p x = false).
  { apply Qeq_bool_false. intro E. rewrite E in Hp. lra. }
  rewrite E, andb_false_r. now apply IH.
Qed.

Lemma count_pulses_from (acc u p : Q) (pattern : list Z) :
  0 < u -> Forall (fun c => c = 0%Z \/ c = 1%Z) pattern ->
  let c := countQ p (cumsum_from acc (scaled u pattern)) in
  let m := pulses_from acc pattern u p in
  (p <= acc -> c = m) /\
  (acc < p -> (c = 0%nat /\ m = 0%nat) \/ c = S m).
Proof.
  intros Hu Hpat. revert acc.
  induction Hpat as [|c0 pattern Hc0 Hpat IH]; intro acc; cbn zeta.
  - split; [reflexivity | now left].
  - unfold pulses_from. cbn [scaled map cumsum_from combine filter fst snd].
    fold (scaled u pattern).
    rewrite countQ_cons.
    specialize (IH (acc + inject_Z c0 * u)). cbn zeta in IH.
    unfold pulses_from in IH. destruct IH as [IHle IHgt].
    assert (Hlb := cumsum_from_lower_bound (acc + inject_Z c0 * u) _
                     (scaled_nonneg u pattern Hu Hpat)).
    destruct Hc0 as [-> | ->].
    + change (0 =? 0)%Z with true. cbn [andb].
      assert (Eacc : acc + inject_Z 0 * u == acc) by (unfold inject_Z; ring).
      rewrite (Qeq_bool_compat_r p _ _ Eacc) in *.
      split; intro Hp.
      * rewrite IHle by (rewrite Eacc; assumption).
        destruct (Qeq_bool p acc); reflexivity.
      * assert (E : Qeq_bool p acc = false).
        { apply Qeq_bool_false. intro E. rewrite E in Hp. lra. }
        rewrite E. cbn [Nat.add]. apply IHgt. rewrite Eacc. assumption.
    + change (1 =? 0)%Z with false. cbn [andb].
      assert (Eacc : acc + inject_Z 1 * u == acc + u) by (unfold inject_Z; ring).
      rewrite (Qeq_bool_compat_r p _ _ Eacc) in *.
      split; intro Hp.
      * assert (E : Qeq_bool p (acc + u) = false).
        { apply Qeq_bool_false. intro E. rewrite E in Hp. lra. }
        rewrite E. cbn [Nat.add]. apply IHle. rewrite Eacc. lra.
      * destruct (Qeq_bool p (acc + u)) eqn:E.
        -- apply Qeq_bool_iff in E. right. cbn [Nat.add]. f_equal.
           apply IHle. rewrite Eacc, E. lra.
        -- apply Qeq_bool_false in E. cbn [Nat.add].
           destruct (Qlt_le_dec (acc + u) p) as [Hgt | Hle].
           ++ apply IHgt. rewrite Eacc. assumption.
           ++ assert (Hlt : p < acc + inject_Z 1 * u).
              { rewrite Eacc. apply Qle_lteq in Hle as [H | H]; [assumption | contradiction]. }
              left. split.
              ** eapply countQ_below; eassumption.
              ** apply (pulses_below p _ u pattern Hu Hpat Hlt).
Qed.

(** A pattern that begins with a step: every position that occurs among
    the cumulative sums is reached by exactly one step, all its other
    occurrences are pulses. *)
Lemma count_pulse_multiplicity (u p : Q) (pattern : list Z) :
  0 < u -> Forall (fun c => c = 0%Z \/ c = 1%Z) pattern ->
  let c := countQ p (np_cumsum (map (fun c => inject_Z c * u) (1%Z :: pattern))) in
  let m := pulse_multiplicity (1%Z :: pattern) u p in
  (c = 0%nat /\ m = 0%nat) \/ c = S m.
Proof.
  intros Hu Hpat. cbn zeta. unfold pulse_multiplicity.
  cbn [map np_cumsum combine filter fst snd].
  change (1 =? 0)%Z with false. cbn [andb].
  fold (scaled u pattern). fold (pulses_from (inject_Z 1 * u) pattern u p).
  rewrite countQ_cons.
  destruct (count_pulses_from (inject_Z 1 * u) u p pattern Hu Hpat) as [Hle Hgt].
  assert (Hlb := cumsum_from_lower_bound (inject_Z 1 * u) _
                   (scaled_nonneg u pattern Hu Hpat)).
  destruct (Qeq_bool p (inject_Z 1 * u)) eqn:E.
  - apply Qeq_bool_iff in E. right. cbn [Nat.add]. f_equal. apply Hle. rewrite E. lra.
  - apply Qeq_bool_false in E. cbn [Nat.add].
    destruct (Qlt_le_dec (inject_Z 1 * u) p) as [Hlt | Hge].
    + now apply Hgt.
    + assert (Hlt : p < inject_Z 1 * u).
      { apply Qle_lteq in Hge as [H | H]; [assumption | contradiction]. }
      left. split.
      * eapply countQ_below; eassumption.
      * apply (pulses_below p _ u pattern Hu Hpat Hlt).
Qed.

(* ================================================================= *)
(** ** The pattern of the X-concatenated sequence *)

Lemma _concatenation_x_succ (n : positive) :
  _concatenation_x (Pos.succ n)
  = _concatenation_x n ++ [0%Z] ++ _concatenation_x n ++ [0%Z].
Proof. unfold _concatenation_x. now rewrite Pos.peano_rect_succ. Qed.

Lemma _concatenation_x_shape (n : positive) :
  exists rest,
    _concatenation_x n = 1%Z :: rest /\
    Forall (fun c => c = 0%Z \/ c = 1%Z) rest.
Proof.
  induction n as [|n (rest & E & Hrest)] using Pos.peano_ind.
  - eexists. split; [reflexivity|].
    repeat (constructor; [(now left) || (now right)|]). constructor.
  - rewrite _concatenation_x_succ, E. eexists. split; [reflexivity|].
    repeat (apply Forall_app; split); try assumption;
      repeat (constructor; [(now left) || (now right)|]);
      assumption || constructor.
Qed.

Lemma unit_spacing_pos (d : Q) (e : Z) : 0 < d -> (0 <= e)%Z -> 0 < d / inject_Z (2 ^ e).
Proof.
  intros Hd He. apply Qlt_shift_div_l.
  - change 0 with (inject_Z 0). rewrite <- Zlt_Qlt. now apply Z.pow_pos_nonneg.
  - lra.
Qed.


(* ================================================================= *)
(** ** In-place updates of an array, seen as lists *)

Lemma setitem_middle (P : list Q) (z v : Q) (T : list Q) :
  setitem (List.length P) v (P ++ z :: T) = P ++ v :: T.
Proof.
  unfold setitem. induction P as [|x P IH]; [reflexivity|].
  simpl in *. now inversion IH as [E]; rewrite !E.
Qed.

Lemma shift_right_middle (P : list Q) (t : Q) (T : list Q) :
  shift_right (List.length P) (P ++ t :: T) = P ++ t :: removelast (t :: T).
Proof.
  unfold shift_right. induction P as [|x P IH]; [reflexivity|].
  cbn [List.length app firstn skipn] in *. f_equal. exact IH.
Qed.

Lemma removelast_zeros (l : list Q) (k : nat) :
  removelast (l ++ np_zeros (S k)) = l ++ np_zeros k.
Proof.
  unfold np_zeros. cbn [repeat]. rewrite repeat_cons, app_assoc. apply removelast_snoc.
Qed.

Lemma Forall_Permutation {A : Type} (P : A -> Prop) (l l' : list A) :
  Permutation l l' -> Forall P l -> Forall P l'.
Proof.
  intros Hp Hl. apply Forall_forall. intros x Hx.
  rewrite Forall_forall in Hl. apply Hl.
  eapply Permutation_in; [apply Permutation_sym|]; eassumption.
Qed.

(* ================================================================= *)
(** ** The merge of the rabi and azimuthal offsets *)

Lemma merge_rabi_azimuthal_offsets (fuel : nat) :
  forall (R A P T : list Q) (st : xy_arrays),
    (List.length R + List.length A <= fuel)%nat ->
    xy_offsets st = P ++ T ->
    (List.length R + List.length A <= List.length T)%nat ->
    StronglySorted Qle R -> StronglySorted Qle A ->
    exists M,
      xy_offsets (merge_rabi_azimuthal fuel R A (List.length P) st)
      = P ++ M ++ skipn (List.length R + List.length A) T /\
      Permutation M (R ++ A) /\
      StronglySorted Qle M.
Proof.
  induction fuel as [|fuel IH]; intros R A P T st Hfuel Hst HT HR HA.
  - destruct R, A; simpl in Hfuel; try lia.
    exists []. simpl. auto using Permutation_refl, SSorted_nil.
  - assert (Hstep : forall x T', T = x :: T' ->
              forall v, P ++ v :: T' = (P ++ [v]) ++ T')
      by (intros; now rewrite <- app_assoc).
    assert (Hlen : forall v : Q, S (List.length P) = List.length (P ++ [v]))
      by (intro v; rewrite length_app; simpl; lia).
    destruct R as [|r R'], A as [|a A'].
    + exists []. simpl. auto using Permutation_refl, SSorted_nil.
    + destruct T as [|t T']; [simpl in HT; lia|].
      inversion HA as [|? ? HA' Ha]; subst.
      cbn [merge_rabi_azimuthal]. rewrite (Hlen a).
      match goal with
      | |- context [merge_rabi_azimuthal _ _ _ _ ?s] =>
          destruct (IH [] A' (P ++ [a]) T' s) as (M & EM & PM & SM)
      end;
        [simpl in *; lia | | simpl in *; lia | constructor | exact HA' |].
      { cbn [xy_offsets]. rewrite Hst, setitem_middle. now rewrite <- app_assoc. }
      exists (a :: M). rewrite EM, <- app_assoc. simpl. split; [reflexivity|].
      split; [now constructor|].
      constructor; [assumption|].
      eapply Forall_Permutation; [apply Permutation_sym, PM | exact Ha].
    + destruct T as [|t T']; [simpl in HT; lia|].
      inversion HR as [|? ? HR' Hr]; subst.
      cbn [merge_rabi_azimuthal]. rewrite (Hlen r).
      match goal with
      | |- context [merge_rabi_azimuthal _ _ _ _ ?s] =>
          destruct (IH R' [] (P ++ [r]) T' s) as (M & EM & PM & SM)
      end;
        [simpl in *; lia | | simpl in *; lia | exact HR' | constructor |].
      { cbn [xy_offsets]. rewrite Hst, setitem_middle. now rewrite <- app_assoc. }
      exists (r :: M). rewrite EM, <- app_assoc. simpl. split; [reflexivity|].
      split; [now constructor|].
      constructor; [assumption|].
      eapply Forall_Permutation; [apply Permutation_sym, PM|].
      now rewrite app_nil_r.
    + destruct T as [|t T']; [simpl in HT; lia|].
      inversion HR as [|? ? HR' Hr]; subst.
      inversion HA as [|? ? HA' Ha]; subst.
      cbn [merge_rabi_azimuthal]. destruct (Qlt_bool r a) eqn:E.
      * apply Qlt_bool_true in E. rewrite (Hlen r).
        match goal with
      | |- context [merge_rabi_azimuthal _ _ _ _ ?s] =>
          destruct (IH R' (a :: A') (P ++ [r]) T' s) as (M & EM & PM & SM)
      end;
          [simpl in *; lia | | simpl in *; lia | exact HR' | exact HA |].
        { cbn [xy_offsets]. rewrite Hst, setitem_middle. now rewrite <- app_assoc. }
        exists (r :: M). rewrite EM, <- app_assoc. simpl.
        split; [reflexivity|]. split; [now constructor|].
        constructor; [assumption|].
        eapply Forall_Permutation; [apply Permutation_sym, PM|].
        apply Forall_app. split; [assumption|].
        constructor; [now apply Qlt_le_weak|].
        eapply Forall_impl; [|exact Ha]. intros y Hy. simpl in Hy.
        apply Qlt_le_weak in E. eapply Qle_trans; eassumption.
      * apply Qlt_bool_false in E. rewrite (Hlen a).
        match goal with
      | |- context [merge_rabi_azimuthal _ _ _ _ ?s] =>
          destruct (IH (r :: R') A' (P ++ [a]) T' s) as (M & EM & PM & SM)
      end;
          [simpl in *; lia | | simpl in *; lia | exact HR | exact HA' |].
        { cbn [xy_offsets]. rewrite Hst, setitem_middle. now rewrite <- app_assoc. }
        exists (a :: M). rewrite EM, <- app_assoc. simpl.
        replace (List.length R' + S (List.length A'))%nat
          with (S (List.length R' + List.length A')) by lia.
        split; [reflexivity|].
        split; [apply Permutation_cons_app with (l1 := r :: R'); exact PM|].
        constructor; [assumption|].
        eapply Forall_Permutation; [apply Permutation_sym, PM|].
        apply Forall_app. split; [|assumption].
        constructor; [assumption|].
        eapply Forall_impl; [|exact Hr]. intros y Hy. simpl in Hy.
        eapply Qle_trans; eassumption.
Qed.

(* ================================================================= *)
(** ** The insertion of the detuning offsets *)

Lemma nth_skipn_head (j : nat) (D : list Q) (d : Q) (Dr : list Q) :
  skipn j D = d :: Dr -> nth j D 0 = d /\ skipn (S j) D = Dr /\ (j < List.length D)%nat.
Proof.
  revert D. induction j as [|j IH]; intros D E.
  - destruct D; [discriminate|]. simpl in E. inversion E. simpl. repeat split. lia.
  - destruct D as [|x D]; [discriminate|]. simpl in E.
    destruct (IH D E) as (H1 & H2 & H3). simpl. repeat split; try assumption. lia.
Qed.

Lemma skipn_nil_length {A : Type} (j : nat) (D : list A) :
  skipn j D = [] -> (List.length D <= j)%nat.
Proof.
  intro E. pose proof (length_skipn j D) as H. rewrite E in H. simpl in H. lia.
Qed.

(** The loop of lines 790-801 on an array [P ++ M ++ zeros], where [P] is
    what the loop has passed, [M] the merged offsets still ahead and the
    zeros the room left for the detuning offsets [Dr] still to insert:
    provided some merged offset ahead exceeds every one of them, the loop
    inserts them all, in order, and loses nothing. *)
Lemma insert_detuning_offsets (n : nat) :
  forall (M Dr P D : list Q) (j : nat) (st : xy_arrays),
    (List.length M + List.length Dr = n)%nat ->
    xy_offsets st = P ++ M ++ np_zeros (List.length Dr) ->
    skipn j D = Dr -> Dr <> [] ->
    StronglySorted Qle M -> StronglySorted Qle Dr ->
    (exists m, In m M /\ Forall (fun d => d < m) Dr) ->
    exists F,
      xy_offsets (insert_detuning (seq (List.length P) n) D j st) = P ++ F /\
      Permutation F (M ++ Dr) /\
      StronglySorted Qle F.
Proof.
  induction n as [|n IH]; intros M Dr P D j st Hn Hst Hj Hne HM HD (m0 & Hm0 & Hbig).
  - destruct M; [destruct Hm0 | simpl in Hn; lia].
  - destruct M as [|m M']; [destruct Hm0|].
    destruct Dr as [|d Dr']; [congruence|]. clear Hne.
    inversion HM as [|? ? HM' Hm]; subst.
    inversion HD as [|? ? HD' Hd]; subst.
    inversion Hbig as [|? ? Hdm0 Hbig']; subst.
    destruct (nth_skipn_head j D d Dr' Hj) as (Hnth & Hj' & Hjlt).
    cbn [seq insert_detuning]. rewrite Hst. cbn [app]. rewrite nth_middle, Hnth.
    destruct (Qlt_bool d m) eqn:E.
    + apply Qlt_bool_true in E.
      assert (Eoffs : setitem (List.length P) d
                        (shift_right (List.length P)
                           (P ++ m :: M' ++ np_zeros (List.length (d :: Dr'))))
                      = (P ++ [d]) ++ (m :: M') ++ np_zeros (List.length Dr')).
      { rewrite shift_right_middle, setitem_middle.
        rewrite <- app_assoc. cbn [app List.length]. do 2 f_equal.
        change (m :: M' ++ np_zeros (S (List.length Dr')))
          with ((m :: M') ++ np_zeros (S (List.length Dr'))).
        now rewrite removelast_zeros. }
      assert (Hdle : Forall (fun y => d <= y) ((m :: M') ++ Dr')).
      { apply Forall_app. split; [|assumption].
        constructor; [now apply Qlt_le_weak|].
        eapply Forall_impl; [|exact Hm]. intros y Hy. simpl in Hy.
        apply Qlt_le_weak in E. eapply Qle_trans; eassumption. }
      destruct Dr' as [|d' Dr''].
      * apply skipn_nil_length in Hj'. apply Nat.leb_le in Hj'. rewrite Hj'.
        cbn [xy_offsets]. rewrite Eoffs.
        exists (d :: m :: M'). rewrite <- app_assoc. cbn [app np_zeros repeat List.length].
        rewrite app_nil_r. split; [reflexivity|].
        split; [apply Permutation_cons_append|].
        constructor; [assumption|]. now rewrite app_nil_r in Hdle.
      * assert (Hlt : (List.length D <=? S j)%nat = false).
        { apply Nat.leb_gt. pose proof (length_skipn (S j) D) as Hl.
          rewrite Hj' in Hl. simpl in Hl. lia. }
        rewrite Hlt.
        assert (HlenP : S (List.length P) = List.length (P ++ [d]))
          by (rewrite length_app; simpl; lia).
        rewrite HlenP.
        match goal with
        | |- context [insert_detuning _ _ _ ?s] =>
            destruct (IH (m :: M') (d' :: Dr'') (P ++ [d]) D (S j) s)
              as (F & EF & PF & SF)
        end; try assumption.
        { simpl in *. lia. }
        { discriminate. }
        { exists m0. split; assumption. }
        exists (d :: F). rewrite EF, <- app_assoc. split; [reflexivity|].
        split.
        -- apply Permutation_trans with (d :: (m :: M') ++ d' :: Dr'');
             [now constructor | apply Permutation_middle].
        -- constructor; [assumption|].
           eapply Forall_Permutation; [apply Permutation_sym, PF | exact Hdle].
    + apply Qlt_bool_false in E.
      assert (Hlt : (List.length D <=? j)%nat = false) by (apply Nat.leb_gt; lia).
      rewrite Hlt.
      assert (HlenP : S (List.length P) = List.length (P ++ [m]))
        by (rewrite length_app; simpl; lia).
      rewrite HlenP.
      destruct (IH M' (d :: Dr') (P ++ [m]) D j st) as (F & EF & PF & SF);
        try assumption.
      { simpl in *. lia. }
      { rewrite Hst, <- app_assoc. reflexivity. }
      { discriminate. }
      { exists m0. split; [|assumption].
        destruct Hm0 as [<- | Hin]; [|assumption].
        exfalso. apply (Qlt_irrefl d). eapply Qlt_le_trans; eassumption. }
      exists (m :: F). rewrite EF, <- app_assoc. split; [reflexivity|].
      split; [now constructor|].
      constructor; [assumption|].
      eapply Forall_Permutation; [apply Permutation_sym, PF|].
      apply Forall_app. split; [assumption|].
      constructor; [assumption|].
      eapply Forall_impl; [|exact Hd]. intros y Hy. simpl in Hy.
      eapply Qle_trans; eassumption.
Qed.

(* ================================================================= *)
(** ** Cumulative sums *)

Lemma cumsum_from_compat (a a' : Q) (l : list Q) :
  a == a' -> Forall2 Qeq (cumsum_from a l) (cumsum_from a' l).
Proof.
  revert a a'. induction l as [|x l IH]; intros a a' E; [constructor|].
  simpl. constructor; [now rewrite E | apply IH; now rewrite E].
Qed.

Lemma np_cumsum_from_zero (l : list Q) : Forall2 Qeq (np_cumsum l) (cumsum_from 0 l).
Proof.
  destruct l as [|x l]; [constructor|]. simpl.
  constructor; [ring | apply cumsum_from_compat; ring].
Qed.

Lemma cumsum_from_app (acc : Q) (l1 l2 : list Q) :
  cumsum_from acc (l1 ++ l2)
  = cumsum_from acc l1 ++ cumsum_from (fold_left Qplus l1 acc) l2.
Proof.
  revert acc. induction l1 as [|x l1 IH]; intro acc; [reflexivity|].
  simpl. now rewrite IH.
Qed.

Lemma fold_left_Qplus_lower (acc : Q) (l : list Q) :
  Forall (fun x => 0 <= x) l -> acc <= fold_left Qplus l acc.
Proof.
  revert acc. induction l as [|x l IH]; intros acc Hl; simpl; [lra|].
  inversion Hl as [|? ? Hx Hl']; subst.
  specialize (IH (acc + x) Hl'). lra.
Qed.

Lemma cumsum_from_upper_bound (acc : Q) (l : list Q) :
  Forall (fun x => 0 <= x) l ->
  Forall (fun y => y <= fold_left Qplus l acc) (cumsum_from acc l).
Proof.
  revert acc. induction l as [|x l IH]; intros acc Hl; [constructor|].
  inversion Hl as [|? ? Hx Hl']; subst. simpl. constructor.
  - apply fold_left_Qplus_lower. assumption.
  - apply IH. assumption.
Qed.

Lemma cumsum_from_strict_lower_bound (acc : Q) (l : list Q) :
  Forall (fun x => 0 < x) l -> Forall (fun y => acc < y) (cumsum_from acc l).
Proof.
  revert acc. induction l as [|x l IH]; intros acc Hl; [constructor|].
  inversion Hl as [|? ? Hx Hl']; subst. simpl. constructor; [lra|].
  eapply Forall_impl; [|apply IH, Hl']. intros y Hy. simpl in Hy. lra.
Qed.

Lemma countQ_above (p b : Q) (l : list Q) :
  b < p -> Forall (fun y => y <= b) l -> countQ p l = 0%nat.
Proof.
  intros Hp Hl. apply countQ_zero_iff.
  eapply Forall_impl; [|exact Hl]. intros x Hx E. simpl in Hx. rewrite E in Hp. lra.
Qed.

Lemma countQ_not_above (p b : Q) (l : list Q) :
  p <= b -> Forall (fun y => b < y) l -> countQ p l = 0%nat.
Proof.
  intros Hp Hl. apply countQ_zero_iff.
  eapply Forall_impl; [|exact Hl]. intros x Hx E. simpl in Hx. rewrite E in Hp. lra.
Qed.

Lemma countQ_increasing_steps (p acc : Q) (l : list Q) :
  Forall (fun x => 0 < x) l -> (countQ p (cumsum_from acc l) <= 1)%nat.
Proof.
  revert acc. induction l as [|x l IH]; intros acc Hl; [unfold countQ; simpl; lia|].
  inversion Hl as [|? ? Hx Hl']; subst. simpl. rewrite countQ_cons.
  destruct (Qeq_bool p (acc + x)) eqn:E.
  - apply Qeq_bool_iff in E.
    rewrite (countQ_not_above p (acc + x)); [lia | rewrite E; lra|].
    now apply cumsum_from_strict_lower_bound.
  - simpl. apply IH. assumption.
Qed.

(* ================================================================= *)
(** ** The three streams of the XY pattern *)

Lemma stream_offsets_steps (drop1 drop2 pulse : Z) (u : Q) (pattern : list Z) :
  stream_offsets drop1 drop2 pulse u pattern
  = even_count_values (np_unique (np_cumsum (stream_steps drop1 drop2 pulse u pattern))).
Proof. reflexivity. Qed.

Lemma stream_steps_app (drop1 drop2 pulse : Z) (u : Q) (X Y : list Z) :
  stream_steps drop1 drop2 pulse u (X ++ Y)
  = stream_steps drop1 drop2 pulse u X ++ stream_steps drop1 drop2 pulse u Y.
Proof. unfold stream_steps. now rewrite !filter_app, !map_app. Qed.

Lemma stream_steps_nonneg (drop1 drop2 pulse : Z) (u : Q) (X : list Z) :
  0 < u -> Forall (fun x => 0 <= x) (stream_steps drop1 drop2 pulse u X).
Proof.
  intro Hu. unfold stream_steps. apply Forall_map, Forall_map.
  apply Forall_forall. intros c _. cbv beta. destruct (negb (c =? pulse)%Z); lra.
Qed.

(** The time a stretch of the pattern takes is the same in every stream:
    the number of its unit steps. *)
Lemma inject_Z_succ_mult (n : nat) (u : Q) :
  inject_Z (Z.of_nat (S n)) * u == inject_Z (Z.of_nat n) * u + u.
Proof.
  rewrite Nat2Z.inj_succ. unfold Z.succ. rewrite inject_Z_plus.
  change (inject_Z 1) with 1. ring.
Qed.

Ltac rewrite_eqb_false :=
  repeat match goal with
         | H : (?a =? ?b)%Z = false |- context [(?a =? ?b)%Z] => rewrite H
         end.

Ltac stream_time_step IH c :=
  let N1 := fresh "N" in
  let N2 := fresh "N" in
  let N3 := fresh "N" in
  destruct (Z.eq_dec c (-1)) as [->|N1];
  [|destruct (Z.eq_dec c (-2)) as [->|N2];
    [|destruct (Z.eq_dec c (-3)) as [->|N3];
      [|apply Z.eqb_neq in N1; apply Z.eqb_neq in N2; apply Z.eqb_neq in N3;
        cbn [filter]; rewrite_eqb_false]]];
  repeat (cbn [filter Z.eqb Pos.eqb negb andb map fold_left List.length];
          rewrite_eqb_false);
  rewrite ?IH, ?inject_Z_succ_mult; try ring.

Lemma rabi_stream_time (u acc : Q) (X : list Z) :
  fold_left Qplus (stream_steps (-2) (-3) (-1) u X) acc
  == acc + inject_Z (Z.of_nat (time_steps X)) * u.
Proof.
  revert acc. unfold stream_steps, time_steps.
  induction X as [|c X IH]; intro acc; [simpl; ring|].
  stream_time_step IH c.
Qed.

Lemma detuning_stream_time (u acc : Q) (X : list Z) :
  fold_left Qplus (stream_steps (-2) (-1) (-3) u X) acc
  == acc + inject_Z (Z.of_nat (time_steps X)) * u.
Proof.
  revert acc. unfold stream_steps, time_steps.
  induction X as [|c X IH]; intro acc; [simpl; ring|].
  stream_time_step IH c.
Qed.

Lemma detuning_steps_positive (u : Q) (Y : list Z) :
  0 < u -> Forall (fun c => c <> (-3)%Z) Y ->
  Forall (fun x => 0 < x) (stream_steps (-2) (-1) (-3) u Y).
Proof.
  intros Hu HY. unfold stream_steps. apply Forall_map, Forall_map.
  apply Forall_forall. intros c Hc.
  apply filter_In in Hc as [Hc _]. apply filter_In in Hc as [Hc _].
  rewrite Forall_forall in HY. specialize (HY c Hc).
  apply Z.eqb_neq in HY. cbv beta. rewrite HY. cbn [negb]. lra.
Qed.

(** No detuning offset lies beyond the last detuning marker. *)
Lemma detuning_offsets_bounded (u : Q) (X Y : list Z) (q : Q) :
  0 < u -> Forall (fun c => c <> (-3)%Z) Y ->
  In q (stream_offsets (-2) (-1) (-3) u (X ++ Y)) ->
  q <= inject_Z (Z.of_nat (time_steps X)) * u.
Proof.
  intros Hu HY Hq.
  assert (Hspec : exists q', In q' (stream_offsets (-2) (-1) (-3) u (X ++ Y)) /\ q' == q)
    by (exists q; split; [assumption | reflexivity]).
  rewrite stream_offsets_steps in Hspec.
  apply even_count_values_spec in Hspec as [Hpos Hev].
  rewrite (countQ_Forall2 _ _ _ (np_cumsum_from_zero _)) in Hpos, Hev.
  rewrite stream_steps_app, cumsum_from_app, countQ_app in Hpos, Hev.
  destruct (Qlt_le_dec (inject_Z (Z.of_nat (time_steps X)) * u) q) as [Hlt | Hle];
    [exfalso | assumption].
  pose proof (detuning_stream_time u 0 X) as Ht.
  rewrite (countQ_above q (fold_left Qplus (stream_steps (-2) (-1) (-3) u X) 0))
    in Hpos, Hev.
  - pose proof (countQ_increasing_steps q
                  (fold_left Qplus (stream_steps (-2) (-1) (-3) u X) 0)
                  _ (detuning_steps_positive u Y Hu HY)) as Hone.
    cbn [Nat.add] in Hpos, Hev.
    assert (E : countQ q (cumsum_from
                  (fold_left Qplus (stream_steps (-2) (-1) (-3) u X) 0)
                  (stream_steps (-2) (-1) (-3) u Y)) = 1%nat) by lia.
    rewrite E in Hev. discriminate.
  - rewrite Ht. lra.
  - apply cumsum_from_upper_bound, stream_steps_nonneg, Hu.
  - rewrite Ht. lra.
  - apply cumsum_from_upper_bound, stream_steps_nonneg, Hu.
Qed.

(** A rabi pulse that stands alone between two unit steps is a rabi
    offset. *)
Lemma rabi_offset_after (u : Q) (X Y : list Z) :
  0 < u ->
  exists q,
    In q (stream_offsets (-2) (-3) (-1) u (X ++ [1; -1; 1]%Z ++ Y)) /\
    q == inject_Z (Z.of_nat (time_steps X)) * u + u.
Proof.
  intro Hu. rewrite stream_offsets_steps. apply even_count_values_spec.
  rewrite (countQ_Forall2 _ _ _ (np_cumsum_from_zero _)).
  rewrite !stream_steps_app, !cumsum_from_app, !countQ_app.
  set (sX := stream_steps (-2) (-3) (-1) u X).
  set (sY := stream_steps (-2) (-3) (-1) u Y).
  set (T := inject_Z (Z.of_nat (time_steps X)) * u).
  pose proof (rabi_stream_time u 0 X) as Ht. fold sX T in Ht.
  change (stream_steps (-2) (-3) (-1) u [1; -1; 1]%Z) with [1 * u; 0 * u; 1 * u].
  assert (E1 : countQ (T + u) (cumsum_from 0 sX) = 0%nat).
  { apply (countQ_above _ (fold_left Qplus sX 0)); [rewrite Ht; lra|].
    apply cumsum_from_upper_bound, stream_steps_nonneg, Hu. }
  assert (E2 : countQ (T + u) (cumsum_from (fold_left Qplus sX 0) [1 * u; 0 * u; 1 * u])
               = 2%nat).
  { cbn [cumsum_from]. rewrite !countQ_cons. unfold countQ. cbn [filter List.length].
    rewrite (proj2 (Qeq_bool_iff _ _)) by (rewrite Ht; ring).
    rewrite (proj2 (Qeq_bool_iff _ _)) by (rewrite Ht; ring).
    rewrite (proj2 (Qeq_bool_false _ _)); [reflexivity|].
    rewrite Ht. intro E. assert (u == 0) by lra. lra. }
  assert (E3 : countQ (T + u)
                 (cumsum_from (fold_left Qplus [1 * u; 0 * u; 1 * u] (fold_left Qplus sX 0)) sY)
               = 0%nat).
  { apply (countQ_below _ (fold_left Qplus [1 * u; 0 * u; 1 * u] (fold_left Qplus sX 0))).
    - cbn [fold_left]. rewrite Ht. lra.
    - apply cumsum_from_lower_bound, stream_steps_nonneg, Hu. }
  rewrite E1, E2, E3. split; [simpl; lia | reflexivity].
Qed.

(* ================================================================= *)
(** ** The XY pattern *)

Lemma _concatenation_xy_succ (n : positive) :
  _concatenation_xy (Pos.succ n) = _concatenation_xy_step (_concatenation_xy n).
Proof. unfold _concatenation_xy. now rewrite Pos.peano_rect_succ. Qed.

Lemma drop_last_app {A : Type} (k : nat) (l1 l2 : list A) :
  (k <= List.length l2)%nat -> drop_last k (l1 ++ l2) = l1 ++ drop_last k l2.
Proof.
  intro H. unfold drop_last. rewrite length_app.
  replace (List.length l1 + List.length l2 - k)%nat
    with (List.length l1 + (List.length l2 - k))%nat by lia.
  apply firstn_app_2.
Qed.

(** Every pattern holds a lone rabi pulse between two unit steps after
    which no detuning marker comes. *)
Lemma _concatenation_xy_shape (n : positive) :
  exists X Y,
    _concatenation_xy n = X ++ [1; -1; 1]%Z ++ Y /\
    Forall (fun c => c <> (-3)%Z) Y.
Proof.
  induction n as [|n (X & Y & E & HY)] using Pos.peano_ind.
  - exists [], [-2; 1; -1; 1; -2]%Z. split; [reflexivity|].
    repeat (constructor; [discriminate|]). constructor.
  - rewrite _concatenation_xy_succ. unfold _concatenation_xy_step.
    set (prev := _concatenation_xy n) in *.
    match goal with
    | |- context [?pre ++ prev ++ [(-2)%Z]] => set (head := pre)
    end.
    assert (Ec : head ++ prev ++ [(-2)%Z]
                 = (head ++ X ++ [1; -1; 1]%Z) ++ (Y ++ [(-2)%Z])).
    { rewrite E, <- !app_assoc. reflexivity. }
    rewrite Ec.
    destruct (snoc_cases Y) as [-> | (Y0 & y & ->)].
    + replace ((head ++ X ++ [1; -1; 1]%Z) ++ [] ++ [(-2)%Z])
        with (((head ++ X ++ [1; -1]%Z) ++ [1%Z]) ++ [(-2)%Z])
        by (rewrite <- !app_assoc; reflexivity).
      rewrite removelast_snoc, !last_last. cbn [Z.eqb Pos.eqb andb].
      exists (head ++ X), [(-2)%Z]. rewrite <- !app_assoc. split; [reflexivity|].
      repeat constructor. discriminate.
    + apply Forall_app in HY as [HY0 Hy].
      replace ((head ++ X ++ [1; -1; 1]%Z) ++ (Y0 ++ [y]) ++ [(-2)%Z])
        with ((((head ++ X ++ [1; -1; 1]%Z) ++ Y0) ++ [y]) ++ [(-2)%Z])
        by (rewrite <- !app_assoc; reflexivity).
      rewrite removelast_snoc, !last_last. cbn [Z.eqb Pos.eqb andb].
      destruct (y =? -2)%Z eqn:Ey.
      * rewrite <- (app_assoc _ [y] [(-2)%Z]).
        rewrite drop_last_app by (simpl; lia).
        cbn [drop_last app List.length Nat.sub firstn]. rewrite app_nil_r.
        exists (head ++ X), Y0. rewrite <- !app_assoc. split; [reflexivity | assumption].
      * exists (head ++ X), ((Y0 ++ [y]) ++ [(-2)%Z]).
        rewrite <- !app_assoc. split; [reflexivity|].
        apply Forall_app. split; [assumption|].
        apply Forall_app. split; [assumption|]. repeat constructor. discriminate.
Qed.

(** Some rabi offset lies beyond every detuning offset. *)
Lemma rabi_offset_after_shape (d : Q) (n : positive) :
  0 < d ->
  exists q,
    In q (xy_rabi_offsets d n) /\
    Forall (fun z => z < q) (xy_detuning_offsets d n).
Proof.
  intro Hd. unfold xy_rabi_offsets, xy_detuning_offsets.
  set (u := d / inject_Z (2 ^ (Z.pos n * 2))).
  assert (Hu : 0 < u) by (apply unit_spacing_pos; [assumption | lia]).
  destruct (_concatenation_xy_shape n) as (X & Y & -> & HY).
  destruct (rabi_offset_after u X Y Hu) as (q & Hq & Eq).
  exists q. split; [assumption|].
  apply Forall_forall. intros z Hz.
  apply (detuning_offsets_bounded u X ([1; -1; 1]%Z ++ Y) z Hu) in Hz.
  - rewrite Eq. lra.
  - repeat (constructor; [discriminate|]). assumption.
Qed.

Lemma StronglySorted_Qlt_Qle (l : list Q) : StronglySorted Qlt l -> StronglySorted Qle l.
Proof.
  induction 1 as [|x l _ IH Hall]; constructor; [assumption|].
  eapply Forall_impl; [|exact Hall]. intros y Hy. now apply Qlt_le_weak.
Qed.

Lemma skipn_np_zeros (k m : nat) : skipn k (np_zeros (k + m)) = np_zeros m.
Proof.
  unfold np_zeros. induction k as [|k IH]; [reflexivity|]. simpl. exact IH.
Qed.


(* ================================================================= *)
(** * The constructor: boundary normalization *)

(** C5.  Whenever a construction with [pre_post_rotation = True] succeeds,
    the first and the last entry of the constructed [rabi_rotations] are
    the quarter turn [np.pi / 2], whatever rabi values the caller supplied
    at the boundaries and whether the boundary offsets [0] and [duration]
    were supplied or synthesized. *)
Theorem pre_post_rotation_forces_quarter_turns
    (d : Q) (o r a z : option (list Q)) (nm : option string)
    (S : DynamicDecouplingSequence) :
  new_sequence d o r a z true nm = Return S ->
  hd_error (rabi_rotations S) = Some (np_pi / 2) /\
  rabi_rotations S <> [] /\
  last (rabi_rotations S) 0 = np_pi / 2.
Proof.
  intro H.
  destruct (constructed_rabi_quarter_turns _ _ _ _ _ _ _ H) as [(rest & E1) (body & E2)].
  split; [rewrite E1; reflexivity|].
  split; [rewrite E1; discriminate|].
  rewrite E2. apply last_last.
Qed.

Lemma pre_post_rotation_forces_quarter_turns_witness :
  hd_error (rabi_rotations framed_example) = Some (np_pi / 2) /\
  rabi_rotations framed_example <> [] /\
  last (rabi_rotations framed_example) 0 = np_pi / 2.
Proof.
  apply (pre_post_rotation_forces_quarter_turns
           1 (Some [0; 1 # 2; 1]) (Some [7; 8; 9]) None None None framed_example).
  vm_compute. reflexivity.
Defined.

(** C6.  If the first supplied offset is not [0], the constructor puts
    exactly one new entry in front of each array: offset [0], rabi
    [np.pi / 2] under [pre_post_rotation] and [0] otherwise, azimuthal [0]
    and detuning [0]; what follows is the supplied arrays with their end
    treated.  If the last supplied offset is not [duration], it puts exactly
    one new entry behind each array: offset [duration] and rotations by the
    same rule; what precedes is the supplied arrays with their start
    treated. *)
Theorem missing_boundaries_are_inserted
    (d : Q) (o r a z : option (list Q)) (ppr : bool) (nm : option string)
    (S : DynamicDecouplingSequence) :
  new_sequence d o r a z ppr nm = Return S ->
  let offs := default_offsets o in
  let rabi := default_rabi_rotations (List.length offs) r in
  let azi := default_zeros (List.length offs) a in
  let det := default_zeros (List.length offs) z in
  let b := if ppr then np_pi / 2 else 0 in
  (~ hd 0 offs == 0 ->
     offsets S = 0 :: offs ++ (if tail_missing d offs then [d] else []) /\
     rabi_rotations S = rabi_after_end d ppr offs (b :: rabi) /\
     azimuthal_angles S = 0 :: azi ++ (if tail_missing d offs then [0] else []) /\
     detuning_rotations S = 0 :: det ++ (if tail_missing d offs then [0] else []))
  /\
  (~ last offs 0 == d ->
     offsets S = (if head_missing offs then [0] else []) ++ offs ++ [d] /\
     rabi_rotations S = rabi_after_start ppr offs rabi ++ [b] /\
     azimuthal_angles S = (if head_missing offs then [0] else []) ++ azi ++ [0] /\
     detuning_rotations S = (if head_missing offs then [0] else []) ++ det ++ [0]).
Proof.
  intros H offs rabi azi det b.
  pose proof (new_sequence_shape _ _ _ _ _ _ _ _ H) as Sh.
  unfold supplied in Sh. fold offs rabi azi det in Sh.
  destruct Sh as (_ & _ & _ & _ & _ & Ho & Ha & Hz & Hr & _).
  split; intro Hb.
  - assert (E : head_missing offs = true)
      by (unfold head_missing; apply negb_true_iff, Qeq_bool_false, Hb).
    rewrite Ho, Ha, Hz, Hr. unfold rabi_after_start, boundary_rabi.
    rewrite E. repeat split; reflexivity.
  - assert (E : tail_missing d offs = true)
      by (unfold tail_missing; apply negb_true_iff, Qeq_bool_false, Hb).
    rewrite Ho, Ha, Hz, Hr. unfold rabi_after_end, boundary_rabi.
    rewrite E. repeat split; reflexivity.
Qed.

Lemma missing_boundaries_are_inserted_witness :
  (offsets quarter_example = [0; 1 # 2; 2] /\
   rabi_rotations quarter_example = [np_pi / 2; 5; np_pi / 2] /\
   azimuthal_angles quarter_example = [0; 6; 0] /\
   detuning_rotations quarter_example = [0; 7; 0]) /\
  (offsets quarter_example = [0; 1 # 2; 2] /\
   rabi_rotations quarter_example = [np_pi / 2; 5; np_pi / 2] /\
   azimuthal_angles quarter_example = [0; 6; 0] /\
   detuning_rotations quarter_example = [0; 7; 0]).
Proof.
  destruct (missing_boundaries_are_inserted
              2 (Some [1 # 2]) (Some [5]) (Some [6]) (Some [7]) true None quarter_example)
    as [Hstart Hend].
  - vm_compute. reflexivity.
  - split.
    + apply Hstart. vm_compute. discriminate.
    + apply Hend. vm_compute. discriminate.
Defined.

(** C10.  Frame property of the constructor: at every index other than the
    first and the last of the constructed arrays, [offsets],
    [rabi_rotations], [azimuthal_angles] and [detuning_rotations] hold the
    value supplied for that position (the supplied arrays sit one place
    further right exactly when offset [0] was prepended). *)
Theorem interior_entries_are_untouched
    (d : Q) (o r a z : option (list Q)) (ppr : bool) (nm : option string)
    (S : DynamicDecouplingSequence) (i : nat) :
  new_sequence d o r a z ppr nm = Return S ->
  (0 < i)%nat -> (i + 1 < List.length (offsets S))%nat ->
  let offs := default_offsets o in
  let k := if head_missing offs then 1%nat else 0%nat in
  (i - k < List.length offs)%nat /\
  nth_error (offsets S) i = nth_error offs (i - k) /\
  nth_error (rabi_rotations S) i
    = nth_error (default_rabi_rotations (List.length offs) r) (i - k) /\
  nth_error (azimuthal_angles S) i
    = nth_error (default_zeros (List.length offs) a) (i - k) /\
  nth_error (detuning_rotations S) i
    = nth_error (default_zeros (List.length offs) z) (i - k).
Proof.
  intros H Hi Hlen offs k.
  pose proof (new_sequence_shape _ _ _ _ _ _ _ _ H) as Sh.
  unfold supplied in Sh. fold offs in Sh.
  destruct Sh as (_ & _ & _ & _ & _ & Ho & Ha & Hz & Hr & _ & Lr & La & Lz).
  assert (Eo : nth_error (offsets S) i = nth_error offs (i - k)).
  { rewrite Ho in *. apply nth_error_framed; [assumption | lia]. }
  split.
  { apply nth_error_Some. rewrite <- Eo. apply nth_error_Some. lia. }
  split; [exact Eo|].
  split; [|split].
  - rewrite Hr in *.
    rewrite nth_error_rabi_after_end by lia.
    apply nth_error_rabi_after_start. assumption.
  - rewrite Ha in *. apply nth_error_framed; [assumption | lia].
  - rewrite Hz in *. apply nth_error_framed; [assumption | lia].
Qed.

Lemma interior_entries_are_untouched_witness :
  (1 - 1 < 1)%nat /\
  nth_error (offsets quarter_example) 1 = Some (1 # 2) /\
  nth_error (rabi_rotations quarter_example) 1 = Some 5 /\
  nth_error (azimuthal_angles quarter_example) 1 = Some 6 /\
  nth_error (detuning_rotations quarter_example) 1 = Some 7.
Proof.
  apply (interior_entries_are_untouched
           2 (Some [1 # 2]) (Some [5]) (Some [6]) (Some [7]) true None quarter_example 1).
  - vm_compute. reflexivity.
  - lia.
  - simpl. lia.
Defined.

(* ================================================================= *)
(** * The constructor: invariants of the offsets *)

(** C2, as the specification states it, fails on two counts.  The
    constructor never compares neighbouring offsets, so a decreasing pair
    is accepted and kept; and it bounds the number of supplied offsets
    before the two boundary offsets are added, so 10000 interior offsets
    end up as 10002. *)
Lemma constructed_offsets_unsorted_or_too_many :
  (exists S,
     new_sequence 1 (Some [1 # 2; 1 # 4]) None None None false None = Return S /\
     offsets S = [0; 1 # 2; 1 # 4; 1] /\
     ~ Sorted Qle (offsets S))
  /\
  (exists S,
     new_sequence 1 (Some (repeat (1 # 2) (Z.to_nat UPPER_BOUND_OFFSETS))) None None None false None = Return S /\
     ~ (Z.of_nat (List.length (offsets S)) <= UPPER_BOUND_OFFSETS)%Z).
Proof.
  split.
  - eexists. split; [vm_compute; reflexivity|]. split; [reflexivity|].
    cbn [offsets]. intro Hs.
    inversion Hs as [|? ? Hs1 _]; subst.
    inversion Hs1 as [|? ? _ Hhd]; subst.
    inversion Hhd as [|? ? Hle]; subst.
    vm_compute in Hle. apply Hle. reflexivity.
  - eexists. split; [vm_compute; reflexivity|].
    vm_compute. intro Hle. apply Hle. reflexivity.
Qed.

(** C2, amended.  For every input the constructor accepts, the constructed
    offsets begin with [0], end with [duration], number at most 10002 (the
    10000 allowed supplied offsets and the two boundaries), and are
    non-decreasing whenever the supplied offsets are. *)
Theorem constructed_offsets_invariants
    (d : Q) (o r a z : option (list Q)) (ppr : bool) (nm : option string)
    (S : DynamicDecouplingSequence) :
  new_sequence d o r a z ppr nm = Return S ->
  (exists x rest, offsets S = x :: rest /\ x == 0) /\
  (exists body y, offsets S = body ++ [y] /\ y == d) /\
  (Z.of_nat (List.length (offsets S)) <= UPPER_BOUND_OFFSETS + 2)%Z /\
  (Sorted Qle (default_offsets o) -> Sorted Qle (offsets S)).
Proof.
  intro H.
  split; [exact (constructed_first_zero _ _ _ _ _ _ _ _ H)|].
  split; [exact (constructed_last_duration _ _ _ _ _ _ _ _ H)|].
  pose proof (new_sequence_shape _ _ _ _ _ _ _ _ H) as Sh.
  unfold supplied in Sh.
  destruct Sh as (_ & _ & _ & _ & _ & Ho & _).
  apply new_sequence_Return in H as (Hd & Hn & Hr & _).
  split.
  - rewrite Ho, !length_app. unfold UPPER_BOUND_OFFSETS in *.
    destruct (head_missing _), (tail_missing _ _); simpl; lia.
  - intro Hs. rewrite Ho.
    assert (Hmid : Sorted Qle (default_offsets o ++
                     (if tail_missing d (default_offsets o) then [d] else []))).
    { destruct (tail_missing _ _); [|now rewrite app_nil_r].
      apply Sorted_Qle_snoc; [assumption|].
      eapply Forall_impl; [|exact Hr]. intros x [_ Hx]. exact Hx. }
    destruct (head_missing _); [|exact Hmid].
    apply Sorted_Qle_cons; [exact Hmid|].
    apply Forall_app. split.
    + eapply Forall_impl; [|exact Hr]. intros x [Hx _]. exact Hx.
    + destruct (tail_missing _ _); repeat constructor. apply Qlt_le_weak, Hd.
Qed.

Lemma constructed_offsets_invariants_witness :
  (exists x rest, offsets two_pulse_example = x :: rest /\ x == 0) /\
  (exists body y, offsets two_pulse_example = body ++ [y] /\ y == 1) /\
  (Z.of_nat (List.length (offsets two_pulse_example)) <= UPPER_BOUND_OFFSETS + 2)%Z /\
  Sorted Qle (offsets two_pulse_example).
Proof.
  destruct (constructed_offsets_invariants
              1 (Some [1 # 4; 3 # 4]) None None None false None two_pulse_example)
    as (H1 & H2 & H3 & H4).
  - vm_compute. reflexivity.
  - repeat split; try assumption.
    apply H4. repeat constructor. vm_compute. discriminate.
Defined.

(* ================================================================= *)
(** * The constructor: construction from a constructed sequence *)

(** C7, as the specification states it, fails: 10000 supplied interior
    offsets are accepted and grow to 10002 constructed ones, and the
    constructor rejects those 10002 offsets when they are handed back. *)
Lemma reconstruction_rejects_grown_offsets :
  exists S,
    new_sequence 1 (Some (repeat (1 # 2) (Z.to_nat UPPER_BOUND_OFFSETS)))
                 None None None false None = Return S /\
    is_ArgumentsValueError
      (new_sequence (duration S) (Some (offsets S)) (Some (rabi_rotations S))
                    (Some (azimuthal_angles S)) (Some (detuning_rotations S))
                    (pre_post_rotation S) (name S)) = true.
Proof.
  eexists. split; vm_compute; reflexivity.
Qed.

(** C7, amended.  For every successfully constructed sequence with at most
    10000 offsets, constructing again from its own duration, offsets,
    rotations, [pre_post_rotation] and name succeeds and yields a sequence
    with the same fields. *)
Theorem reconstruction_is_identity
    (d : Q) (o r a z : option (list Q)) (ppr : bool) (nm : option string)
    (S : DynamicDecouplingSequence) :
  new_sequence d o r a z ppr nm = Return S ->
  (Z.of_nat (number_of_offsets S) <= UPPER_BOUND_OFFSETS)%Z ->
  new_sequence (duration S) (Some (offsets S)) (Some (rabi_rotations S))
               (Some (azimuthal_angles S)) (Some (detuning_rotations S))
               (pre_post_rotation S) (name S) = Return S.
Proof.
  intros H Hn.
  destruct (constructed_first_zero _ _ _ _ _ _ _ _ H) as (x & rest & Ex & Hx).
  destruct (constructed_last_duration _ _ _ _ _ _ _ _ H) as (body & y & Ey & Hy).
  destruct (constructed_offsets_in_range _ _ _ _ _ _ _ _ H) as (Hd & Hrange).
  assert (Hrabi : ppr = true ->
            (exists t, rabi_rotations S = np_pi / 2 :: t) /\
            (exists b, rabi_rotations S = b ++ [np_pi / 2])).
  { intros ->. exact (constructed_rabi_quarter_turns _ _ _ _ _ _ _ H). }
  apply new_sequence_Return in H
    as (_ & _ & _ & st1 & rabi2 & azi2 & det2 & offs2 & _ & _ & L1 & L2 & L3 & ->).
  cbn [duration offsets rabi_rotations azimuthal_angles detuning_rotations
       pre_post_rotation name number_of_offsets] in *.
  unfold new_sequence. cbn [default_offsets default_rabi_rotations default_zeros].
  apply Qle_bool_false in Hd. rewrite Hd.
  apply Z.ltb_ge in Hn. rewrite Hn.
  rewrite (Forall_existsb_false (fun x => Qlt_bool x 0)),
          (Forall_existsb_false (fun x => Qlt_bool d x)).
  2,3: eapply Forall_impl; [|exact Hrange]; intros q [Hq0 Hqd];
       apply Qlt_bool_false; assumption.
  cbn [orb].
  rewrite Ex at 1.
  rewrite normalize_start_fixed by (assumption || (intro E; apply Hrabi, E)).
  cbn [bind]. rewrite <- Ex. rewrite Ey at 1.
  rewrite normalize_end_fixed by (assumption || (intro E; apply Hrabi, E)).
  cbn [bind]. rewrite <- Ey.
  rewrite L1, L2, L3, Nat.eqb_refl. reflexivity.
Qed.

Lemma reconstruction_is_identity_witness :
  new_sequence 2 (Some [0; 1 # 2; 2]) (Some [np_pi / 2; 5; np_pi / 2])
               (Some [0; 6; 0]) (Some [0; 7; 0]) true None = Return quarter_example.
Proof.
  apply (reconstruction_is_identity
           2 (Some [1 # 2]) (Some [5]) (Some [6]) (Some [7]) true None quarter_example).
  - vm_compute. reflexivity.
  - vm_compute. discriminate.
Defined.

(* ================================================================= *)
(** * The constructor: omitted offsets *)

(** C4.  With [offsets] omitted the constructor places the single interior
    offset at [0.5] whatever the duration: for [duration = 2] the
    constructed offsets are [[0; 0.5; 2]] and [0.5] is not the midpoint [1];
    for [duration = 0.25] the defaulted offset lies beyond the duration and
    the construction is rejected. *)
Theorem omitted_offsets_default_to_one_half :
  default_offsets None = [1 # 2] /\
  new_sequence 2 None None None None false None
  = Return (mkSequence 2 [0; 1 # 2; 2] [0; np_pi * 1; 0] [0; 0; 0] [0; 0; 0]
                       false 3%nat None) /\
  ~ (1 # 2) == 2 / 2 /\
  is_ArgumentsValueError (new_sequence (1 # 4) None None None None false None) = true.
Proof.
  split; [reflexivity|].
  split; [vm_compute; reflexivity|].
  split; [|vm_compute; reflexivity].
  intro E. vm_compute in E. discriminate.
Qed.

(* ================================================================= *)
(** * The dispatcher *)

(** C9.  For every scheme identifier that is none of the ten scheme names,
    the dispatcher raises the argument-validation error, whatever the
    keyword arguments, and the description of the error contains each of
    the ten names. *)
Theorem unknown_scheme_is_rejected
    (np_sin : Q -> Q) (scheme : string) (kw : kwargs) :
  ~ In scheme scheme_names ->
  new_predefined_dds np_sin scheme kw
  = Raise (ArgumentsValueError unknown_scheme_description
             [("sequence_name"%string, PyStr scheme)] []) /\
  List.length scheme_names = 10%nat /\
  NoDup scheme_names /\
  forall nm, In nm scheme_names -> mentions nm unknown_scheme_description = true.
Proof.
  intro Hn. split; [|split; [reflexivity|split]].
  - unfold new_predefined_dds.
    repeat match goal with
           | |- context [String.eqb scheme ?c] =>
               let E := fresh "E" in
               destruct (String.eqb scheme c) eqn:E;
               [apply String.eqb_eq in E; exfalso; apply Hn; rewrite E;
                unfold scheme_names; simpl; tauto|]
           end.
    reflexivity.
  - unfold scheme_names.
    repeat (constructor; [simpl; intuition discriminate|]). constructor.
  - intros nm Hin. unfold scheme_names in Hin. simpl in Hin.
    repeat (destruct Hin as [<- | Hin]; [vm_compute; reflexivity|]).
    contradiction.
Qed.

Lemma unknown_scheme_is_rejected_witness :
  new_predefined_dds square_sin "Hahn echo" no_kwargs
  = Raise (ArgumentsValueError unknown_scheme_description
             [("sequence_name"%string, PyStr "Hahn echo")] []) /\
  List.length scheme_names = 10%nat /\
  NoDup scheme_names /\
  forall nm, In nm scheme_names -> mentions nm unknown_scheme_description = true.
Proof.
  apply (unknown_scheme_is_rejected square_sin "Hahn echo" no_kwargs).
  unfold scheme_names. simpl. intuition discriminate.
Defined.

(* ================================================================= *)
(** * The Walsh generator *)

(** C8.  For every duration [d > 0], the Walsh generator with
    [paley_order = 1] finds exactly one sign change, at the midpoint: the
    constructed sequence has offsets [[0; d/2; d]] and rabi rotations
    [[0; np.pi; 0]], the offsets and rabi rotations of the Spin-Echo
    sequence of the same duration.  The sine is a parameter of the model;
    what is used of it is that it respects equality, is positive at
    [np.pi / 2] and negative at [3 * np.pi / 2]. *)
Theorem walsh_paley_one_is_spin_echo
    (np_sin : Q -> Q) (d : Q) (nm : option string) :
  (forall x y, x == y -> np_sin x == np_sin y) ->
  0 < np_sin (np_pi / 2) ->
  np_sin (3 * np_pi / 2) < 0 ->
  0 < d ->
  exists S mid,
    new_walsh_single_axis_sequence np_sin (walsh_paley_one_kwargs d nm) = Return S /\
    duration S = d /\
    offsets S = [0; mid; d] /\ mid == d / 2 /\
    rabi_rotations S = [0; np_pi; 0] /\
    azimuthal_angles S = [0; 0; 0] /\
    detuning_rotations S = [0; 0; 0] /\
    exists S',
      new_spin_echo_sequence (duration_kwargs d nm) = Return S' /\
      offsets S' = offsets S /\
      rabi_rotations S' = rabi_rotations S.
Proof.
  intros Hp H1 H2 Hd.
  assert (Hmid0 : 0 < d * (1 # 2)) by lra.
  assert (Hmidd : d * (1 # 2) < d) by lra.
  pose proof (new_sequence_single_pulse d (d * (1 # 2)) np_pi 0 0 nm Hmid0 Hmidd) as Hc.
  assert (Hdb : Qle_bool d 0 = false) by (apply Qle_bool_false, Hd).
  eexists. exists (d * (1 # 2)). split; [|split; [|split; [|split; [|split; [|split; [|split]]]]]].
  - unfold new_walsh_single_axis_sequence, walsh_paley_one_kwargs.
    cbn [kw_duration kw_paley_order or_default]. rewrite Hdb.
    change ((1 <? 1)%Z || (2000 <? 1)%Z) with false. cbv iota.
    rewrite (walsh_relative_offsets_one np_sin Hp H1 H2).
    exact Hc.
  - reflexivity.
  - reflexivity.
  - field.
  - reflexivity.
  - reflexivity.
  - reflexivity.
  - eexists. split; [|split; reflexivity].
    unfold new_spin_echo_sequence, duration_kwargs.
    cbn [kw_duration or_default]. rewrite Hdb. exact Hc.
Qed.

Lemma walsh_paley_one_is_spin_echo_witness :
  exists S mid,
    new_walsh_single_axis_sequence square_sin (walsh_paley_one_kwargs 1 None) = Return S /\
    duration S = 1 /\
    offsets S = [0; mid; 1] /\ mid == 1 / 2 /\
    rabi_rotations S = [0; np_pi; 0] /\
    azimuthal_angles S = [0; 0; 0] /\
    detuning_rotations S = [0; 0; 0] /\
    exists S',
      new_spin_echo_sequence (duration_kwargs 1 None) = Return S' /\
      offsets S' = offsets S /\
      rabi_rotations S' = rabi_rotations S.
Proof.
  apply (walsh_paley_one_is_spin_echo square_sin 1 None).
  - exact square_sin_compat.
  - vm_compute. reflexivity.
  - vm_compute. reflexivity.
  - vm_compute. reflexivity.
Defined.

(* ================================================================= *)
(** * The X-concatenated generator *)

(** C3.  For every concatenation order and every duration [d > 0], the
    offsets the X-concatenated generator computes from its pattern are, in
    increasing order and each once, exactly the cumulative positions at
    which the pattern places an odd number of pulses; positions with an
    even number of pulses do not appear.  (It is from this list that line
    652 then drops the last entry when the order is odd.) *)
Theorem x_concatenated_offsets_are_odd_pulse_positions
    (d : Q) (concatenation_order : positive) :
  0 < d ->
  let unit_spacing := d / inject_Z (2 ^ Z.pos concatenation_order) in
  let computed := x_concatenated_computed_offsets d concatenation_order in
  StronglySorted Qlt computed /\
  (forall p,
     (exists q, In q computed /\ q == p) <->
     Nat.odd (pulse_multiplicity (_concatenation_x concatenation_order) unit_spacing p)
     = true) /\
  x_concatenated_offsets d concatenation_order
  = (if Z.odd (Z.pos concatenation_order) then drop_last 1 computed else computed).
Proof.
  intros Hd u computed.
  assert (Hu : 0 < u) by (apply unit_spacing_pos; [assumption | lia]).
  split; [apply even_count_values_increasing|].
  split.
  - intro p. unfold computed, x_concatenated_computed_offsets. fold u.
    rewrite even_count_values_spec.
    destruct (_concatenation_x_shape concatenation_order) as (rest & E & Hrest).
    rewrite E.
    destruct (count_pulse_multiplicity u p rest Hu Hrest) as [[-> ->] | ->].
    + split; [intros [H _]; lia | discriminate].
    + rewrite Nat.even_succ. split; [tauto | intro H; split; [lia | assumption]].
  - unfold x_concatenated_offsets. fold computed. rewrite Zmod_odd.
    destruct concatenation_order; reflexivity.
Qed.

Lemma x_concatenated_offsets_are_odd_pulse_positions_witness :
  StronglySorted Qlt (x_concatenated_computed_offsets 1 2) /\
  (forall p,
     (exists q, In q (x_concatenated_computed_offsets 1 2) /\ q == p) <->
     Nat.odd (pulse_multiplicity (_concatenation_x 2) (1 / inject_Z (2 ^ 2)) p) = true) /\
  x_concatenated_offsets 1 2 = x_concatenated_computed_offsets 1 2.
Proof.
  apply (x_concatenated_offsets_are_odd_pulse_positions 1 2).
  reflexivity.
Defined.

(* ================================================================= *)
(** * The XY-concatenated generator *)

(** C1.  For every concatenation order and every duration [d > 0]: with
    [M] the merged rabi/azimuthal offsets (every rabi and every azimuthal
    offset, once each), the offsets array after the insertion of the
    detuning offsets holds every entry of [M] and every detuning offset,
    once each, in non-decreasing order.  The right shift of lines 792-798
    neither loses nor duplicates an offset. *)
Theorem detuning_insertion_keeps_every_offset
    (d : Q) (concatenation_order : positive) :
  0 < d ->
  let rabi_offsets := xy_rabi_offsets d concatenation_order in
  let azimuthal_offsets := xy_azimuthal_offsets d concatenation_order in
  let detuning_offsets := xy_detuning_offsets d concatenation_order in
  let merged := xy_merged rabi_offsets azimuthal_offsets detuning_offsets in
  let final := xy_concatenated_arrays d concatenation_order in
  final = xy_with_detuning detuning_offsets merged /\
  exists M,
    xy_offsets merged = M ++ np_zeros (List.length detuning_offsets) /\
    Permutation M (rabi_offsets ++ azimuthal_offsets) /\
    Permutation (xy_offsets final) (M ++ detuning_offsets) /\
    StronglySorted Qle (xy_offsets final).
Proof.
  intros Hd R A D merged final. split; [reflexivity|].
  set (u := d / inject_Z (2 ^ (Z.pos concatenation_order * 2))).
  assert (Hu : 0 < u) by (apply unit_spacing_pos; [assumption | lia]).
  assert (HR : StronglySorted Qle R)
    by apply StronglySorted_Qlt_Qle, even_count_values_increasing.
  assert (HA : StronglySorted Qle A)
    by apply StronglySorted_Qlt_Qle, even_count_values_increasing.
  assert (HD : StronglySorted Qle D)
    by apply StronglySorted_Qlt_Qle, even_count_values_increasing.
  destruct (merge_rabi_azimuthal_offsets
              (List.length R + List.length A) R A []
              (np_zeros (List.length R + List.length A + List.length D))
              (mkXY (np_zeros (List.length R + List.length A + List.length D))
                    (np_zeros (List.length R + List.length A + List.length D))
                    (np_zeros (List.length R + List.length A + List.length D))
                    (np_zeros (List.length R + List.length A + List.length D))))
    as (M & EM & PM & SM); try assumption; try reflexivity.
  1: { unfold np_zeros. rewrite repeat_length. lia. }
  rewrite skipn_np_zeros in EM. cbn [List.length app] in EM.
  fold (xy_merged R A D) in EM. fold merged in EM.
  exists M. split; [exact EM|]. split; [exact PM|].
  unfold final, xy_concatenated_arrays. fold R A D merged.
  unfold xy_with_detuning.
  destruct D as [|d0 D'] eqn:ED.
  - rewrite EM. cbn [np_zeros repeat List.length]. rewrite !app_nil_r.
    split; [apply Permutation_refl | assumption].
  - rewrite <- ED in *.
    destruct (rabi_offset_after_shape d concatenation_order Hd) as (q & Hq & Hbound).
    fold R in Hq. fold D in Hbound.
    assert (Hlen : List.length (xy_offsets merged) = (List.length M + List.length D)%nat).
    { rewrite EM, length_app. unfold np_zeros. now rewrite repeat_length. }
    rewrite Hlen.
    destruct (insert_detuning_offsets (List.length M + List.length D)
                M D [] D 0 merged) as (F & EF & PF & SF);
      try assumption; try reflexivity.
    { rewrite ED. discriminate. }
    { exists q. split; [|assumption].
      eapply Permutation_in; [apply Permutation_sym, PM|].
      apply in_or_app. now left. }
    cbn [List.length app] in EF. rewrite EF. split; assumption.
Qed.

Lemma detuning_insertion_keeps_every_offset_witness :
  let rabi_offsets := xy_rabi_offsets 1 2 in
  let azimuthal_offsets := xy_azimuthal_offsets 1 2 in
  let detuning_offsets := xy_detuning_offsets 1 2 in
  let merged := xy_merged rabi_offsets azimuthal_offsets detuning_offsets in
  let final := xy_concatenated_arrays 1 2 in
  final = xy_with_detuning detuning_offsets merged /\
  exists M,
    xy_offsets merged = M ++ np_zeros (List.length detuning_offsets) /\
    Permutation M (rabi_offsets ++ azimuthal_offsets) /\
    Permutation (xy_offsets final) (M ++ detuning_offsets) /\
    StronglySorted Qle (xy_offsets final).
Proof.
  apply (detuning_insertion_keeps_every_offset 1 2).
  reflexivity.
Defined.

(* ================================================================= *)
(** * Further properties of the constructor *)

Lemma rabi_after_start_length ppr offs rabi :
  (head_missing offs = false -> ppr = true -> rabi <> []) ->
  List.length (rabi_after_start ppr offs rabi)
  = ((if head_missing offs then 1 else 0) + List.length rabi)%nat.
Proof.
  intro H. unfold rabi_after_start. destruct (head_missing offs); [reflexivity|].
  destruct ppr; [|reflexivity].
  destruct rabi; [exfalso; now apply H | reflexivity].
Qed.

Lemma rabi_after_start_nonempty offs rabi : rabi_after_start true offs rabi <> [].
Proof. unfold rabi_after_start. destruct (head_missing offs); discriminate. Qed.

Lemma rabi_after_end_length d ppr offs rabi1 :
  (ppr = true -> rabi1 <> []) ->
  List.length (rabi_after_end d ppr offs rabi1)
  = (List.length rabi1 + (if tail_missing d offs then 1 else 0))%nat.
Proof.
  intro H. unfold rabi_after_end. destruct (tail_missing d offs).
  - rewrite length_app. reflexivity.
  - destruct ppr; [|lia].
    destruct (snoc_cases rabi1) as [E | (body & x & ->)]; [exfalso; now apply H|].
    rewrite removelast_snoc, !length_app. simpl. lia.
Qed.

Lemma new_sequence_lengths d o r a z ppr nm S :
  new_sequence d o r a z ppr nm = Return S ->
  let offs := default_offsets o in
  List.length (default_rabi_rotations (List.length offs) r) = List.length offs /\
  List.length (default_zeros (List.length offs) a) = List.length offs /\
  List.length (default_zeros (List.length offs) z) = List.length offs /\
  List.length (offsets S)
  = ((if head_missing offs then 1 else 0) + List.length offs
     + (if tail_missing d offs then 1 else 0))%nat.
Proof.
  intros H offs.
  pose proof (new_sequence_shape _ _ _ _ _ _ _ _ H) as Sh.
  unfold supplied in Sh. fold offs in Sh.
  destruct Sh as (_ & _ & _ & _ & _ & Ho & Ha & Hz & Hr & Hne & Lr & La & Lz).
  assert (Lo : List.length (offsets S)
               = ((if head_missing offs then 1 else 0) + List.length offs
                  + (if tail_missing d offs then 1 else 0))%nat).
  { rewrite Ho, !length_app. destruct (head_missing offs), (tail_missing d offs); simpl; lia. }
  rewrite Hr in Lr. rewrite rabi_after_end_length in Lr.
  2: { intros ->. apply rabi_after_start_nonempty. }
  rewrite rabi_after_start_length in Lr by assumption.
  rewrite Ha, !length_app in La. rewrite Hz, !length_app in Lz.
  repeat split; try assumption;
    destruct (head_missing offs), (tail_missing d offs); simpl in *; lia.
Qed.

Lemma normalize_start_succeeds ppr offs rabi azi det :
  offs <> [] -> rabi <> [] ->
  exists st, normalize_start ppr (offs, rabi, azi, det) = Return st /\
    let '(o1, r1, a1, z1) := st in
    o1 <> [] /\ r1 <> [] /\
    (List.length r1 - List.length o1 = List.length rabi - List.length offs)%nat /\
    (List.length o1 - List.length r1 = List.length offs - List.length rabi)%nat /\
    (List.length a1 - List.length o1 = List.length azi - List.length offs)%nat /\
    (List.length o1 - List.length a1 = List.length offs - List.length azi)%nat /\
    (List.length z1 - List.length o1 = List.length det - List.length offs)%nat /\
    (List.length o1 - List.length z1 = List.length offs - List.length det)%nat.
Proof.
  intros Ho Hr. destruct offs as [|first rest]; [congruence|].
  destruct rabi as [|r0 rrest]; [congruence|].
  unfold normalize_start. cbn [getitem_first bind].
  destruct (negb (Qeq_bool first 0)).
  - eexists. split; [reflexivity|]. simpl. repeat split; try discriminate; lia.
  - destruct ppr; eexists; (split; [reflexivity|]); simpl;
      repeat split; try discriminate; lia.
Qed.

Lemma normalize_end_succeeds d ppr offs rabi azi det :
  offs <> [] -> rabi <> [] ->
  exists o2 r2 a2 z2,
    normalize_end d ppr (offs, rabi, azi, det) = Return (o2, r2, a2, z2) /\
    (List.length r2 - List.length o2 = List.length rabi - List.length offs)%nat /\
    (List.length o2 - List.length r2 = List.length offs - List.length rabi)%nat /\
    (List.length a2 - List.length o2 = List.length azi - List.length offs)%nat /\
    (List.length o2 - List.length a2 = List.length offs - List.length azi)%nat /\
    (List.length z2 - List.length o2 = List.length det - List.length offs)%nat /\
    (List.length o2 - List.length z2 = List.length offs - List.length det)%nat.
Proof.
  intros Ho Hr.
  destruct (snoc_cases offs) as [E | (body & y & ->)]; [congruence|].
  destruct (snoc_cases rabi) as [E | (rbody & ry & ->)]; [congruence|].
  unfold normalize_end. rewrite getitem_last_snoc. cbn [bind].
  destruct (negb (Qeq_bool y d)).
  - do 4 eexists. split; [reflexivity|]. rewrite !length_app. simpl. repeat split; lia.
  - destruct ppr.
    + unfold setitem_last. destruct (rbody ++ [ry]) eqn:E; [destruct rbody; discriminate|].
      rewrite <- E, removelast_snoc. cbn [bind].
      do 4 eexists. split; [reflexivity|]. rewrite !length_app. simpl. repeat split; lia.
    + do 4 eexists. split; [reflexivity|]. repeat split; lia.
Qed.

(** What suffices for the constructor to return a sequence. *)
Lemma new_sequence_accepts
    (d : Q) (o r a z : option (list Q)) (ppr : bool) (nm : option string) :
  let offs := default_offsets o in
  0 < d ->
  offs <> [] ->
  (Z.of_nat (List.length offs) <= UPPER_BOUND_OFFSETS)%Z ->
  Forall (fun x => 0 <= x <= d) offs ->
  List.length (default_rabi_rotations (List.length offs) r) = List.length offs ->
  List.length (default_zeros (List.length offs) a) = List.length offs ->
  List.length (default_zeros (List.length offs) z) = List.length offs ->
  exists S, new_sequence d o r a z ppr nm = Return S.
Proof.
  intros offs Hd Hne Hn Hr L1 L2 L3.
  unfold new_sequence. fold offs.
  apply Qle_bool_false in Hd. rewrite Hd.
  apply Z.ltb_ge in Hn. rewrite Hn.
  rewrite (Forall_existsb_false (fun x => Qlt_bool x 0)),
          (Forall_existsb_false (fun x => Qlt_bool d x)).
  2,3: eapply Forall_impl; [|exact Hr]; intros q [Hq0 Hqd];
       apply Qlt_bool_false; assumption.
  cbn [orb].
  set (rabi := default_rabi_rotations _ r) in *.
  set (azi := default_zeros _ a) in *.
  set (det := default_zeros _ z) in *.
  assert (Hrne : rabi <> []).
  { intro E. rewrite E in L1. destruct offs; [congruence | discriminate]. }
  destruct (normalize_start_succeeds ppr offs rabi azi det Hne Hrne)
    as ([[[o1 r1] a1] z1] & E1 & Ho1 & Hr1 & A1 & A2 & A3 & A4 & A5 & A6).
  rewrite E1. cbn [bind].
  destruct (normalize_end_succeeds d ppr o1 r1 a1 z1 Ho1 Hr1)
    as (o2 & r2 & a2 & z2 & E2 & B1 & B2 & B3 & B4 & B5 & B6).
  rewrite E2. cbn [bind].
  assert (E3 : (List.length r2 =? List.length o2)%nat = true) by (apply Nat.eqb_eq; lia).
  assert (E4 : (List.length a2 =? List.length o2)%nat = true) by (apply Nat.eqb_eq; lia).
  assert (E5 : (List.length z2 =? List.length o2)%nat = true) by (apply Nat.eqb_eq; lia).
  rewrite E3, E4, E5. cbn [negb]. eauto.
Qed.

(** X1.  The constructor returns a sequence exactly when the duration is
    positive, the (defaulted) offsets are between 1 and 10000 in number and
    all lie in [[0, duration]], and the three (defaulted) rotation arrays
    have as many entries as the offsets. *)
Theorem constructor_accepts_exactly
    (d : Q) (o r a z : option (list Q)) (ppr : bool) (nm : option string) :
  let offs := default_offsets o in
  (exists S, new_sequence d o r a z ppr nm = Return S) <->
  0 < d /\
  offs <> [] /\
  (Z.of_nat (List.length offs) <= UPPER_BOUND_OFFSETS)%Z /\
  Forall (fun x => 0 <= x <= d) offs /\
  List.length (default_rabi_rotations (List.length offs) r) = List.length offs /\
  List.length (default_zeros (List.length offs) a) = List.length offs /\
  List.length (default_zeros (List.length offs) z) = List.length offs.
Proof.
  intro offs. split.
  - intros (S & H).
    destruct (new_sequence_lengths _ _ _ _ _ _ _ _ H) as (L1 & L2 & L3 & _).
    pose proof (new_sequence_shape _ _ _ _ _ _ _ _ H) as Sh.
    unfold supplied in Sh. destruct Sh as (Hne & _).
    apply new_sequence_Return in H as (Hd & Hn & Hr & _).
    repeat split; assumption.
  - intros (Hd & Hne & Hn & Hr & L1 & L2 & L3).
    now apply new_sequence_accepts.
Qed.

Ltac split_ifs_in H :=
  repeat match type of H with
         | context [if ?c then _ else _] => destruct c
         end.

(** X2.  The constructor never raises a [TypeError]; what it raises is the
    argument-validation error, except for an [IndexError] in two cases that
    pass the validation of duration, count and range: no offsets at all,
    or [pre_post_rotation] with a first offset [0] and no rabi rotation to
    overwrite.  In both of these cases it does raise the [IndexError]. *)
Theorem constructor_failures
    (d : Q) (o r a z : option (list Q)) (ppr : bool) (nm : option string) :
  let offs := default_offsets o in
  let rabi := default_rabi_rotations (List.length offs) r in
  let unguarded :=
    offs = [] \/ (ppr = true /\ head_missing offs = false /\ rabi = []) in
  (forall e, new_sequence d o r a z ppr nm = Raise e ->
     (exists description arguments extras,
        e = ArgumentsValueError description arguments extras)
     \/ (e = IndexError /\ unguarded))
  /\
  (0 < d ->
   (Z.of_nat (List.length offs) <= UPPER_BOUND_OFFSETS)%Z ->
   Forall (fun x => 0 <= x <= d) offs ->
   unguarded ->
   new_sequence d o r a z ppr nm = Raise IndexError).
Proof.
  intros offs rabi unguarded. subst unguarded. split.
  - intros e H. unfold new_sequence in H. fold offs rabi in H.
    destruct (Qle_bool d 0); [inversion H; eauto|].
    destruct (UPPER_BOUND_OFFSETS <? _)%Z; [inversion H; eauto|].
    destruct (existsb _ offs || existsb _ offs); [inversion H; eauto|].
    unfold normalize_start, normalize_end, head_missing in *.
    destruct offs as [|first rest]; [inversion H; auto|].
    cbn [getitem_first bind hd] in H.
    destruct (negb (Qeq_bool first 0)) eqn:Eh.
    + cbn [bind getitem_last] in H.
      destruct (negb (Qeq_bool _ d)); cbn [bind] in H.
      * split_ifs_in H; inversion H; eauto.
      * destruct ppr; cbn [setitem_last bind] in H;
          split_ifs_in H; inversion H; eauto.
    + destruct ppr.
      * destruct rabi as [|r0 rrest]; [inversion H; right; auto|].
        cbn [setitem_first bind getitem_last] in H.
        destruct (negb (Qeq_bool _ d)); cbn [setitem_last bind] in H;
          split_ifs_in H; inversion H; eauto.
      * cbn [bind getitem_last] in H.
        destruct (negb (Qeq_bool _ d)); cbn [bind] in H;
          split_ifs_in H; inversion H; eauto.
  - intros Hd Hn Hr Hu. unfold new_sequence. fold offs rabi.
    apply Qle_bool_false in Hd. rewrite Hd.
    apply Z.ltb_ge in Hn. rewrite Hn.
    rewrite (Forall_existsb_false (fun x => Qlt_bool x 0)),
            (Forall_existsb_false (fun x => Qlt_bool d x)).
    2,3: eapply Forall_impl; [|exact Hr]; intros q [Hq0 Hqd];
         apply Qlt_bool_false; assumption.
    cbn [orb]. destruct Hu as [-> | (-> & Hh & ->)]; [reflexivity|].
    unfold head_missing in Hh. unfold normalize_start.
    destruct offs as [|first rest]; [reflexivity|].
    cbn [getitem_first bind hd] in *. rewrite Hh. reflexivity.
Qed.

Lemma constructor_failures_witness :
  new_sequence 1 (Some [0; 1]) (Some []) None None true None = Raise IndexError /\
  new_sequence 1 (Some []) None None None false None = Raise IndexError.
Proof.
  split.
  - apply (constructor_failures 1 (Some [0; 1]) (Some []) None None true None).
    + reflexivity.
    + vm_compute. discriminate.
    + repeat constructor; vm_compute; discriminate.
    + right. repeat split; reflexivity.
  - apply (constructor_failures 1 (Some []) None None None false None).
    + reflexivity.
    + vm_compute. discriminate.
    + constructor.
    + left. reflexivity.
Defined.

(** X3.  Every constructed sequence keeps the invariants of the data
    model: its duration is the positive one supplied, all its offsets lie
    in [[0, duration]], its four arrays have the same length, which is
    [number_of_offsets], and that length is at least 2 and exceeds the
    number of supplied offsets by at most 2. *)
Theorem constructed_sequence_invariants
    (d : Q) (o r a z : option (list Q)) (ppr : bool) (nm : option string)
    (S : DynamicDecouplingSequence) :
  new_sequence d o r a z ppr nm = Return S ->
  duration S = d /\ 0 < duration S /\
  Forall (fun x => 0 <= x <= duration S) (offsets S) /\
  number_of_offsets S = List.length (offsets S) /\
  List.length (rabi_rotations S) = number_of_offsets S /\
  List.length (azimuthal_angles S) = number_of_offsets S /\
  List.length (detuning_rotations S) = number_of_offsets S /\
  (2 <= number_of_offsets S)%nat /\
  (List.length (default_offsets o) <= number_of_offsets S
   <= List.length (default_offsets o) + 2)%nat.
Proof.
  intro H.
  destruct (constructed_offsets_in_range _ _ _ _ _ _ _ _ H) as (Hd & Hrange).
  destruct (constructed_first_zero _ _ _ _ _ _ _ _ H) as (x & rest & Ex & Hx).
  destruct (constructed_last_duration _ _ _ _ _ _ _ _ H) as (body & y & Ey & Hy).
  destruct (new_sequence_lengths _ _ _ _ _ _ _ _ H) as (_ & _ & _ & Lo).
  pose proof (new_sequence_shape _ _ _ _ _ _ _ _ H) as Sh.
  unfold supplied in Sh.
  destruct Sh as (_ & Ed & _ & _ & En & _ & _ & _ & _ & _ & Lr & La & Lz).
  rewrite Ed, En. repeat split; try assumption.
  - rewrite Ex in Ey. destruct body as [|b body].
    + inversion Ey; subst. exfalso. rewrite Hx in Hy. rewrite <- Hy in Hd.
      exact (Qlt_irrefl _ Hd).
    + rewrite Ex, Ey, length_app. simpl. lia.
  - rewrite Lo. lia.
  - rewrite Lo. destruct (head_missing _), (tail_missing _ _); lia.
Qed.

Lemma constructed_sequence_invariants_witness :
  duration quarter_example = 2 /\ 0 < duration quarter_example /\
  Forall (fun x => 0 <= x <= duration quarter_example) (offsets quarter_example) /\
  number_of_offsets quarter_example = List.length (offsets quarter_example) /\
  List.length (rabi_rotations quarter_example) = number_of_offsets quarter_example /\
  List.length (azimuthal_angles quarter_example) = number_of_offsets quarter_example /\
  List.length (detuning_rotations quarter_example) = number_of_offsets quarter_example /\
  (2 <= number_of_offsets quarter_example)%nat /\
  (1 <= number_of_offsets quarter_example <= 1 + 2)%nat.
Proof.
  apply (constructed_sequence_invariants
           2 (Some [1 # 2]) (Some [5]) (Some [6]) (Some [7]) true None quarter_example).
  vm_compute. reflexivity.
Defined.

(** X4.  Without [pre_post_rotation], arrays that already begin at offset
    [0] and end at [duration] are taken over as they are: the constructor
    adds nothing and overwrites nothing. *)
Theorem normalized_arrays_are_kept
    (d : Q) (offs rabi azi det : list Q) (nm : option string) :
  0 < d ->
  (Z.of_nat (List.length offs) <= UPPER_BOUND_OFFSETS)%Z ->
  Forall (fun x => 0 <= x <= d) offs ->
  offs <> [] -> hd 0 offs == 0 -> last offs 0 == d ->
  List.length rabi = List.length offs ->
  List.length azi = List.length offs ->
  List.length det = List.length offs ->
  new_sequence d (Some offs) (Some rabi) (Some azi) (Some det) false nm
  = Return (mkSequence d offs rabi azi det false (List.length offs) nm).
Proof.
  intros Hd Hn Hr Hne Hh Hl L1 L2 L3. unfold new_sequence.
  cbn [default_offsets default_rabi_rotations default_zeros].
  apply Qle_bool_false in Hd. rewrite Hd.
  apply Z.ltb_ge in Hn. rewrite Hn.
  rewrite (Forall_existsb_false (fun x => Qlt_bool x 0)),
          (Forall_existsb_false (fun x => Qlt_bool d x)).
  2,3: eapply Forall_impl; [|exact Hr]; intros q [Hq0 Hqd];
       apply Qlt_bool_false; assumption.
  cbn [orb].
  destruct offs as [|first rest]; [congruence|]. cbn [hd] in Hh.
  rewrite normalize_start_fixed by (assumption || discriminate). cbn [bind].
  destruct (snoc_cases (first :: rest)) as [E | (body & y & E)]; [discriminate|].
  rewrite E in *. rewrite last_last in Hl.
  rewrite normalize_end_fixed by (assumption || discriminate). cbn [bind].
  rewrite L1, L2, L3, Nat.eqb_refl. reflexivity.
Qed.

Lemma normalized_arrays_are_kept_witness :
  new_sequence 1 (Some [0; 1 # 2; 1]) (Some [7; 8; 9]) (Some [1; 2; 3]) (Some [4; 5; 6])
               false None
  = Return (mkSequence 1 [0; 1 # 2; 1] [7; 8; 9] [1; 2; 3] [4; 5; 6] false 3%nat None).
Proof.
  apply (normalized_arrays_are_kept 1 [0; 1 # 2; 1] [7; 8; 9] [1; 2; 3] [4; 5; 6] None);
    try reflexivity; try discriminate.
  repeat constructor; vm_compute; discriminate.
Defined.

Lemma default_rabi_is_pi (n : nat) : default_rabi_rotations n None = repeat np_pi n.
Proof.
  unfold default_rabi_rotations, np_ones. induction n as [|n IH]; [reflexivity|].
  simpl. now rewrite IH.
Qed.

(** X5.  With the three rotation arrays omitted, every supplied offset
    gets a rabi rotation of [np.pi] and no azimuthal or detuning rotation;
    a boundary offset the constructor adds gets rabi [np.pi / 2] under
    [pre_post_rotation] and [0] otherwise, and a supplied boundary offset
    keeps [np.pi] unless [pre_post_rotation] overwrites it. *)
Theorem omitted_rotations_default
    (d : Q) (offs : list Q) (ppr : bool) (nm : option string)
    (S : DynamicDecouplingSequence) :
  new_sequence d (Some offs) None None None ppr nm = Return S ->
  azimuthal_angles S = repeat 0 (number_of_offsets S) /\
  detuning_rotations S = repeat 0 (number_of_offsets S) /\
  rabi_rotations S
  = rabi_after_end d ppr offs (rabi_after_start ppr offs (repeat np_pi (List.length offs))) /\
  forall i, (0 < i)%nat -> (i + 1 < number_of_offsets S)%nat ->
            nth_error (rabi_rotations S) i = Some np_pi.
Proof.
  intro H.
  pose proof (new_sequence_shape _ _ _ _ _ _ _ _ H) as Sh.
  unfold supplied in Sh. cbn [default_offsets default_zeros] in Sh.
  rewrite default_rabi_is_pi in Sh.
  destruct Sh as (_ & _ & _ & _ & En & Ho & Ha & Hz & Hr & _ & Lr & La & Lz).
  rewrite En.
  assert (Hzeros : forall (hn tn : bool) (x y : Q),
            (if hn then [0] else []) ++ np_zeros (List.length offs) ++ (if tn then [0] else [])
            = repeat 0 (List.length ((if hn then [x] else []) ++ offs
                                     ++ (if tn then [y] else [])))).
  { intros hn tn x y. rewrite !length_app. unfold np_zeros.
    destruct hn, tn; cbn [List.length app Nat.add repeat];
      rewrite ?app_nil_r, ?Nat.add_0_r, ?Nat.add_1_r; cbn [repeat];
      rewrite <- ?repeat_cons; reflexivity. }
  split; [rewrite Ha, Ho; apply Hzeros|].
  split; [rewrite Hz, Ho; apply Hzeros|].
  split; [exact Hr|].
  intros i Hi Hlt.
  rewrite Hr in *. rewrite nth_error_rabi_after_end by lia.
  rewrite nth_error_rabi_after_start by assumption.
  apply nth_error_repeat. rewrite Ho, !length_app in Hlt.
  destruct (head_missing offs), (tail_missing d offs); simpl in Hlt; lia.
Qed.

Lemma omitted_rotations_default_witness :
  azimuthal_angles two_pulse_example = repeat 0 (number_of_offsets two_pulse_example) /\
  detuning_rotations two_pulse_example = repeat 0 (number_of_offsets two_pulse_example) /\
  rabi_rotations two_pulse_example = [0; np_pi; np_pi; 0] /\
  forall i, (0 < i)%nat -> (i + 1 < number_of_offsets two_pulse_example)%nat ->
            nth_error (rabi_rotations two_pulse_example) i = Some np_pi.
Proof.
  apply (omitted_rotations_default 1 [1 # 4; 3 # 4] false None two_pulse_example).
  vm_compute. reflexivity.
Defined.

(* ================================================================= *)
(** * The plotting arrays *)

Lemma plot_stream_triplets (values : list Q) :
  plot_stream (List.length values) values
  = List.concat (map (fun v => [v * 0; v * 1; v * 0]) values).
Proof.
  unfold plot_stream. induction values as [|v values IH]; [reflexivity|].
  cbn [List.length repeat combine map List.concat fst snd]. now rewrite IH.
Qed.

Lemma triplets_length {A : Type} (f : A -> list Q) (l : list A) :
  (forall x, List.length (f x) = 3%nat) ->
  List.length (List.concat (map f l)) = (3 * List.length l)%nat.
Proof.
  intro Hf. induction l as [|x l IH]; [reflexivity|].
  cbn [map List.concat]. rewrite length_app, Hf, IH. simpl. lia.
Qed.

Lemma triplet_middles_stream (values : list Q) :
  Forall2 Qeq
    (triplet_middles (List.concat (map (fun v => [v * 0; v * 1; v * 0]) values)))
    values.
Proof.
  induction values as [|v values IH]; [constructor|].
  cbn [map List.concat app triplet_middles]. constructor; [ring | exact IH].
Qed.

Lemma triplet_middles_times (times : list Q) :
  triplet_middles (List.concat (map (fun t => repeat t 3) times)) = times.
Proof.
  induction times as [|t times IH]; [reflexivity|].
  simpl in *. f_equal. exact IH.
Qed.

Lemma triplet_sides_zero (values : list Q) (k : nat) (x : Q) :
  nth_error (List.concat (map (fun v => [v * 0; v * 1; v * 0]) values)) k = Some x ->
  k mod 3 <> 1%nat -> x == 0.
Proof.
  revert k. induction values as [|v values IH]; intros k Hk Hmod.
  - destruct k; discriminate.
  - cbn [map List.concat app] in Hk.
    destruct k as [|[|[|k]]]; cbn [nth_error] in Hk.
    + inversion Hk. ring.
    + exfalso. apply Hmod. reflexivity.
    + inversion Hk. ring.
    + apply (IH k Hk). intro E. apply Hmod.
      replace (S (S (S k))) with (k + 1 * 3)%nat by lia.
      rewrite Nat.Div0.mod_add. exact E.
Qed.

(** X6.  For every constructed sequence, [get_plot_formatted_arrays] in
    the [matplotlib] format returns four arrays of three entries per
    offset; the middle entries of the triplets give back the offsets and
    the three rotation arrays, and every other entry of a rotation array is
    zero.  Any other format is refused with the argument-validation
    error. *)
Theorem plot_arrays_are_lossless
    (d : Q) (o r a z : option (list Q)) (ppr : bool) (nm : option string)
    (S : DynamicDecouplingSequence) :
  new_sequence d o r a z ppr nm = Return S ->
  (forall plot_format, plot_format <> MATPLOTLIB ->
     is_ArgumentsValueError (get_plot_formatted_arrays S plot_format) = true) /\
  exists data,
    get_plot_formatted_arrays S MATPLOTLIB = Return data /\
    List.length (plot_times data) = (3 * number_of_offsets S)%nat /\
    List.length (plot_rabi_rotations data) = (3 * number_of_offsets S)%nat /\
    List.length (plot_azimuthal_angles data) = (3 * number_of_offsets S)%nat /\
    List.length (plot_detuning_rotations data) = (3 * number_of_offsets S)%nat /\
    triplet_middles (plot_times data) = offsets S /\
    Forall2 Qeq (triplet_middles (plot_rabi_rotations data)) (rabi_rotations S) /\
    Forall2 Qeq (triplet_middles (plot_azimuthal_angles data)) (azimuthal_angles S) /\
    Forall2 Qeq (triplet_middles (plot_detuning_rotations data)) (detuning_rotations S) /\
    forall k x, k mod 3 <> 1%nat ->
      nth_error (plot_rabi_rotations data) k = Some x \/
      nth_error (plot_azimuthal_angles data) k = Some x \/
      nth_error (plot_detuning_rotations data) k = Some x ->
      x == 0.
Proof.
  intro H.
  pose proof (new_sequence_shape _ _ _ _ _ _ _ _ H) as Sh.
  unfold supplied in Sh.
  destruct Sh as (_ & _ & _ & _ & En & _ & _ & _ & _ & _ & Lr & La & Lz).
  split.
  - intros plot_format Hf. unfold get_plot_formatted_arrays.
    apply String.eqb_neq in Hf. rewrite Hf. reflexivity.
  - assert (Er : plot_stream (number_of_offsets S) (rabi_rotations S)
                 = List.concat (map (fun v => [v * 0; v * 1; v * 0]) (rabi_rotations S)))
      by (rewrite En, <- Lr; apply plot_stream_triplets).
    assert (Ea : plot_stream (number_of_offsets S) (azimuthal_angles S)
                 = List.concat (map (fun v => [v * 0; v * 1; v * 0]) (azimuthal_angles S)))
      by (rewrite En, <- La; apply plot_stream_triplets).
    assert (Ez : plot_stream (number_of_offsets S) (detuning_rotations S)
                 = List.concat (map (fun v => [v * 0; v * 1; v * 0]) (detuning_rotations S)))
      by (rewrite En, <- Lz; apply plot_stream_triplets).
    eexists. split; [reflexivity|].
    cbn [plot_times plot_rabi_rotations plot_azimuthal_angles plot_detuning_rotations].
    rewrite Er, Ea, Ez, En.
    repeat split;
      try (rewrite triplets_length by reflexivity; lia);
      try apply triplet_middles_times; try apply triplet_middles_stream.
    intros k x Hmod [Hk | [Hk | Hk]]; eapply triplet_sides_zero; eassumption.
Qed.

Lemma plot_arrays_are_lossless_witness :
  (forall plot_format, plot_format <> MATPLOTLIB ->
     is_ArgumentsValueError (get_plot_formatted_arrays quarter_example plot_format) = true) /\
  exists data,
    get_plot_formatted_arrays quarter_example MATPLOTLIB = Return data /\
    List.length (plot_times data) = (3 * number_of_offsets quarter_example)%nat /\
    List.length (plot_rabi_rotations data) = (3 * number_of_offsets quarter_example)%nat /\
    List.length (plot_azimuthal_angles data) = (3 * number_of_offsets quarter_example)%nat /\
    List.length (plot_detuning_rotations data)
    = (3 * number_of_offsets quarter_example)%nat /\
    triplet_middles (plot_times data) = offsets quarter_example /\
    Forall2 Qeq (triplet_middles (plot_rabi_rotations data))
            (rabi_rotations quarter_example) /\
    Forall2 Qeq (triplet_middles (plot_azimuthal_angles data))
            (azimuthal_angles quarter_example) /\
    Forall2 Qeq (triplet_middles (plot_detuning_rotations data))
            (detuning_rotations quarter_example) /\
    forall k x, k mod 3 <> 1%nat ->
      nth_error (plot_rabi_rotations data) k = Some x \/
      nth_error (plot_azimuthal_angles data) k = Some x \/
      nth_error (plot_detuning_rotations data) k = Some x ->
      x == 0.
Proof.
  apply (plot_arrays_are_lossless
           2 (Some [1 # 2]) (Some [5]) (Some [6]) (Some [7]) true None quarter_example).
  reflexivity.
Defined.

(* ================================================================= *)
(** * Further properties of the generators and the dispatcher *)

Ltac reduce_dispatch :=
  cbv [new_predefined_dds RAMSEY SPIN_ECHO CARR_PURCELL CARR_PURCELL_MEIBOOM_GILL
       UHRIG_SINGLE_AXIS PERIODIC_SINGLE_AXIS WALSH_SINGLE_AXIS QUADRATIC
       X_CONCATENATED XY_CONCATENATED String.eqb Ascii.eqb Bool.eqb].

(** X7.  Whatever the scheme and the other keyword arguments, a duration
    that is not positive makes the dispatcher raise the argument-validation
    error about the duration. *)
Theorem every_scheme_rejects_nonpositive_duration
    (np_sin : Q -> Q) (scheme : string) (kw : kwargs) (d : Q) :
  In scheme scheme_names ->
  kw_duration kw = Some d -> d <= 0 ->
  new_predefined_dds np_sin scheme kw
  = Raise (ArgumentsValueError "Sequence duration must be above zero:"%string
             [("duration"%string, PyFloat d)] []).
Proof.
  intros Hin Hkw Hd. apply Qle_bool_iff in Hd.
  unfold scheme_names in Hin. simpl in Hin.
  repeat (destruct Hin as [<- | Hin];
          [reduce_dispatch;
           cbv [new_ramsey_sequence new_spin_echo_sequence new_carr_purcell_sequence
                new_carr_purcell_meiboom_gill_sequence new_uhrig_single_axis_sequence
                new_periodic_single_axis_sequence new_walsh_single_axis_sequence
                new_quadratic_sequence new_x_concatenated_sequence
                new_xy_concatenated_sequence];
           rewrite Hkw; cbn [or_default]; rewrite Hd; reflexivity|]).
  contradiction.
Qed.

Lemma every_scheme_rejects_nonpositive_duration_witness :
  new_predefined_dds square_sin QUADRATIC (duration_kwargs (-1) None)
  = Raise (ArgumentsValueError "Sequence duration must be above zero:"%string
             [("duration"%string, PyFloat (-1))] []).
Proof.
  apply (every_scheme_rejects_nonpositive_duration
           square_sin QUADRATIC (duration_kwargs (-1) None) (-1)).
  - unfold scheme_names. simpl. tauto.
  - reflexivity.
  - vm_compute. discriminate.
Defined.

(** X8.  With a positive duration, a count that is not positive makes the
    generator it belongs to raise the argument-validation error: the
    number of offsets for Carr-Purcell, CPMG, Uhrig and periodic, either
    number of the quadratic sequence, the concatenation order, and a Paley
    order outside [[1, 2000]] for Walsh. *)
Theorem generators_reject_bad_counts (np_sin : Q -> Q) (kw : kwargs) (n : Z) :
  0 < or_default (kw_duration kw) 1 ->
  (kw_number_of_offsets kw = Some n -> (n <= 0)%Z ->
     is_ArgumentsValueError (new_carr_purcell_sequence kw) = true /\
     is_ArgumentsValueError (new_carr_purcell_meiboom_gill_sequence kw) = true /\
     is_ArgumentsValueError (new_uhrig_single_axis_sequence np_sin kw) = true /\
     is_ArgumentsValueError (new_periodic_single_axis_sequence kw) = true) /\
  (kw_number_inner_offsets kw = Some n \/ kw_number_outer_offsets kw = Some n ->
   (n <= 0)%Z ->
     is_ArgumentsValueError (new_quadratic_sequence np_sin kw) = true) /\
  (kw_concatenation_order kw = Some n -> (n <= 0)%Z ->
     is_ArgumentsValueError (new_x_concatenated_sequence kw) = true /\
     is_ArgumentsValueError (new_xy_concatenated_sequence kw) = true) /\
  (kw_paley_order kw = Some n -> (n < 1 \/ 2000 < n)%Z ->
     is_ArgumentsValueError (new_walsh_single_axis_sequence np_sin kw) = true).
Proof.
  intro Hd. apply Qle_bool_false in Hd.
  split; [|split; [|split]].
  - intros Hkw Hn. apply Z.leb_le in Hn.
    unfold new_carr_purcell_sequence, new_carr_purcell_meiboom_gill_sequence,
      new_uhrig_single_axis_sequence, new_periodic_single_axis_sequence.
    rewrite Hd, Hkw. cbn [or_default]. rewrite Hn. repeat split; reflexivity.
  - intros Hkw Hn. apply Z.leb_le in Hn. unfold new_quadratic_sequence. rewrite Hd.
    destruct Hkw as [Hkw | Hkw]; rewrite Hkw; cbn [or_default].
    + rewrite Hn. reflexivity.
    + rewrite Hn. destruct (or_default (kw_number_inner_offsets kw) 1 <=? 0)%Z; reflexivity.
  - intros Hkw Hn. apply Z.leb_le in Hn.
    unfold new_x_concatenated_sequence, new_xy_concatenated_sequence.
    rewrite Hd, Hkw. cbn [or_default]. rewrite Hn. split; reflexivity.
  - intros Hkw Hn. unfold new_walsh_single_axis_sequence.
    rewrite Hd, Hkw. cbn [or_default].
    assert (E : ((n <? 1) || (2000 <? n))%Z = true).
    { apply orb_true_iff. destruct Hn; [left | right]; now apply Z.ltb_lt. }
    rewrite E. reflexivity.
Qed.

Lemma generators_reject_bad_counts_witness :
  is_ArgumentsValueError
    (new_x_concatenated_sequence
       (mkKwargs None None (Some 0%Z) (Some 0%Z) None (Some 0%Z) None None [])) = true /\
  is_ArgumentsValueError
    (new_walsh_single_axis_sequence square_sin
       (mkKwargs None None (Some 0%Z) (Some 0%Z) None (Some 0%Z) None None [])) = true /\
  is_ArgumentsValueError
    (new_quadratic_sequence square_sin
       (mkKwargs None None (Some 0%Z) (Some 0%Z) None (Some 0%Z) None None [])) = true.
Proof.
  destruct (generators_reject_bad_counts square_sin
              (mkKwargs None None (Some 0%Z) (Some 0%Z) None (Some 0%Z) None None []) 0%Z)
    as (_ & Hq & Hx & Hw); [reflexivity|].
  split; [apply Hx; [reflexivity | lia]|].
  split; [apply Hw; [reflexivity | lia]|].
  apply Hq; [left; reflexivity | lia].
Defined.

(** ** Sequences built from interior offsets *)

Lemma new_sequence_interior (d : Q) (offs rabi azi det : list Q) (ppr : bool)
    (nm : option string) :
  0 < d -> offs <> [] ->
  (Z.of_nat (List.length offs) <= UPPER_BOUND_OFFSETS)%Z ->
  Forall (fun x => 0 < x /\ x < d) offs ->
  List.length rabi = List.length offs ->
  List.length azi = List.length offs ->
  List.length det = List.length offs ->
  new_sequence d (Some offs) (Some rabi) (Some azi) (Some det) ppr nm
  = Return (mkSequence d (0 :: offs ++ [d])
                       (boundary_rabi ppr :: rabi ++ [boundary_rabi ppr])
                       (0 :: azi ++ [0]) (0 :: det ++ [0])
                       ppr (List.length (0 :: offs ++ [d])) nm).
Proof.
  intros Hd Hne Hn Hin L1 L2 L3. unfold new_sequence.
  cbn [default_offsets default_rabi_rotations default_zeros].
  assert (Hdb := proj2 (Qle_bool_false d 0) Hd). rewrite Hdb.
  apply Z.ltb_ge in Hn. rewrite Hn.
  rewrite (Forall_existsb_false (fun x => Qlt_bool x 0)),
          (Forall_existsb_false (fun x => Qlt_bool d x)).
  2,3: eapply Forall_impl; [|exact Hin]; intros q [Hq0 Hqd];
       apply Qlt_bool_false, Qlt_le_weak; assumption.
  cbn [orb].
  destruct offs as [|first rest]; [congruence|].
  inversion Hin as [|? ? [Hf0 Hfd] Hin']; subst.
  unfold normalize_start. cbn [getitem_first bind].
  assert (E1 : Qeq_bool first 0 = false).
  { apply Qeq_bool_false. intro E. rewrite E in Hf0. exact (Qlt_irrefl _ Hf0). }
  rewrite E1. cbn [negb bind].
  destruct (snoc_cases (first :: rest)) as [E | (body & y & E)]; [discriminate|].
  rewrite E in *.
  assert (Hy : 0 < y /\ y < d).
  { rewrite Forall_forall in Hin. apply Hin. apply in_or_app. right. now left. }
  unfold normalize_end.
  change (0 :: body ++ [y]) with ((0 :: body) ++ [y]).
  rewrite getitem_last_snoc. cbn [bind].
  assert (E2 : Qeq_bool y d = false).
  { apply Qeq_bool_false. intro E'. destruct Hy as [_ Hy]. rewrite E' in Hy.
    exact (Qlt_irrefl _ Hy). }
  rewrite E2. cbn [negb bind].
  assert (La : forall l : list Q, List.length l = List.length (body ++ [y]) ->
            Nat.eqb (List.length ((boundary_rabi ppr :: l) ++ [boundary_rabi ppr]))
                    (List.length (((0 :: body) ++ [y]) ++ [d])) = true /\
            Nat.eqb (List.length ((0 :: l) ++ [0]))
                    (List.length (((0 :: body) ++ [y]) ++ [d])) = true).
  { intros l Hl. split; apply Nat.eqb_eq; rewrite !length_app in *; simpl in *; lia. }
  unfold boundary_rabi in La.
  rewrite (proj1 (La rabi L1)), (proj2 (La azi L2)), (proj2 (La det L3)).
  reflexivity.
Qed.

Lemma leftover_none (own : list keyword) (dur : option Q) (ppr : option bool)
    (nm : option string) :
  leftover_keywords own (mkKwargs dur None None None None None ppr nm []) = false.
Proof. unfold leftover_keywords. simpl. now rewrite !andb_false_r. Qed.

(** X9.  For every positive duration the Ramsey generator returns the two
    offsets [0] and [duration] with no azimuthal or detuning rotation, and
    with rabi rotations [0], or [np.pi / 2] when [pre_post_rotation] is
    asked for. *)
Theorem ramsey_sequence
    (dur : option Q) (ppr : option bool) (nm : option string) :
  let d := or_default dur 1 in
  let b := boundary_rabi (or_default ppr false) in
  0 < d ->
  new_ramsey_sequence (mkKwargs dur None None None None None ppr nm [])
  = Return (mkSequence d [0; d] [b; b] [0; 0] [0; 0] (or_default ppr false) 2%nat nm).
Proof.
  intros d b Hd. unfold new_ramsey_sequence. cbn [kw_duration]. fold d.
  assert (Hdb := proj2 (Qle_bool_false d 0) Hd). rewrite Hdb.
  unfold call_constructor. rewrite leftover_none. cbn [kw_pre_post_rotation kw_name].
  unfold new_sequence. rewrite Hdb.
  cbn [default_offsets List.length Z.of_nat default_rabi_rotations default_zeros].
  change (UPPER_BOUND_OFFSETS <? _)%Z with false. cbn [existsb].
  assert (E1 : Qlt_bool d 0 = false) by (apply Qlt_bool_false, Qlt_le_weak, Hd).
  assert (E2 : Qlt_bool d d = false) by (apply Qlt_bool_false, Qle_refl).
  rewrite E1, E2.
  change (Qlt_bool 0 0) with false. cbn [orb].
  unfold normalize_start. cbn [getitem_first bind].
  change (Qeq_bool 0 0) with true. cbn [negb].
  unfold normalize_end, b, boundary_rabi.
  destruct (or_default ppr false); cbn [setitem_first np_zeros repeat List.length bind
                                        getitem_last last];
    rewrite (proj2 (Qeq_bool_iff d d) (Qeq_refl d)); reflexivity.
Qed.

Lemma ramsey_sequence_witness :
  new_ramsey_sequence (mkKwargs (Some 2) None None None None None (Some true) None [])
  = Return (mkSequence 2 [0; 2] [np_pi / 2; np_pi / 2] [0; 0] [0; 0] true 2%nat None).
Proof.
  apply (ramsey_sequence (Some 2) (Some true) None). reflexivity.
Defined.

(** X10.  For every positive duration [d] the Spin-Echo generator returns
    the offsets [[0; d/2; d]] with a rabi rotation of [np.pi] at the
    midpoint; the two boundary entries carry rabi [0], or [np.pi / 2] when
    [pre_post_rotation] is asked for. *)
Theorem spin_echo_sequence
    (dur : option Q) (ppr : option bool) (nm : option string) :
  let d := or_default dur 1 in
  let b := boundary_rabi (or_default ppr false) in
  0 < d ->
  d * (1 # 2) == d / 2 /\
  new_spin_echo_sequence (mkKwargs dur None None None None None ppr nm [])
  = Return (mkSequence d [0; d * (1 # 2); d] [b; np_pi; b] [0; 0; 0] [0; 0; 0]
                       (or_default ppr false) 3%nat nm).
Proof.
  intros d b Hd. split; [field|].
  unfold new_spin_echo_sequence. cbn [kw_duration]. fold d.
  assert (Hdb := proj2 (Qle_bool_false d 0) Hd). rewrite Hdb.
  unfold call_constructor. rewrite leftover_none. cbn [kw_pre_post_rotation kw_name map].
  apply (new_sequence_interior d [d * (1 # 2)] [np_pi] [0] [0]);
    try reflexivity; try assumption; try discriminate.
  repeat constructor; lra.
Qed.

Lemma spin_echo_sequence_witness :
  2 * (1 # 2) == 2 / 2 /\
  new_spin_echo_sequence (mkKwargs (Some 2) None None None None None None None [])
  = Return (mkSequence 2 [0; 2 * (1 # 2); 2] [0; np_pi; 0] [0; 0; 0] [0; 0; 0]
                       false 3%nat None).
Proof.
  apply (spin_echo_sequence (Some 2) None None). reflexivity.
Defined.

(** ** Evenly spaced offsets *)

Lemma py_range_length (a b : Z) : List.length (py_range a b) = Z.to_nat (b - a).
Proof. unfold py_range. now rewrite length_map, length_seq. Qed.

Lemma py_range_In (a b k : Z) : In k (py_range a b) <-> (a <= k < b)%Z.
Proof.
  unfold py_range. rewrite in_map_iff. split.
  - intros (i & <- & Hi). apply in_seq in Hi. lia.
  - intro H. exists (Z.to_nat (k - a)). split; [lia|]. apply in_seq. lia.
Qed.

Lemma seq_increasing_map (f : nat -> Q) (start len : nat) :
  (forall i j, (i < j)%nat -> f i < f j) ->
  StronglySorted Qlt (map f (seq start len)).
Proof.
  intro Hf. revert start. induction len as [|len IH]; intro start; [constructor|].
  cbn [seq map]. constructor; [apply IH|].
  apply Forall_map, Forall_forall. intros j Hj. apply in_seq in Hj. apply Hf. lia.
Qed.

Lemma py_range_increasing_map (f : Z -> Q) (a b : Z) :
  (forall i j, (i < j)%Z -> f i < f j) ->
  StronglySorted Qlt (map f (py_range a b)).
Proof.
  intro Hf. unfold py_range. rewrite map_map.
  apply seq_increasing_map. intros i j Hij. apply Hf. lia.
Qed.

Lemma nth_map_within {A B : Type} (f : A -> B) (l : list A) (i : nat) (a : A) (b : B) :
  (i < List.length l)%nat -> nth i (map f l) b = f (nth i l a).
Proof.
  intro H. rewrite (nth_indep _ b (f a)) by (rewrite length_map; lia). apply map_nth.
Qed.

Lemma py_range_nth (a b : Z) (i : nat) :
  (Z.of_nat i < b - a)%Z -> nth i (py_range a b) 0%Z = (a + Z.of_nat i)%Z.
Proof.
  intro H. unfold py_range.
  rewrite (nth_map_within _ _ _ 0%nat) by (rewrite length_seq; lia).
  rewrite seq_nth by lia. reflexivity.
Qed.

Lemma inject_Z_pos (n : Z) : (0 < n)%Z -> 0 < inject_Z n.
Proof. intro H. change 0 with (inject_Z 0). now rewrite <- Zlt_Qlt. Qed.

(** X11.  [_carr_purcell_meiboom_gill_offsets] returns, for [n >= 1] and a
    positive duration [d], the [n] offsets [(k + 1/2) / n * d] for
    [k = 0 .. n-1]: strictly increasing and strictly between [0] and [d]. *)
Theorem carr_purcell_meiboom_gill_offsets_spaced (d : Q) (n : Z) :
  0 < d -> (1 <= n)%Z ->
  let offs := _carr_purcell_meiboom_gill_offsets d n in
  List.length offs = Z.to_nat n /\
  (forall k, (0 <= k < n)%Z ->
     nth (Z.to_nat k) offs 0 == (inject_Z k + (1 # 2)) / inject_Z n * d) /\
  StronglySorted Qlt offs /\
  Forall (fun x => 0 < x /\ x < d) offs.
Proof.
  intros Hd Hn offs.
  assert (Hnq : 0 < inject_Z n) by (apply inject_Z_pos; lia).
  assert (Hform : offs = map (fun k => (1 / inject_Z n * inject_Z k
                                        + 1 / inject_Z n * (1 # 2)) * d)
                             (py_range 0 n)).
  { unfold offs, _carr_purcell_meiboom_gill_offsets. now rewrite !map_map. }
  assert (Hval : forall k, (1 / inject_Z n * inject_Z k + 1 / inject_Z n * (1 # 2)) * d
                           == (inject_Z k + (1 # 2)) / inject_Z n * d).
  { intro k. field. intro E. rewrite E in Hnq. exact (Qlt_irrefl _ Hnq). }
  split; [rewrite Hform, length_map, py_range_length; f_equal; lia|].
  split.
  { intros k Hk. rewrite Hform.
    rewrite (nth_map_within _ _ _ 0%Z) by (rewrite py_range_length; lia).
    rewrite py_range_nth by lia. rewrite Hval.
    replace (0 + Z.of_nat (Z.to_nat k))%Z with k by lia. reflexivity. }
  split.
  { rewrite Hform. apply py_range_increasing_map. intros i j Hij.
    rewrite !Hval. apply Qmult_lt_compat_r; [assumption|].
    apply Qmult_lt_compat_r; [now apply Qinv_lt_0_compat|].
    rewrite Zlt_Qlt in Hij. lra. }
  rewrite Hform. apply Forall_map, Forall_forall. intros k Hk.
  apply py_range_In in Hk. rewrite Hval.
  assert (H0 : 0 <= inject_Z k) by (change 0 with (inject_Z 0); rewrite <- Zle_Qle; lia).
  assert (H1 : inject_Z k + 1 <= inject_Z n).
  { change 1 with (inject_Z 1). rewrite <- inject_Z_plus, <- Zle_Qle. lia. }
  assert (Hq : 0 < (inject_Z k + (1 # 2)) / inject_Z n
               /\ (inject_Z k + (1 # 2)) / inject_Z n < 1).
  { split.
    - apply Qlt_shift_div_l; [assumption | lra].
    - apply Qlt_shift_div_r; [assumption | lra]. }
  destruct Hq as [Hq0 Hq1]. split.
  - apply Qmult_lt_0_compat; assumption.
  - setoid_replace d with (1 * d) at 2 by ring.
    apply Qmult_lt_compat_r; assumption.
Qed.

Lemma carr_purcell_meiboom_gill_offsets_spaced_witness :
  List.length (_carr_purcell_meiboom_gill_offsets 1 2) = 2%nat /\
  (forall k, (0 <= k < 2)%Z ->
     nth (Z.to_nat k) (_carr_purcell_meiboom_gill_offsets 1 2) 0
     == (inject_Z k + (1 # 2)) / inject_Z 2 * 1) /\
  StronglySorted Qlt (_carr_purcell_meiboom_gill_offsets 1 2) /\
  Forall (fun x => 0 < x /\ x < 1) (_carr_purcell_meiboom_gill_offsets 1 2).
Proof.
  apply (carr_purcell_meiboom_gill_offsets_spaced 1 2); [reflexivity | lia].
Defined.

Lemma carr_purcell_meiboom_gill_offsets_shape (d : Q) (n : Z) :
  0 < d -> (1 <= n)%Z ->
  List.length (_carr_purcell_meiboom_gill_offsets d n) = Z.to_nat n /\
  Forall (fun x => 0 < x /\ x < d) (_carr_purcell_meiboom_gill_offsets d n).
Proof.
  intros Hd Hn.
  assert (Hnq : 0 < inject_Z n) by (apply inject_Z_pos; lia).
  unfold _carr_purcell_meiboom_gill_offsets. rewrite !map_map.
  split; [rewrite length_map, py_range_length; f_equal; lia|].
  apply Forall_map, Forall_forall. intros k Hk. apply py_range_In in Hk.
  assert (Hval : (1 / inject_Z n * inject_Z k + 1 / inject_Z n * (1 # 2)) * d
                 == (inject_Z k + (1 # 2)) / inject_Z n * d).
  { field. intro E. rewrite E in Hnq. exact (Qlt_irrefl _ Hnq). }
  rewrite Hval.
  assert (H0 : 0 <= inject_Z k) by (change 0 with (inject_Z 0); rewrite <- Zle_Qle; lia).
  assert (H1 : inject_Z k + 1 <= inject_Z n).
  { change 1 with (inject_Z 1). rewrite <- inject_Z_plus, <- Zle_Qle. lia. }
  assert (Hq0 : 0 < (inject_Z k + (1 # 2)) / inject_Z n)
    by (apply Qlt_shift_div_l; [assumption | lra]).
  assert (Hq1 : (inject_Z k + (1 # 2)) / inject_Z n < 1)
    by (apply Qlt_shift_div_r; [assumption | lra]).
  split.
  - apply Qmult_lt_0_compat; assumption.
  - setoid_replace d with (1 * d) at 2 by ring.
    apply Qmult_lt_compat_r; assumption.
Qed.

Lemma map_const_zeros (c : Q) (n : nat) : map (fun _ => c) (np_zeros n) = repeat c n.
Proof. unfold np_zeros. induction n as [|n IH]; [reflexivity|]. simpl. now rewrite IH. Qed.

Lemma leftover_number_of_offsets (dur : option Q) (n : option Z) (ppr : option bool)
    (nm : option string) :
  leftover_keywords [KwNumberOfOffsets] (mkKwargs dur n None None None None ppr nm []) = false.
Proof. unfold leftover_keywords. destruct n; reflexivity. Qed.

Lemma new_sequence_too_many (d : Q) (offs rabi azi det : list Q) (ppr : bool)
    (nm : option string) :
  0 < d -> (UPPER_BOUND_OFFSETS < Z.of_nat (List.length offs))%Z ->
  is_ArgumentsValueError
    (new_sequence d (Some offs) (Some rabi) (Some azi) (Some det) ppr nm) = true.
Proof.
  intros Hd Hn. unfold new_sequence. apply Qle_bool_false in Hd. rewrite Hd.
  cbn [default_offsets]. apply Z.ltb_lt in Hn. rewrite Hn. reflexivity.
Qed.

(** X12.  For a positive duration [d] and [n >= 1] offsets, the
    Carr-Purcell and the CPMG generator return the [n] evenly spaced
    offsets between the boundaries [0] and [d], each with a rabi rotation
    of [np.pi] and, for CPMG, an azimuthal angle of [np.pi / 2]; the
    boundary entries carry no rotation but the rabi quarter turn of
    [pre_post_rotation].  This holds up to [n = 10000]; beyond, both
    generators raise the argument-validation error. *)
Theorem carr_purcell_sequences
    (dur : option Q) (n : Z) (ppr : option bool) (nm : option string) :
  let d := or_default dur 1 in
  let p := or_default ppr false in
  let b := boundary_rabi p in
  let kw := mkKwargs dur (Some n) None None None None ppr nm [] in
  let offs := _carr_purcell_meiboom_gill_offsets d n in
  let N := Z.to_nat n in
  0 < d -> (1 <= n)%Z ->
  ((n <= UPPER_BOUND_OFFSETS)%Z ->
     new_carr_purcell_sequence kw
     = Return (mkSequence d (0 :: offs ++ [d]) (b :: repeat np_pi N ++ [b])
                          (0 :: repeat 0 N ++ [0]) (0 :: repeat 0 N ++ [0])
                          p (N + 2)%nat nm) /\
     new_carr_purcell_meiboom_gill_sequence kw
     = Return (mkSequence d (0 :: offs ++ [d]) (b :: repeat np_pi N ++ [b])
                          (0 :: repeat (np_pi / 2) N ++ [0]) (0 :: repeat 0 N ++ [0])
                          p (N + 2)%nat nm))
  /\
  ((UPPER_BOUND_OFFSETS < n)%Z ->
     is_ArgumentsValueError (new_carr_purcell_sequence kw) = true /\
     is_ArgumentsValueError (new_carr_purcell_meiboom_gill_sequence kw) = true).
Proof.
  intros d p b kw offs N Hd Hn.
  destruct (carr_purcell_meiboom_gill_offsets_shape d n Hd Hn) as (Hlen & Hin).
  fold offs in Hlen, Hin.
  assert (Hdb := proj2 (Qle_bool_false d 0) Hd).
  assert (Hnb : (n <=? 0)%Z = false) by (apply Z.leb_gt; lia).
  subst kw.
  unfold new_carr_purcell_sequence, new_carr_purcell_meiboom_gill_sequence.
  cbn [kw_duration kw_number_of_offsets or_default]. fold d offs.
  rewrite Hdb, Hnb. unfold call_constructor.
  rewrite leftover_number_of_offsets. cbn [kw_pre_post_rotation kw_name]. fold p.
  rewrite !map_const_zeros. unfold np_zeros. rewrite Hlen. fold N.
  split.
  - intro Hmax.
    assert (HN : (N + 2)%nat = List.length (0 :: offs ++ [d]))
      by (cbn [List.length]; rewrite length_app, Hlen; simpl; lia).
    rewrite HN.
    split; apply new_sequence_interior; try assumption;
      rewrite ?repeat_length; try (symmetry; assumption); try lia.
    all: intro E; rewrite E in Hlen; simpl in Hlen; lia.
  - intro Hmax. split; apply new_sequence_too_many; try assumption; lia.
Qed.

Lemma carr_purcell_sequences_witness :
  new_carr_purcell_meiboom_gill_sequence
    (mkKwargs (Some 1) (Some 2%Z) None None None None None None [])
  = Return (mkSequence 1 (0 :: _carr_purcell_meiboom_gill_offsets 1 2 ++ [1])
                       [0; np_pi; np_pi; 0] [0; np_pi / 2; np_pi / 2; 0] [0; 0; 0; 0]
                       false 4%nat None).
Proof.
  destruct (carr_purcell_sequences (Some 1) 2 None None) as [H _];
    [reflexivity | lia |].
  apply H. vm_compute. discriminate.
Defined.

(** X13.  For a positive duration [d] and [1 <= n <= 10000], the periodic
    generator returns the offsets [0], [d * k / (n + 1)] for [k = 1 .. n],
    and [d]; the [n] interior offsets lie strictly between the boundaries
    and carry a rabi rotation of [np.pi], nothing else. *)
Theorem periodic_sequence
    (dur : option Q) (n : Z) (ppr : option bool) (nm : option string) :
  let d := or_default dur 1 in
  let p := or_default ppr false in
  let b := boundary_rabi p in
  let kw := mkKwargs dur (Some n) None None None None ppr nm [] in
  let N := Z.to_nat n in
  0 < d -> (1 <= n <= UPPER_BOUND_OFFSETS)%Z ->
  exists offs,
    new_periodic_single_axis_sequence kw
    = Return (mkSequence d (0 :: offs ++ [d]) (b :: repeat np_pi N ++ [b])
                         (0 :: repeat 0 N ++ [0]) (0 :: repeat 0 N ++ [0])
                         p (N + 2)%nat nm) /\
    List.length offs = N /\
    (forall k, (1 <= k <= n)%Z ->
       nth (Z.to_nat (k - 1)) offs 0 == d * inject_Z k / inject_Z (n + 1)) /\
    Forall (fun x => 0 < x /\ x < d) offs.
Proof.
  intros d p b kw N Hd Hn.
  assert (Hnq : 0 < inject_Z (n + 1)) by (apply inject_Z_pos; lia).
  set (offs := map (fun x => d * x)
                   (map (fun k => inject_Z k * (1 / inject_Z (n + 1)))
                        (py_range 1 (n + 1)))).
  assert (Hval : forall k, d * (inject_Z k * (1 / inject_Z (n + 1)))
                           == d * inject_Z k / inject_Z (n + 1)).
  { intro k. field. intro E. rewrite E in Hnq. exact (Qlt_irrefl _ Hnq). }
  assert (Hlen : List.length offs = N).
  { unfold offs. rewrite !length_map, py_range_length. unfold N. f_equal. lia. }
  assert (Hin : Forall (fun x => 0 < x /\ x < d) offs).
  { unfold offs. rewrite map_map. apply Forall_map, Forall_forall. intros k Hk.
    apply py_range_In in Hk. rewrite Hval.
    assert (H0 : 1 <= inject_Z k) by (change 1 with (inject_Z 1); rewrite <- Zle_Qle; lia).
    assert (H1 : inject_Z k + 1 <= inject_Z (n + 1)).
    { change 1 with (inject_Z 1) at 1. rewrite <- inject_Z_plus, <- Zle_Qle. lia. }
    split.
    - apply Qlt_shift_div_l; [assumption|]. nra.
    - apply Qlt_shift_div_r; [assumption|]. nra. }
  exists offs. split; [|split; [assumption | split; [|assumption]]].
  - assert (Hdb := proj2 (Qle_bool_false d 0) Hd).
    assert (Hnb : (n <=? 0)%Z = false) by (apply Z.leb_gt; lia).
    subst kw. unfold new_periodic_single_axis_sequence.
    cbn [kw_duration kw_number_of_offsets or_default]. fold d.
    rewrite Hdb, Hnb. fold offs. unfold call_constructor.
    rewrite leftover_number_of_offsets. cbn [kw_pre_post_rotation kw_name]. fold p.
    rewrite !map_const_zeros. unfold np_zeros. rewrite Hlen.
    assert (HN : (N + 2)%nat = List.length (0 :: offs ++ [d]))
      by (cbn [List.length]; rewrite length_app, Hlen; simpl; lia).
    rewrite HN.
    apply new_sequence_interior; try assumption;
      rewrite ?repeat_length; try (symmetry; assumption); try lia.
    intro E; rewrite E in Hlen; simpl in Hlen; lia.
  - intros k Hk. unfold offs. rewrite map_map.
    rewrite (nth_map_within _ _ _ 0%Z) by (rewrite py_range_length; lia).
    rewrite py_range_nth by lia. rewrite Hval.
    replace (1 + Z.of_nat (Z.to_nat (k - 1)))%Z with k by lia. reflexivity.
Qed.

Lemma periodic_sequence_witness :
  exists offs,
    new_periodic_single_axis_sequence
      (mkKwargs (Some 1) (Some 3%Z) None None None None None None [])
    = Return (mkSequence 1 (0 :: offs ++ [1]) (0 :: repeat np_pi 3 ++ [0])
                         (0 :: repeat 0 3 ++ [0]) (0 :: repeat 0 3 ++ [0])
                         false 5%nat None) /\
    List.length offs = 3%nat /\
    (forall k, (1 <= k <= 3)%Z ->
       nth (Z.to_nat (k - 1)) offs 0 == 1 * inject_Z k / inject_Z (3 + 1)) /\
    Forall (fun x => 0 < x /\ x < 1) offs.
Proof.
  apply (periodic_sequence (Some 1) 3 None None); [reflexivity|].
  vm_compute. split; discriminate.
Defined.

(* ================================================================= *)
(** * Further properties of the X-concatenated generator *)

Lemma count_occ_repeat_zero (n : nat) :
  count_occ Z.eq_dec (repeat 0%Z n) 1%Z = 0%nat.
Proof. induction n as [|n IH]; [reflexivity|]. simpl. exact IH. Qed.

(** The pattern of order [n] ends with a unit step followed by [n] pulses. *)
Lemma _concatenation_x_tail (n : positive) :
  exists Qn, _concatenation_x n = Qn ++ [1%Z] ++ repeat 0%Z (Pos.to_nat n).
Proof.
  induction n as [|n (Qn & E)] using Pos.peano_ind.
  - exists [1; 0]%Z. reflexivity.
  - rewrite _concatenation_x_succ, Pos2Nat.inj_succ.
    exists (_concatenation_x n ++ [0%Z] ++ Qn).
    rewrite E at 2. cbn [repeat]. rewrite repeat_cons, <- !app_assoc. reflexivity.
Qed.

Lemma _concatenation_x_counts (n : positive) :
  Z.of_nat (List.length (_concatenation_x n)) = (3 * 2 ^ Z.pos n - 2)%Z /\
  Z.of_nat (count_occ Z.eq_dec (_concatenation_x n) 1%Z) = (2 ^ Z.pos n)%Z.
Proof.
  induction n as [|n [IH1 IH2]] using Pos.peano_ind; [split; reflexivity|].
  rewrite _concatenation_x_succ, !length_app, !count_occ_app.
  cbn [List.length count_occ]. destruct (Z.eq_dec 0 1) as [E|_]; [discriminate|].
  rewrite Pos2Z.inj_succ, Z.pow_succ_r by lia. split; lia.
Qed.

Lemma last_cons_default {A : Type} (x d : A) (l : list A) :
  last (x :: l) d = last l x.
Proof.
  revert x d. induction l as [|y l IH]; intros x d; [reflexivity|].
  change (last (x :: y :: l) d) with (last (y :: l) d). now rewrite !IH.
Qed.

Lemma last_cumsum_from (acc : Q) (l : list Q) :
  last (cumsum_from acc l) acc = fold_left Qplus l acc.
Proof.
  revert acc. induction l as [|x l IH]; intro acc; [reflexivity|].
  cbn [cumsum_from fold_left]. now rewrite last_cons_default, IH.
Qed.

Lemma fold_left_Qplus_compat (a a' : Q) (l : list Q) :
  a == a' -> fold_left Qplus l a == fold_left Qplus l a'.
Proof.
  revert a a'. induction l as [|x l IH]; intros a a' E; [assumption|].
  simpl. apply IH. now rewrite E.
Qed.

Lemma scaled_total (u acc : Q) (pattern : list Z) :
  Forall (fun c => c = 0%Z \/ c = 1%Z) pattern ->
  fold_left Qplus (scaled u pattern) acc
  == acc + inject_Z (Z.of_nat (count_occ Z.eq_dec pattern 1%Z)) * u.
Proof.
  intro Hp. revert acc. induction Hp as [|c pattern Hc _ IH]; intro acc.
  - simpl. ring.
  - cbn [scaled map fold_left]. fold (scaled u pattern). rewrite IH.
    destruct Hc as [-> | ->]; cbn [count_occ].
    + destruct (Z.eq_dec 0 1); [discriminate|]. unfold inject_Z at 1. ring.
    + destruct (Z.eq_dec 1 1); [|congruence]. rewrite inject_Z_succ_mult.
      unfold inject_Z at 1. ring.
Qed.

Lemma unit_spacing_total (d : Q) (e : Z) :
  (0 <= e)%Z -> inject_Z (2 ^ e) * (d / inject_Z (2 ^ e)) == d.
Proof.
  intro He. field. intro E.
  assert (H : 0 < inject_Z (2 ^ e)) by (apply inject_Z_pos, Z.pow_pos_nonneg; lia).
  rewrite E in H. exact (Qlt_irrefl _ H).
Qed.

(** The cumulative positions of the X pattern. *)
Lemma x_positions_bounds (d : Q) (n : positive) :
  0 < d ->
  let u := d / inject_Z (2 ^ Z.pos n) in
  Forall (fun x => u <= x /\ x <= d)
         (np_cumsum (map (fun c => inject_Z c * u) (_concatenation_x n))).
Proof.
  intros Hd u.
  assert (Hu : 0 < u) by (apply unit_spacing_pos; [assumption | lia]).
  destruct (_concatenation_x_shape n) as (rest & E & Hrest).
  destruct (_concatenation_x_counts n) as [_ Hc].
  rewrite E in *. cbn [map np_cumsum]. fold (scaled u rest).
  cbn [count_occ] in Hc. destruct (Z.eq_dec 1 1) as [_|N]; [|congruence].
  assert (Htot : fold_left Qplus (scaled u rest) (inject_Z 1 * u) == d).
  { rewrite scaled_total by assumption.
    transitivity (inject_Z (Z.of_nat (S (count_occ Z.eq_dec rest 1%Z))) * u).
    - rewrite inject_Z_succ_mult. change (inject_Z 1) with 1. ring.
    - rewrite Hc. apply unit_spacing_total. lia. }
  assert (Hlow := cumsum_from_lower_bound (inject_Z 1 * u) _ (scaled_nonneg u rest Hu Hrest)).
  assert (Hup := cumsum_from_upper_bound (inject_Z 1 * u) _ (scaled_nonneg u rest Hu Hrest)).
  assert (E1 : inject_Z 1 * u == u) by (unfold inject_Z; ring).
  assert (Hfirst := fold_left_Qplus_lower (inject_Z 1 * u) _
                      (scaled_nonneg u rest Hu Hrest)).
  constructor.
  - split; lra.
  - apply Forall_forall. intros x Hx. rewrite Forall_forall in Hlow, Hup.
    specialize (Hlow x Hx). specialize (Hup x Hx). cbv beta in Hlow, Hup.
    split; lra.
Qed.

(** X14.  The pattern of concatenation order [n] has [3 * 2^n - 2]
    entries, [2^n] of them unit steps, and ends with a step followed by
    [n] pulses; with the unit [duration / 2^n] its cumulative positions
    therefore run from one unit up to exactly [duration]. *)
Theorem concatenation_x_spans_the_duration (d : Q) (n : positive) :
  0 < d ->
  let u := d / inject_Z (2 ^ Z.pos n) in
  let positions := np_cumsum (map (fun c => inject_Z c * u) (_concatenation_x n)) in
  Z.of_nat (List.length (_concatenation_x n)) = (3 * 2 ^ Z.pos n - 2)%Z /\
  Z.of_nat (count_occ Z.eq_dec (_concatenation_x n) 1%Z) = (2 ^ Z.pos n)%Z /\
  (exists Qn, _concatenation_x n = Qn ++ [1%Z] ++ repeat 0%Z (Pos.to_nat n)) /\
  Forall (fun x => u <= x /\ x <= d) positions /\
  last positions 0 == d.
Proof.
  intros Hd u positions.
  destruct (_concatenation_x_counts n) as [Hl Hc].
  split; [assumption|]. split; [assumption|].
  split; [apply _concatenation_x_tail|].
  split; [apply x_positions_bounds; assumption|].
  assert (Hu : 0 < u) by (apply unit_spacing_pos; [assumption | lia]).
  destruct (_concatenation_x_shape n) as (rest & E & Hrest).
  unfold positions. rewrite E in *. cbn [map np_cumsum]. fold (scaled u rest).
  cbn [count_occ] in Hc. destruct (Z.eq_dec 1 1) as [_|N]; [|congruence].
  rewrite last_cons_default, last_cumsum_from, scaled_total by assumption.
  transitivity (inject_Z (Z.of_nat (S (count_occ Z.eq_dec rest 1%Z))) * u).
  - rewrite inject_Z_succ_mult. change (inject_Z 1) with 1. ring.
  - rewrite Hc. apply unit_spacing_total. lia.
Qed.

Lemma concatenation_x_spans_the_duration_witness :
  let u := 1 / inject_Z (2 ^ Z.pos 2) in
  let positions := np_cumsum (map (fun c => inject_Z c * u) (_concatenation_x 2)) in
  Z.of_nat (List.length (_concatenation_x 2)) = (3 * 2 ^ Z.pos 2 - 2)%Z /\
  Z.of_nat (count_occ Z.eq_dec (_concatenation_x 2) 1%Z) = (2 ^ Z.pos 2)%Z /\
  (exists Qn, _concatenation_x 2 = Qn ++ [1%Z] ++ repeat 0%Z (Pos.to_nat 2)) /\
  Forall (fun x => u <= x /\ x <= 1) positions /\
  last positions 0 == 1.
Proof.
  apply (concatenation_x_spans_the_duration 1 2).
  reflexivity.
Defined.

Lemma countQ_all_equal (p : Q) (l : list Q) :
  Forall (fun x => x == p) l -> countQ p l = List.length l.
Proof.
  induction 1 as [|x l Hx _ IH]; [reflexivity|].
  rewrite countQ_cons, IH. symmetry in Hx. apply Qeq_bool_iff in Hx. now rewrite Hx.
Qed.

Lemma in_even_count_values (l : list Q) (q : Q) :
  In q (even_count_values (np_unique l)) ->
  (exists x, In x l /\ x == q) /\ Nat.even (countQ q l) = true.
Proof.
  intro Hq.
  assert (Hs : exists q', In q' (even_count_values (np_unique l)) /\ q' == q)
    by (exists q; split; [assumption | reflexivity]).
  apply even_count_values_spec in Hs as [Hpos Hev].
  split; [now apply countQ_pos_iff | assumption].
Qed.

Lemma cumsum_from_length (acc : Q) (l : list Q) :
  List.length (cumsum_from acc l) = List.length l.
Proof.
  revert acc. induction l as [|x l IH]; intro acc; [reflexivity|].
  simpl. now rewrite IH.
Qed.

(** The cumulative position [duration] occurs once for the step that
    reaches it and once for each of the [n] pulses that close the pattern. *)
Lemma x_positions_count_duration (d : Q) (n : positive) :
  0 < d ->
  countQ d (np_cumsum (map (fun c => inject_Z c * (d / inject_Z (2 ^ Z.pos n)))
                           (_concatenation_x n)))
  = S (Pos.to_nat n).
Proof.
  intro Hd. set (u := d / inject_Z (2 ^ Z.pos n)).
  assert (Hu : 0 < u) by (apply unit_spacing_pos; [assumption | lia]).
  rewrite (countQ_Forall2 _ _ _ (np_cumsum_from_zero _)).
  destruct (_concatenation_x_tail n) as (Qn & E).
  destruct (_concatenation_x_shape n) as (rest & E' & Hrest).
  destruct (_concatenation_x_counts n) as [_ Hc].
  assert (Hall : Forall (fun c => c = 0%Z \/ c = 1%Z) (_concatenation_x n))
    by (rewrite E'; constructor; [now right | assumption]).
  rewrite E in Hall, Hc |- *.
  apply Forall_app in Hall as [HQ Htail].
  fold (scaled u (Qn ++ [1%Z] ++ repeat 0%Z (Pos.to_nat n))).
  unfold scaled. rewrite map_app. fold (scaled u Qn).
  fold (scaled u ([1%Z] ++ repeat 0%Z (Pos.to_nat n))).
  rewrite cumsum_from_app, countQ_app.
  rewrite count_occ_app in Hc. cbn [app count_occ] in Hc.
  destruct (Z.eq_dec 1 1) as [_|N]; [|congruence].
  rewrite count_occ_repeat_zero in Hc.
  assert (Ht : fold_left Qplus (scaled u Qn) 0 + u == d).
  { rewrite scaled_total by assumption.
    transitivity (inject_Z (2 ^ Z.pos n) * u); [|apply unit_spacing_total; lia].
    rewrite <- Hc. rewrite Nat2Z.inj_add, inject_Z_plus.
    change (inject_Z (Z.of_nat 1)) with 1. ring. }
  rewrite (countQ_above d (fold_left Qplus (scaled u Qn) 0)).
  - rewrite countQ_all_equal.
    + rewrite cumsum_from_length. unfold scaled. rewrite length_map.
      cbn [app List.length]. rewrite repeat_length. reflexivity.
    + assert (Hlow := cumsum_from_lower_bound (fold_left Qplus (scaled u Qn) 0 + inject_Z 1 * u)
                        _ (scaled_nonneg u _ Hu (Forall_inv_tail Htail))).
      assert (Hup := cumsum_from_upper_bound (fold_left Qplus (scaled u Qn) 0)
                       _ (scaled_nonneg u _ Hu Htail)).
      assert (Htot : fold_left Qplus (scaled u ([1%Z] ++ repeat 0%Z (Pos.to_nat n)))
                               (fold_left Qplus (scaled u Qn) 0) == d).
      { rewrite scaled_total by assumption. cbn [app count_occ].
        destruct (Z.eq_dec 1 1) as [_|N]; [|congruence].
        rewrite count_occ_repeat_zero. change (inject_Z (Z.of_nat 1)) with 1.
        rewrite <- Ht. ring. }
      cbn [app scaled map cumsum_from] in *.
      fold (scaled u (repeat 0%Z (Pos.to_nat n))) in *.
      constructor.
      * change (inject_Z 1) with 1. rewrite <- Ht. ring.
      * inversion Hup as [|? ? _ Hup']; subst.
        apply Forall_forall. intros x Hx. rewrite Forall_forall in Hlow, Hup'.
        specialize (Hlow x Hx). specialize (Hup' x Hx). cbv beta in Hlow, Hup'.
        change (inject_Z 1) with 1 in *. apply Qle_antisym; lra.
  - lra.
  - apply cumsum_from_upper_bound, scaled_nonneg; assumption.
Qed.

Lemma StronglySorted_snoc_inv (l : list Q) (x : Q) :
  StronglySorted Qlt (l ++ [x]) -> StronglySorted Qlt l /\ Forall (fun y => y < x) l.
Proof.
  induction l as [|y l IH]; [repeat constructor|].
  cbn [app]. intro H. inversion H as [|? ? Hs Hall]; subst.
  destruct (IH Hs) as [Hs' Hlt]. apply Forall_app in Hall as [Hall Hx].
  split; constructor; try assumption. now inversion Hx.
Qed.

Lemma drop_last_snoc {A : Type} (l : list A) (x : A) : drop_last 1 (l ++ [x]) = l.
Proof.
  unfold drop_last. rewrite length_app. simpl.
  replace (List.length l + 1 - 1)%nat with (List.length l + 0)%nat by lia.
  rewrite firstn_app_2. simpl. apply app_nil_r.
Qed.

Lemma odd_pos_to_nat (n : positive) : Nat.odd (Pos.to_nat n) = Z.odd (Z.pos n).
Proof.
  rewrite <- positive_nat_Z. generalize (Pos.to_nat n). intro k.
  induction k as [|k IH]; [reflexivity|].
  rewrite Nat.odd_succ, Nat2Z.inj_succ, Z.odd_succ, <- Nat.negb_odd, <- Z.negb_odd.
  now rewrite IH.
Qed.

(** The offsets handed to the constructor are those of the computed
    offsets that lie before [duration]. *)
Lemma x_concatenated_offsets_before_duration (d : Q) (n : positive) :
  0 < d ->
  let u := d / inject_Z (2 ^ Z.pos n) in
  let computed := x_concatenated_computed_offsets d n in
  let offs := x_concatenated_offsets d n in
  StronglySorted Qlt offs /\
  Forall (fun x => u <= x /\ x < d) offs /\
  (forall q, In q computed -> q < d -> In q offs).
Proof.
  intros Hd u computed offs.
  assert (Hs : StronglySorted Qlt computed) by apply even_count_values_increasing.
  assert (Hb : Forall (fun x => u <= x /\ x <= d) computed).
  { apply Forall_forall. intros q Hq.
    apply in_even_count_values in Hq as [(x & Hx & Ex) _].
    pose proof (x_positions_bounds d n Hd) as Hp. rewrite Forall_forall in Hp.
    specialize (Hp x Hx). cbv beta zeta in Hp. fold u in Hp. rewrite <- Ex. exact Hp. }
  assert (Hcount := x_positions_count_duration d n Hd).
  assert (Hmem : (exists q, In q computed /\ q == d) <-> Z.odd (Z.pos n) = true).
  { unfold computed, x_concatenated_computed_offsets.
    rewrite even_count_values_spec, Hcount, Nat.even_succ, odd_pos_to_nat.
    split; [tauto | intro H; split; [lia | assumption]]. }
  unfold offs, x_concatenated_offsets. fold computed. rewrite Zmod_odd.
  destruct (Z.odd (Z.pos n)) eqn:Eodd; cbn [Z.eqb Pos.eqb].
  - destruct (proj2 Hmem eq_refl) as (q & Hq & Eq).
    destruct (snoc_cases computed) as [E | (body & y & E)];
      [rewrite E in Hq; destruct Hq|].
    rewrite E in *. rewrite drop_last_snoc.
    apply StronglySorted_snoc_inv in Hs as [Hs Hlt].
    apply Forall_app in Hb as [Hb Hy]. inversion Hy as [|? ? [_ Hyd] _]; subst.
    split; [assumption|]. split.
    + apply Forall_forall. intros x Hx. rewrite Forall_forall in Hb, Hlt.
      split; [apply Hb, Hx|]. specialize (Hlt x Hx). cbv beta in Hlt. lra.
    + intros q' Hq' Hlt'. apply in_app_or in Hq' as [Hq' | [<- | []]]; [assumption|].
      exfalso. apply in_app_or in Hq as [Hq | [<- | []]].
      * rewrite Forall_forall in Hlt. specialize (Hlt q Hq). cbv beta in Hlt. lra.
      * lra.
  - split; [assumption|]. split; [|auto].
    apply Forall_forall. intros x Hx. rewrite Forall_forall in Hb.
    destruct (Hb x Hx) as [Hx1 Hx2]. split; [assumption|].
    apply Qle_lteq in Hx2 as [Hlt | Heq]; [assumption|].
    exfalso. assert (false = true) by (apply Hmem; eauto). discriminate.
Qed.

(** X15.  Every offset the X-concatenated generator hands to the
    constructor lies strictly between [0] and the duration, and the
    offsets are strictly increasing: the pulses that the pattern stacks at
    the very end of the sequence never become an offset. *)
Theorem x_concatenated_offsets_are_interior (d : Q) (n : positive) :
  0 < d ->
  StronglySorted Qlt (x_concatenated_offsets d n) /\
  Forall (fun x => 0 < x /\ x < d) (x_concatenated_offsets d n).
Proof.
  intro Hd.
  destruct (x_concatenated_offsets_before_duration d n Hd) as (Hs & Hb & _).
  split; [assumption|].
  assert (Hu : 0 < d / inject_Z (2 ^ Z.pos n)) by (apply unit_spacing_pos; [assumption | lia]).
  eapply Forall_impl; [|exact Hb]. intros x [H1 H2]. split; [lra | assumption].
Qed.

Lemma x_concatenated_offsets_are_interior_witness :
  StronglySorted Qlt (x_concatenated_offsets 1 3) /\
  Forall (fun x => 0 < x /\ x < 1) (x_concatenated_offsets 1 3).
Proof.
  apply (x_concatenated_offsets_are_interior 1 3). reflexivity.
Defined.

Lemma _concatenation_x_head (n : positive) :
  exists rest,
    _concatenation_x n = [1; 0; 1]%Z ++ rest /\
    Forall (fun c => c = 0%Z \/ c = 1%Z) rest.
Proof.
  induction n as [|n (rest & E & Hrest)] using Pos.peano_ind.
  - exists [0%Z]. split; [reflexivity|]. repeat constructor.
  - destruct (_concatenation_x_shape n) as (rest' & E' & Hrest').
    rewrite _concatenation_x_succ.
    exists (rest ++ [0%Z] ++ _concatenation_x n ++ [0%Z]).
    split; [rewrite E at 1; rewrite <- app_assoc; reflexivity|].
    repeat (apply Forall_app; split); try assumption.
    + repeat constructor.
    + rewrite E'. constructor; [now right | assumption].
    + repeat constructor.
Qed.

(** The first pulse of the pattern, one unit after the start, is an
    offset. *)
Lemma x_first_offset (d : Q) (n : positive) :
  0 < d ->
  exists q, In q (x_concatenated_computed_offsets d n) /\ q == d / inject_Z (2 ^ Z.pos n).
Proof.
  intro Hd. unfold x_concatenated_computed_offsets.
  set (u := d / inject_Z (2 ^ Z.pos n)).
  assert (Hu : 0 < u) by (apply unit_spacing_pos; [assumption | lia]).
  apply even_count_values_spec.
  destruct (_concatenation_x_head n) as (rest & -> & Hrest).
  cbn [app map np_cumsum cumsum_from]. fold (scaled u rest).
  rewrite !countQ_cons.
  change (inject_Z 1) with 1. change (inject_Z 0) with 0.
  rewrite (proj2 (Qeq_bool_iff u (1 * u))) by ring.
  rewrite (proj2 (Qeq_bool_iff u (1 * u + 0 * u))) by ring.
  rewrite (proj2 (Qeq_bool_false u (1 * u + 0 * u + 1 * u)))
    by (intro E; assert (u == 0) by lra; lra).
  rewrite (countQ_below u (1 * u + 0 * u + 1 * u)).
  - split; [simpl; lia | reflexivity].
  - lra.
  - apply cumsum_from_lower_bound, scaled_nonneg; assumption.
Qed.

Lemma unit_spacing_below_duration (d : Q) (n : positive) :
  0 < d -> d / inject_Z (2 ^ Z.pos n) < d.
Proof.
  intro Hd. apply Qlt_shift_div_r.
  - apply inject_Z_pos, Z.pow_pos_nonneg; lia.
  - assert (H2 : 2 <= inject_Z (2 ^ Z.pos n)).
    { change 2 with (inject_Z 2). rewrite <- Zle_Qle.
      change 2%Z with (2 ^ 1)%Z at 1. apply Z.pow_le_mono_r; lia. }
    nra.
Qed.

Lemma np_cumsum_length (l : list Q) : List.length (np_cumsum l) = List.length l.
Proof. destruct l; [reflexivity|]. simpl. now rewrite cumsum_from_length. Qed.

Lemma insert_sorted_length (x : Q) (l : list Q) :
  List.length (insert_sorted x l) = S (List.length l).
Proof.
  induction l as [|y l IH]; [reflexivity|]. simpl.
  destruct (Qle_bool x y); simpl; [reflexivity | now rewrite IH].
Qed.

Lemma np_sort_length (l : list Q) : List.length (np_sort l) = List.length l.
Proof.
  induction l as [|x l IH]; [reflexivity|].
  unfold np_sort in *. simpl. now rewrite insert_sorted_length, IH.
Qed.

Lemma group_counts_length (l : list Q) :
  (List.length (group_counts l) <= List.length l)%nat.
Proof.
  induction l as [|x l IH]; [simpl; lia|]. simpl.
  destruct (group_counts l) as [|[y c] g]; simpl in *; [lia|].
  destruct (Qeq_bool x y); simpl; lia.
Qed.

Lemma even_count_values_length (l : list Q) :
  (List.length (even_count_values (np_unique l)) <= List.length l)%nat.
Proof.
  rewrite even_count_values_unique, length_map.
  eapply Nat.le_trans; [apply filter_length_le|].
  eapply Nat.le_trans; [apply group_counts_length|].
  now rewrite np_sort_length.
Qed.

Lemma drop_last_length_le {A : Type} (k : nat) (l : list A) :
  (List.length (drop_last k l) <= List.length l)%nat.
Proof. unfold drop_last. rewrite length_firstn. lia. Qed.

Lemma leftover_concatenation_order (dur : option Q) (n : option Z) (ppr : option bool)
    (nm : option string) :
  leftover_keywords [KwConcatenationOrder] (mkKwargs dur None None None None n ppr nm [])
  = false.
Proof. unfold leftover_keywords. destruct n; reflexivity. Qed.

(** X16.  For a positive duration and a concatenation order from 1 to 11,
    the X-concatenated generator returns a sequence: the boundary offsets
    [0] and [duration] around its own offsets, each of which carries a rabi
    rotation of [np.pi] and nothing else. *)
Theorem x_concatenated_sequence
    (dur : option Q) (n : Z) (ppr : option bool) (nm : option string) :
  let d := or_default dur 1 in
  let p := or_default ppr false in
  let b := boundary_rabi p in
  let offs := x_concatenated_offsets d (Z.to_pos n) in
  let N := List.length offs in
  0 < d -> (1 <= n <= 11)%Z ->
  offs <> [] /\
  new_x_concatenated_sequence (mkKwargs dur None None None None (Some n) ppr nm [])
  = Return (mkSequence d (0 :: offs ++ [d]) (b :: repeat np_pi N ++ [b])
                       (0 :: repeat 0 N ++ [0]) (0 :: repeat 0 N ++ [0])
                       p (N + 2)%nat nm).
Proof.
  intros d p b offs N Hd Hn.
  destruct (x_concatenated_offsets_before_duration d (Z.to_pos n) Hd) as (Hs & Hb & Hin).
  fold offs in Hs, Hb, Hin.
  assert (Hne : offs <> []).
  { destruct (x_first_offset d (Z.to_pos n) Hd) as (q & Hq & Eq).
    assert (Hq' : In q offs).
    { apply Hin; [assumption|]. rewrite Eq. now apply unit_spacing_below_duration. }
    intro E. rewrite E in Hq'. destruct Hq'. }
  split; [assumption|].
  assert (Hlen : (Z.of_nat N <= UPPER_BOUND_OFFSETS)%Z).
  { unfold N, offs, x_concatenated_offsets.
    assert (Hc : (List.length (x_concatenated_computed_offsets d (Z.to_pos n))
                  <= List.length (_concatenation_x (Z.to_pos n)))%nat).
    { unfold x_concatenated_computed_offsets.
      eapply Nat.le_trans; [apply even_count_values_length|].
      now rewrite np_cumsum_length, length_map. }
    destruct (_concatenation_x_counts (Z.to_pos n)) as [Hl _].
    rewrite Z2Pos.id in Hl by lia.
    assert (Hpow : (2 ^ n <= 2 ^ 11)%Z) by (apply Z.pow_le_mono_r; lia).
    change (2 ^ 11)%Z with 2048%Z in Hpow. unfold UPPER_BOUND_OFFSETS.
    destruct (_ =? 1)%Z.
    - pose proof (drop_last_length_le 1 (x_concatenated_computed_offsets d (Z.to_pos n))).
      lia.
    - lia. }
  assert (Hdb := proj2 (Qle_bool_false d 0) Hd).
  assert (Hnb : (n <=? 0)%Z = false) by (apply Z.leb_gt; lia).
  unfold new_x_concatenated_sequence.
  cbn [kw_duration kw_concatenation_order or_default]. fold d.
  rewrite Hdb, Hnb. fold offs N. unfold call_constructor.
  rewrite leftover_concatenation_order. cbn [kw_pre_post_rotation kw_name]. fold p.
  fold (default_rabi_rotations N None). rewrite default_rabi_is_pi.
  assert (HN : (N + 2)%nat = List.length (0 :: offs ++ [d]))
    by (cbn [List.length]; rewrite length_app; simpl; fold N; lia).
  rewrite HN. unfold np_zeros.
  apply new_sequence_interior; try assumption; rewrite ?repeat_length; try reflexivity.
  eapply Forall_impl; [|exact Hb]. intros x [H1 H2].
  assert (Hu : 0 < d / inject_Z (2 ^ Z.pos (Z.to_pos n)))
    by (apply unit_spacing_pos; [assumption | lia]).
  split; [lra | assumption].
Qed.

Lemma x_concatenated_sequence_witness :
  x_concatenated_offsets 1 (Z.to_pos 2) <> [] /\
  new_x_concatenated_sequence (mkKwargs (Some 1) None None None None (Some 2%Z) None None [])
  = Return (mkSequence 1 (0 :: x_concatenated_offsets 1 (Z.to_pos 2) ++ [1])
                       (0 :: repeat np_pi (List.length (x_concatenated_offsets 1 (Z.to_pos 2)))
                          ++ [0])
                       (0 :: repeat 0 (List.length (x_concatenated_offsets 1 (Z.to_pos 2)))
                          ++ [0])
                       (0 :: repeat 0 (List.length (x_concatenated_offsets 1 (Z.to_pos 2)))
                          ++ [0])
                       false
                       (List.length (x_concatenated_offsets 1 (Z.to_pos 2)) + 2)%nat None).
Proof.
  apply (x_concatenated_sequence (Some 1) 2 None None); [reflexivity | lia].
Defined.

(* ================================================================= *)
(** * Further properties of the XY-concatenated generator *)

Lemma np_zeros_succ (k : nat) : np_zeros (S k) = 0 :: np_zeros k.
Proof. reflexivity. Qed.

(** The rotation arrays during the merge of lines 754-785. *)
Lemma merge_rabi_azimuthal_rotations (fuel : nat) :
  forall (R A Pr Pa : list Q) (k : nat) (st : xy_arrays),
    (List.length R + List.length A <= fuel)%nat ->
    xy_rabi_rotations st = Pr ++ np_zeros k ->
    xy_azimuthal_angles st = Pa ++ np_zeros k ->
    List.length Pa = List.length Pr ->
    (List.length R + List.length A <= k)%nat ->
    exists Ma,
      let st' := merge_rabi_azimuthal fuel R A (List.length Pr) st in
      xy_rabi_rotations st'
      = Pr ++ repeat np_pi (List.length R + List.length A)
           ++ np_zeros (k - (List.length R + List.length A)) /\
      xy_azimuthal_angles st'
      = Pa ++ Ma ++ np_zeros (k - (List.length R + List.length A)) /\
      List.length Ma = (List.length R + List.length A)%nat /\
      Forall (fun a => a = 0 \/ a = np_pi / 2) Ma /\
      xy_detuning_rotations st' = xy_detuning_rotations st.
Proof.
  induction fuel as [|fuel IH]; intros R A Pr Pa k st Hfuel Hr Ha HP Hk.
  - destruct R, A; simpl in Hfuel; try lia.
    exists []. cbn. rewrite Nat.sub_0_r. auto.
  - assert (Hlen : forall (P : list Q) (v : Q), S (List.length P) = List.length (P ++ [v]))
      by (intros P v; rewrite length_app; simpl; lia).
    assert (Hnext : forall (P : list Q) (v : Q) (j : nat),
              setitem (List.length P) v (P ++ np_zeros (S j)) = (P ++ [v]) ++ np_zeros j).
    { intros P v j. rewrite np_zeros_succ, setitem_middle, <- app_assoc. reflexivity. }
    assert (Hkeep : forall (P : list Q) (j : nat),
              P ++ np_zeros (S j) = (P ++ [0]) ++ np_zeros j).
    { intros P j. rewrite np_zeros_succ, <- app_assoc. reflexivity. }
    destruct R as [|r R'], A as [|a A'].
    + exists []. cbn. rewrite Nat.sub_0_r. auto.
    + destruct k as [|k]; [simpl in Hk; lia|].
      cbn [merge_rabi_azimuthal]. rewrite (Hlen Pr np_pi).
      match goal with
      | |- context [merge_rabi_azimuthal _ _ _ _ ?s] =>
          destruct (IH [] A' (Pr ++ [np_pi]) (Pa ++ [np_pi / 2]) k s) as (Ma & Er & Ea & Lm & Fm & Ed)
      end.
      { simpl in *. lia. }
      { cbn [xy_rabi_rotations]. rewrite Hr. apply Hnext. }
      { cbn [xy_azimuthal_angles]. rewrite Ha, <- HP. apply Hnext. }
      { rewrite !length_app. simpl. lia. }
      { simpl in *. lia. }
      cbv zeta in *. exists (np_pi / 2 :: Ma).
      rewrite Er, Ea, Ed, <- !app_assoc. cbn [List.length Nat.add app repeat Nat.sub].
      repeat split; auto; try (simpl; lia).
    + destruct k as [|k]; [simpl in Hk; lia|].
      cbn [merge_rabi_azimuthal]. rewrite (Hlen Pr np_pi).
      match goal with
      | |- context [merge_rabi_azimuthal _ _ _ _ ?s] =>
          destruct (IH R' [] (Pr ++ [np_pi]) (Pa ++ [0]) k s) as (Ma & Er & Ea & Lm & Fm & Ed)
      end.
      { simpl in *. lia. }
      { cbn [xy_rabi_rotations]. rewrite Hr. apply Hnext. }
      { cbn [xy_azimuthal_angles]. rewrite Ha. apply Hkeep. }
      { rewrite !length_app. simpl. lia. }
      { simpl in *. lia. }
      cbv zeta in *. exists (0 :: Ma).
      rewrite Er, Ea, Ed, <- !app_assoc. cbn [List.length Nat.add app repeat Nat.sub].
      repeat split; auto; try (simpl; lia).
    + destruct k as [|k]; [simpl in Hk; lia|].
      cbn [merge_rabi_azimuthal]. destruct (Qlt_bool r a).
      * rewrite (Hlen Pr np_pi).
        match goal with
        | |- context [merge_rabi_azimuthal _ _ _ _ ?s] =>
            destruct (IH R' (a :: A') (Pr ++ [np_pi]) (Pa ++ [0]) k s)
              as (Ma & Er & Ea & Lm & Fm & Ed)
        end.
        { simpl in *. lia. }
        { cbn [xy_rabi_rotations]. rewrite Hr. apply Hnext. }
        { cbn [xy_azimuthal_angles]. rewrite Ha. apply Hkeep. }
        { rewrite !length_app. simpl. lia. }
        { simpl in *. lia. }
        cbv zeta in *. exists (0 :: Ma).
        rewrite Er, Ea, Ed, <- !app_assoc. cbn [List.length Nat.add app repeat Nat.sub].
        repeat split; auto; try (simpl; lia).
      * rewrite (Hlen Pr np_pi).
        match goal with
        | |- context [merge_rabi_azimuthal _ _ _ _ ?s] =>
            destruct (IH (r :: R') A' (Pr ++ [np_pi]) (Pa ++ [np_pi / 2]) k s)
              as (Ma & Er & Ea & Lm & Fm & Ed)
        end.
        { simpl in *. lia. }
        { cbn [xy_rabi_rotations]. rewrite Hr. apply Hnext. }
        { cbn [xy_azimuthal_angles]. rewrite Ha, <- HP. apply Hnext. }
        { rewrite !length_app. simpl. lia. }
        { simpl in *. lia. }
        cbv zeta in *. exists (np_pi / 2 :: Ma).
        rewrite Er, Ea, Ed, <- !app_assoc. cbn [List.length Nat.add app repeat Nat.sub].
        replace (List.length R' + S (List.length A'))%nat
          with (S (List.length R' + List.length A')) in * by lia.
        cbn [repeat Nat.sub app].
        repeat split; auto; try (simpl; lia).
Qed.

Lemma insert_shifted (P M : list Q) (m v : Q) (k : nat) :
  setitem (List.length P) v
    (shift_right (List.length P) (P ++ (m :: M) ++ np_zeros (S k)))
  = (P ++ [v]) ++ (m :: M) ++ np_zeros k.
Proof.
  cbn [app]. rewrite shift_right_middle, setitem_middle, <- app_assoc.
  cbn [app]. do 2 f_equal.
  change (m :: M ++ np_zeros (S k)) with ((m :: M) ++ np_zeros (S k)).
  now rewrite removelast_zeros.
Qed.

(** Entries that hold rabi pulses only, as rows (rabi rotation, azimuthal
    angle, detuning rotation). *)
Lemma rabi_rows (Mr Ma : list Q) :
  List.length Ma = List.length Mr ->
  Forall (fun r => r = np_pi) Mr ->
  Forall (fun a => a = 0 \/ a = np_pi / 2) Ma ->
  exists rows : list (Q * (Q * Q)),
    map fst rows = Mr /\
    map (fun row => fst (snd row)) rows = Ma /\
    map (fun row => snd (snd row)) rows = np_zeros (List.length Mr) /\
    List.length rows = List.length Mr /\
    Forall xy_pulse_kind rows.
Proof.
  revert Ma. induction Mr as [|r Mr IH]; intros Ma L H1 H2.
  - destruct Ma; [|discriminate]. exists []. cbn. auto.
  - destruct Ma as [|a Ma]; [discriminate|].
    inversion H1; inversion H2; subst.
    destruct (IH Ma) as (rows & E1 & E2 & E3 & E4 & E5); auto.
    exists ((np_pi, (a, 0)) :: rows). cbn [map fst snd List.length].
    rewrite E1, E2, E3, E4.
    repeat split; auto. constructor; [|assumption].
    right. auto.
Qed.

(** The rotation arrays during the insertion of lines 790-801, under the
    conditions of [insert_detuning_offsets]: every entry ahead of the loop
    is a rabi pulse, and every detuning offset still to insert is exceeded
    by a merged offset. *)
Lemma insert_detuning_rotations (n : nat) :
  forall (M Dr P D : list Q) (j : nat) (st : xy_arrays) (Mr Ma Pr Pa Pz : list Q),
    (List.length M + List.length Dr = n)%nat ->
    xy_offsets st = P ++ M ++ np_zeros (List.length Dr) ->
    xy_rabi_rotations st = Pr ++ Mr ++ np_zeros (List.length Dr) ->
    xy_azimuthal_angles st = Pa ++ Ma ++ np_zeros (List.length Dr) ->
    xy_detuning_rotations st = Pz ++ np_zeros (List.length M + List.length Dr) ->
    List.length Pr = List.length P -> List.length Pa = List.length P ->
    List.length Pz = List.length P ->
    List.length Mr = List.length M -> List.length Ma = List.length M ->
    Forall (fun r => r = np_pi) Mr ->
    Forall (fun a => a = 0 \/ a = np_pi / 2) Ma ->
    skipn j D = Dr -> Dr <> [] ->
    (exists m, In m M /\ Forall (fun d => d < m) Dr) ->
    exists rows,
      let st' := insert_detuning (seq (List.length P) n) D j st in
      xy_rabi_rotations st' = Pr ++ map fst rows /\
      xy_azimuthal_angles st' = Pa ++ map (fun row => fst (snd row)) rows /\
      xy_detuning_rotations st' = Pz ++ map (fun row => snd (snd row)) rows /\
      List.length rows = n /\
      Forall xy_pulse_kind rows.
Proof.
  induction n as [|n IH];
    intros M Dr P D j st Mr Ma Pr Pa Pz Hn Ho Hr Ha Hz LPr LPa LPz LMr LMa HMr HMa
           Hj Hne (m0 & Hm0 & Hbig).
  - destruct M; [destruct Hm0 | simpl in Hn; lia].
  - destruct M as [|m M']; [destruct Hm0|].
    destruct Dr as [|d Dr']; [congruence|]. clear Hne.
    destruct Mr as [|r Mr']; [discriminate|]. destruct Ma as [|a Ma']; [discriminate|].
    inversion HMr as [|? ? Er HMr']; subst r.
    inversion HMa as [|? ? Ea HMa']. subst.
    inversion Hbig as [|? ? Hdm0 Hbig']; subst.
    destruct (nth_skipn_head j D d Dr' Hj) as (Hnth & Hj' & Hjlt).
    assert (Eo : setitem (List.length P) d (shift_right (List.length P) (xy_offsets st))
                 = (P ++ [d]) ++ (m :: M') ++ np_zeros (List.length Dr'))
      by (rewrite Ho; apply insert_shifted).
    assert (Err : setitem (List.length P) 0 (shift_right (List.length P)
                                              (xy_rabi_rotations st))
                  = (Pr ++ [0]) ++ (np_pi :: Mr') ++ np_zeros (List.length Dr'))
      by (rewrite Hr, <- LPr; apply insert_shifted).
    assert (Eaa : setitem (List.length P) 0 (shift_right (List.length P)
                                              (xy_azimuthal_angles st))
                  = (Pa ++ [0]) ++ (a :: Ma') ++ np_zeros (List.length Dr'))
      by (rewrite Ha, <- LPa; apply insert_shifted).
    assert (Ezz : setitem (List.length P) np_pi (xy_detuning_rotations st)
                  = (Pz ++ [np_pi])
                      ++ np_zeros (List.length (m :: M') + List.length Dr')).
    { rewrite Hz, <- LPz. cbn [List.length]. rewrite Nat.add_succ_r.
      cbn [Nat.add]. rewrite np_zeros_succ, setitem_middle, <- app_assoc. reflexivity. }
    assert (Hlen : forall (X : list Q) (v w : Q),
              List.length X = List.length P ->
              List.length (X ++ [v]) = List.length (P ++ [w]))
      by (intros X v w HX; rewrite !length_app, HX; reflexivity).
    assert (HlenP : forall v : Q, S (List.length P) = List.length (P ++ [v]))
      by (intro v; rewrite length_app; simpl; lia).
    cbn [seq insert_detuning].
    replace (nth (List.length P) (xy_offsets st) 0) with m
      by (rewrite Ho; cbn [app]; now rewrite nth_middle).
    rewrite Hnth.
    destruct (Qlt_bool d m) eqn:E.
    + destruct Dr' as [|d' Dr''].
      * apply skipn_nil_length in Hj'. apply Nat.leb_le in Hj'. rewrite Hj'.
        cbv zeta. cbn [xy_rabi_rotations xy_azimuthal_angles xy_detuning_rotations].
        rewrite Err, Eaa, Ezz.
        destruct (rabi_rows (np_pi :: Mr') (a :: Ma'))
          as (rows & E1 & E2 & E3 & E4 & E5); auto; [congruence|].
        exists ((0, (0, np_pi)) :: rows).
        cbn [map fst snd]. rewrite E1, E2, E3, <- !app_assoc.
        rewrite LMr. cbn [np_zeros repeat app List.length].
        rewrite !app_nil_r, Nat.add_0_r.
        repeat split; auto; [simpl in *; lia|].
        constructor; [|assumption]. left. auto.
      * assert (Hlt : (List.length D <=? S j)%nat = false).
        { apply Nat.leb_gt. pose proof (length_skipn (S j) D) as Hl.
          rewrite Hj' in Hl. simpl in Hl. lia. }
        rewrite Hlt, (HlenP d).
        match goal with
        | |- context [insert_detuning _ _ _ ?s] =>
            destruct (IH (m :: M') (d' :: Dr'') (P ++ [d]) D (S j) s
                         (np_pi :: Mr') (a :: Ma') (Pr ++ [0]) (Pa ++ [0]) (Pz ++ [np_pi]))
              as (rows & E1 & E2 & E3 & E4 & E5)
        end; auto.
        { simpl in *. lia. }
        { discriminate. }
        { exists m0. split; assumption. }
        cbv zeta in *. exists ((0, (0, np_pi)) :: rows).
        rewrite E1, E2, E3, <- !app_assoc. cbn [map fst snd app List.length].
        repeat split; auto.
        constructor; [|assumption]. left. auto.
    + apply Qlt_bool_false in E.
      assert (Hlt : (List.length D <=? j)%nat = false) by (apply Nat.leb_gt; lia).
      rewrite Hlt, (HlenP m).
      assert (Hin : exists m1, In m1 M' /\ Forall (fun d => d < m1) (d :: Dr')).
      { exists m0. split; [|assumption].
        destruct Hm0 as [<- | Hm0]; [|assumption].
        exfalso. apply (Qlt_irrefl d). eapply Qlt_le_trans; eassumption. }
      destruct (IH M' (d :: Dr') (P ++ [m]) D j st
                   Mr' Ma' (Pr ++ [np_pi]) (Pa ++ [a]) (Pz ++ [0]))
        as (rows & E1 & E2 & E3 & E4 & E5); auto;
        try (simpl in *; lia); try discriminate.
      { rewrite Ho, <- app_assoc. reflexivity. }
      { rewrite Hr, <- app_assoc. reflexivity. }
      { rewrite Ha, <- app_assoc. reflexivity. }
      { rewrite Hz, <- app_assoc. reflexivity. }
      cbv zeta in *. exists ((np_pi, (a, 0)) :: rows).
      rewrite E1, E2, E3, <- !app_assoc. cbn [map fst snd app List.length].
      repeat split; auto.
      constructor; [|assumption]. right. auto.
Qed.
Lemma combine_rows (rows : list (Q * (Q * Q))) :
  combine (map fst rows)
          (combine (map (fun row => fst (snd row)) rows)
                   (map (fun row => snd (snd row)) rows)) = rows.
Proof.
  induction rows as [|[r [a z]] rows IH]; [reflexivity|].
  cbn [map combine fst snd]. now rewrite IH.
Qed.

Lemma repeat_Forall {A : Type} (P : A -> Prop) (x : A) (k : nat) :
  P x -> Forall P (repeat x k).
Proof. intro H. induction k; simpl; constructor; assumption. Qed.

(** The rotation arrays of the XY-concatenated generator, position by
    position. *)
Lemma xy_rotation_rows (d : Q) (concatenation_order : positive) :
  0 < d ->
  let final := xy_concatenated_arrays d concatenation_order in
  exists rows,
    List.length rows = List.length (xy_offsets final) /\
    xy_rabi_rotations final = map fst rows /\
    xy_azimuthal_angles final = map (fun row => fst (snd row)) rows /\
    xy_detuning_rotations final = map (fun row => snd (snd row)) rows /\
    Forall xy_pulse_kind rows.
Proof.
  intros Hd final.
  set (R := xy_rabi_offsets d concatenation_order).
  set (A := xy_azimuthal_offsets d concatenation_order).
  set (D := xy_detuning_offsets d concatenation_order).
  set (merged := xy_merged R A D).
  assert (HR : StronglySorted Qle R)
    by apply StronglySorted_Qlt_Qle, even_count_values_increasing.
  assert (HA : StronglySorted Qle A)
    by apply StronglySorted_Qlt_Qle, even_count_values_increasing.
  set (n := (List.length R + List.length A + List.length D)%nat).
  destruct (merge_rabi_azimuthal_offsets
              (List.length R + List.length A) R A [] (np_zeros n)
              (mkXY (np_zeros n) (np_zeros n) (np_zeros n) (np_zeros n)))
    as (M & EM & PM & SM); try assumption; try reflexivity.
  1: { unfold np_zeros. rewrite repeat_length. unfold n. lia. }
  unfold n in EM at 5. rewrite skipn_np_zeros in EM. cbn [List.length app] in EM.
  destruct (merge_rabi_azimuthal_rotations
              (List.length R + List.length A) R A [] [] n
              (mkXY (np_zeros n) (np_zeros n) (np_zeros n) (np_zeros n)))
    as (Ma & Er & Ea & LMa & FMa & Ez); try reflexivity; try (unfold n; lia).
  cbv zeta in Er, Ea, Ez. cbn [List.length app xy_detuning_rotations] in Er, Ea, Ez.
  replace (n - (List.length R + List.length A))%nat with (List.length D) in Er, Ea
    by (unfold n; lia).
  subst n.
  fold (xy_merged R A D) in EM, Er, Ea, Ez. fold merged in EM, Er, Ea, Ez.
  assert (LM : List.length M = (List.length R + List.length A)%nat)
    by (rewrite (Permutation_length PM), length_app; reflexivity).
  unfold final, xy_concatenated_arrays. fold R A D merged.
  unfold xy_with_detuning.
  destruct D as [|d0 D'] eqn:ED.
  - destruct (rabi_rows (repeat np_pi (List.length R + List.length A)) Ma)
      as (rows & E1 & E2 & E3 & E4 & E5); auto.
    { now rewrite repeat_length. }
    { now apply repeat_Forall. }
    exists rows. rewrite EM, Er, Ea, Ez.
    cbn [np_zeros repeat List.length]. rewrite !app_nil_r.
    rewrite E1, E2, E3, E4, repeat_length, LM.
    cbn [List.length]. rewrite Nat.add_0_r. auto.
  - rewrite <- ED in *.
    destruct (rabi_offset_after_shape d concatenation_order Hd) as (q & Hq & Hbound).
    fold R in Hq. fold D in Hbound.
    assert (Hlen : List.length (xy_offsets merged) = (List.length M + List.length D)%nat).
    { rewrite EM, length_app. unfold np_zeros. now rewrite repeat_length. }
    rewrite Hlen.
    assert (HD : StronglySorted Qle D)
      by apply StronglySorted_Qlt_Qle, even_count_values_increasing.
    destruct (insert_detuning_offsets (List.length M + List.length D)
                M D [] D 0 merged) as (F & EF & PF & SF);
      try assumption; try reflexivity.
    { rewrite ED. discriminate. }
    { exists q. split; [|assumption].
      eapply Permutation_in; [apply Permutation_sym, PM|].
      apply in_or_app. now left. }
    destruct (insert_detuning_rotations (List.length M + List.length D)
                M D [] D 0 merged
                (repeat np_pi (List.length R + List.length A)) Ma [] [] [])
      as (rows & E1 & E2 & E3 & E4 & E5); try assumption; try reflexivity.
    { rewrite Ez. now rewrite LM. }
    { rewrite repeat_length. now rewrite LM. }
    { now rewrite LM. }
    { now apply repeat_Forall. }
    { rewrite ED. discriminate. }
    { exists q. split; [|assumption].
      eapply Permutation_in; [apply Permutation_sym, PM|].
      apply in_or_app. now left. }
    cbv zeta in E1, E2, E3. cbn [List.length app] in *.
    exists rows. rewrite EF, E1, E2, E3, E4.
    rewrite (Permutation_length PF), length_app. auto.
Qed.

(** X17. [new_xy_concatenated_sequence], lines 748-801: for a positive
    duration and every concatenation order, the three rotation arrays the
    generator hands to the constructor have the length of the offsets
    array, and every position holds exactly one kind of pulse: either a
    detuning rotation of pi with no rabi rotation and azimuthal angle 0
    (a Z pulse), or a rabi rotation of pi with no detuning rotation and
    azimuthal angle 0 (an X pulse) or pi/2 (a Y pulse).  No position is
    left as the zero padding of line 748. *)
Theorem xy_rotation_arrays_hold_one_pulse_each (d : Q) (concatenation_order : positive) :
  0 < d ->
  let final := xy_concatenated_arrays d concatenation_order in
  List.length (xy_rabi_rotations final) = List.length (xy_offsets final) /\
  List.length (xy_azimuthal_angles final) = List.length (xy_offsets final) /\
  List.length (xy_detuning_rotations final) = List.length (xy_offsets final) /\
  Forall xy_pulse_kind
    (combine (xy_rabi_rotations final)
             (combine (xy_azimuthal_angles final) (xy_detuning_rotations final))).
Proof.
  intros Hd final.
  destruct (xy_rotation_rows d concatenation_order Hd) as (rows & L & E1 & E2 & E3 & Hkind).
  fold final in L, E1, E2, E3.
  rewrite E1, E2, E3, combine_rows, !length_map. auto.
Qed.

Lemma xy_rotation_arrays_hold_one_pulse_each_witness :
  let final := xy_concatenated_arrays 1 2 in
  List.length (xy_rabi_rotations final) = List.length (xy_offsets final) /\
  List.length (xy_azimuthal_angles final) = List.length (xy_offsets final) /\
  List.length (xy_detuning_rotations final) = List.length (xy_offsets final) /\
  Forall xy_pulse_kind
    (combine (xy_rabi_rotations final)
             (combine (xy_azimuthal_angles final) (xy_detuning_rotations final))).
Proof.
  apply (xy_rotation_arrays_hold_one_pulse_each 1 2).
  reflexivity.
Defined.
(* ================================================================= *)
(** * Further properties of the Walsh generator *)

Lemma flat_map_filter {A B : Type} (c : A -> bool) (f : A -> B) (l : list A) :
  flat_map (fun i => if c i then [f i] else []) l = map f (filter c l).
Proof.
  induction l as [|x l IH]; [reflexivity|].
  cbn [flat_map filter]. destruct (c x); cbn [app map]; now rewrite IH.
Qed.

Lemma py_range_increasing (a b : Z) : StronglySorted Z.lt (py_range a b).
Proof.
  unfold py_range. generalize (Z.to_nat (b - a)) as len. generalize 0%nat as start.
  intros start len. revert start.
  induction len as [|len IH]; intro start; [constructor|].
  cbn [seq map]. constructor; [apply IH|].
  apply Forall_map, Forall_forall. intros j Hj. apply in_seq in Hj. lia.
Qed.

Lemma StronglySorted_map {A : Type} (R : A -> A -> Prop) (f : A -> Q) (l : list A) :
  (forall x y, In x l -> In y l -> R x y -> f x < f y) ->
  StronglySorted R l -> StronglySorted Qlt (map f l).
Proof.
  intros Hf Hs. induction Hs as [|x l Hs IH Hall]; [constructor|].
  cbn [map]. constructor.
  - apply IH. intros u v Hu Hv. apply Hf; now right.
  - apply Forall_map. rewrite Forall_forall in *. intros y Hy.
    apply Hf; [now left | now right | now apply Hall].
Qed.

(** The relative offsets of a Walsh sequence are sign changes between
    neighbouring samples: multiples [k / samples] with [1 <= k < samples],
    in increasing order. *)
Lemma walsh_relative_offsets_shape (np_sin : Q -> Q) (paley_order : Z) :
  (1 <= paley_order)%Z ->
  let samples := (2 ^ (Z.log2 paley_order + 1))%Z in
  exists ks,
    walsh_relative_offsets np_sin paley_order
    = map (fun i => inject_Z (i + 1) * (1 / inject_Z samples)) ks /\
    StronglySorted Z.lt ks /\
    Forall (fun i => (0 <= i < samples - 1)%Z) ks /\
    (Z.of_nat (List.length ks) <= samples - 1)%Z.
Proof.
  intros Hp samples. unfold walsh_relative_offsets. fold samples. cbv zeta.
  rewrite flat_map_filter.
  eexists. split; [reflexivity|]. split; [|split].
  - apply StronglySorted_filter, py_range_increasing.
  - apply Forall_forall. intros i Hi. apply filter_In in Hi as [Hi _].
    apply py_range_In in Hi. lia.
  - eapply Z.le_trans; [apply inj_le, filter_length_le|].
    rewrite py_range_length.
    assert (0 < samples)%Z by (apply Z.pow_pos_nonneg; [lia|];
                               pose proof (Z.log2_nonneg paley_order); lia).
    lia.
Qed.

Lemma leftover_paley_order (dur : option Q) (p : option Z) (ppr : option bool)
    (nm : option string) :
  leftover_keywords [KwPaleyOrder] (mkKwargs dur None p None None None ppr nm []) = false.
Proof. unfold leftover_keywords. destruct p; reflexivity. Qed.

(** X18.  Whatever the sine evaluates to, for a positive duration [d] and
    a Paley order from 1 to 2000 the offsets of the Walsh generator are
    strictly increasing, lie strictly between [0] and [d] and are fewer
    than 2048.  When there is at least one, the generator returns them
    between the boundary offsets [0] and [d], each with a rabi rotation of
    [np.pi] and nothing else; when the Walsh array shows no sign change,
    the constructor is called with empty arrays and raises an
    [IndexError]. *)
Theorem walsh_sequence
    (np_sin : Q -> Q) (dur : option Q) (paley_order : Z) (ppr : option bool)
    (nm : option string) :
  let d := or_default dur 1 in
  let p := or_default ppr false in
  let b := boundary_rabi p in
  let kw := mkKwargs dur None (Some paley_order) None None None ppr nm [] in
  let offs := map (fun x => d * x) (walsh_relative_offsets np_sin paley_order) in
  let N := List.length offs in
  0 < d -> (1 <= paley_order <= 2000)%Z ->
  StronglySorted Qlt offs /\
  Forall (fun x => 0 < x /\ x < d) offs /\
  (N < 2048)%nat /\
  (offs = [] -> new_walsh_single_axis_sequence np_sin kw = Raise IndexError) /\
  (offs <> [] ->
   new_walsh_single_axis_sequence np_sin kw
   = Return (mkSequence d (0 :: offs ++ [d]) (b :: repeat np_pi N ++ [b])
                        (0 :: repeat 0 N ++ [0]) (0 :: repeat 0 N ++ [0])
                        p (N + 2)%nat nm)).
Proof.
  intros d p b kw offs N Hd Hp.
  destruct (walsh_relative_offsets_shape np_sin paley_order) as (ks & E & Hs & Hin & Hl);
    [lia|].
  set (samples := (2 ^ (Z.log2 paley_order + 1))%Z) in *.
  assert (Hlog : (0 <= Z.log2 paley_order < 11)%Z).
  { split; [apply Z.log2_nonneg|]. apply Z.log2_lt_pow2; [lia|].
    change (2 ^ 11)%Z with 2048%Z. lia. }
  assert (Hsam : (0 < samples <= 2048)%Z).
  { unfold samples. split; [apply Z.pow_pos_nonneg; lia|].
    change 2048%Z with (2 ^ 11)%Z. apply Z.pow_le_mono_r; lia. }
  assert (HsQ : 0 < inject_Z samples) by (apply inject_Z_pos; lia).
  assert (Hoffs : offs = map (fun i => d * (inject_Z (i + 1) * (1 / inject_Z samples))) ks)
    by (unfold offs; rewrite E, map_map; reflexivity).
  assert (Hsorted : StronglySorted Qlt offs).
  { rewrite Hoffs. apply (StronglySorted_map Z.lt); [|assumption].
    intros x y _ _ Hxy.
    assert (Hq : inject_Z (x + 1) < inject_Z (y + 1)) by (rewrite <- Zlt_Qlt; lia).
    assert (Hinv : 0 < 1 / inject_Z samples) by (apply Qlt_shift_div_l; lra).
    apply Qmult_lt_l; [assumption|]. apply Qmult_lt_r; assumption. }
  assert (Hinterior : Forall (fun x => 0 < x /\ x < d) offs).
  { rewrite Hoffs. apply Forall_map. eapply Forall_impl; [|exact Hin].
    intros i Hi. cbv beta in Hi |- *.
    assert (H1 : 0 < inject_Z (i + 1)) by (apply inject_Z_pos; lia).
    assert (H2 : inject_Z (i + 1) < inject_Z samples) by (rewrite <- Zlt_Qlt; lia).
    assert (E1 : inject_Z (i + 1) * (1 / inject_Z samples)
                 == inject_Z (i + 1) / inject_Z samples) by (field; lra).
    assert (H3 : 0 < inject_Z (i + 1) / inject_Z samples)
      by (apply Qlt_shift_div_l; lra).
    assert (H4 : inject_Z (i + 1) / inject_Z samples < 1)
      by (apply Qlt_shift_div_r; lra).
    rewrite E1. split; [apply Qmult_lt_0_compat; assumption|].
    setoid_replace d with (d * 1) at 2 by ring.
    apply Qmult_lt_l; assumption. }
  assert (HN : (N < 2048)%nat).
  { unfold N. rewrite Hoffs, length_map. lia. }
  split; [assumption|]. split; [assumption|]. split; [assumption|].
  assert (Hdb := proj2 (Qle_bool_false d 0) Hd).
  assert (Hpb : (paley_order <? 1)%Z || (2000 <? paley_order)%Z = false).
  { apply orb_false_iff. split; apply Z.ltb_ge; lia. }
  assert (Hcall : new_walsh_single_axis_sequence np_sin kw
                  = new_sequence d (Some offs) (Some (repeat np_pi N))
                                   (Some (repeat 0 N)) (Some (repeat 0 N)) p nm).
  { unfold new_walsh_single_axis_sequence, kw.
    cbn [kw_duration kw_paley_order or_default]. fold d. rewrite Hdb, Hpb.
    fold offs N. unfold call_constructor. rewrite leftover_paley_order.
    cbn [kw_pre_post_rotation kw_name]. fold p.
    rewrite map_const_zeros. reflexivity. }
  rewrite Hcall. split.
  - intro E0. unfold N. rewrite E0. cbn [List.length repeat].
    unfold new_sequence. rewrite Hdb. reflexivity.
  - intro Hne.
    assert (HL : (N + 2)%nat = List.length (0 :: offs ++ [d]))
      by (cbn [List.length]; rewrite length_app; simpl; fold N; lia).
    rewrite HL.
    apply new_sequence_interior; try assumption; rewrite ?repeat_length; try reflexivity.
    fold N. unfold UPPER_BOUND_OFFSETS. lia.
Qed.

Lemma walsh_sequence_witness :
  let offs := map (fun x => 1 * x) (walsh_relative_offsets square_sin 3) in
  let N := List.length offs in
  StronglySorted Qlt offs /\
  Forall (fun x => 0 < x /\ x < 1) offs /\
  (N < 2048)%nat /\
  (offs = [] ->
   new_walsh_single_axis_sequence
     square_sin (mkKwargs (Some 1) None (Some 3%Z) None None None None None [])
   = Raise IndexError) /\
  (offs <> [] ->
   new_walsh_single_axis_sequence
     square_sin (mkKwargs (Some 1) None (Some 3%Z) None None None None None [])
   = Return (mkSequence 1 (0 :: offs ++ [1]) (0 :: repeat np_pi N ++ [0])
                        (0 :: repeat 0 N ++ [0]) (0 :: repeat 0 N ++ [0])
                        false (N + 2)%nat None)).
Proof.
  apply (walsh_sequence square_sin (Some 1) 3 None None); [reflexivity | lia].
Defined.

(* ================================================================= *)
(** * The Uhrig offsets *)

Lemma ramp_sin_bounds (x : Q) : 0 < x -> x < np_pi / 2 -> 0 < ramp_sin x /\ ramp_sin x < 1.
Proof.
  unfold ramp_sin. intros H0 H1.
  assert (Hpi : np_pi / 2 < 2) by reflexivity.
  split; [apply Qlt_shift_div_l; lra | apply Qlt_shift_div_r; lra].
Qed.

Lemma ramp_sin_increasing (x y : Q) :
  0 < x -> x < y -> y < np_pi / 2 -> ramp_sin x < ramp_sin y.
Proof.
  unfold ramp_sin. intros _ H _. unfold Qdiv. apply Qmult_lt_r; [reflexivity | assumption].
Qed.

Section UhrigOffsets.

Variable np_sin : Q -> Q.

(** What the statements below use of the sine: between [0] and
    [np.pi / 2] it lies between [0] and [1] and is increasing. *)
Hypothesis np_sin_bounds :
  forall x, 0 < x -> x < np_pi / 2 -> 0 < np_sin x /\ np_sin x < 1.
Hypothesis np_sin_increasing :
  forall x y, 0 < x -> x < y -> y < np_pi / 2 -> np_sin x < np_sin y.

(** The sine arguments of [_uhrig_single_axis_offsets]. *)
Lemma uhrig_argument (n k : Z) :
  (1 <= k <= n)%Z ->
  let x := np_pi * inject_Z k * (1 / inject_Z (2 * n + 2)) in
  0 < x /\ x < np_pi / 2.
Proof.
  intros Hk x.
  assert (Hpi : 0 < np_pi) by reflexivity.
  assert (Hn : 0 < inject_Z (2 * n + 2)) by (apply inject_Z_pos; lia).
  assert (Hk0 : 0 < inject_Z k) by (apply inject_Z_pos; lia).
  assert (Hk2 : 2 * inject_Z k < inject_Z (2 * n + 2)).
  { change 2 with (inject_Z 2). rewrite <- inject_Z_mult, <- Zlt_Qlt. lia. }
  assert (E : x == np_pi * (inject_Z k / inject_Z (2 * n + 2)))
    by (unfold x; field; lra).
  assert (H1 : 0 < inject_Z k / inject_Z (2 * n + 2)) by (apply Qlt_shift_div_l; lra).
  assert (H2 : inject_Z k / inject_Z (2 * n + 2) < 1 # 2) by (apply Qlt_shift_div_r; lra).
  rewrite E. split; [apply Qmult_lt_0_compat; assumption|].
  setoid_replace (np_pi / 2) with (np_pi * (1 # 2)) by (field; lra).
  apply Qmult_lt_l; assumption.
Qed.

Lemma uhrig_argument_increasing (n i j : Z) :
  (0 <= n)%Z -> (i < j)%Z ->
  np_pi * inject_Z i * (1 / inject_Z (2 * n + 2))
  < np_pi * inject_Z j * (1 / inject_Z (2 * n + 2)).
Proof.
  intros Hn Hij.
  assert (Hpi : 0 < np_pi) by reflexivity.
  assert (Hc : 0 < 1 / inject_Z (2 * n + 2)).
  { apply Qlt_shift_div_l; [apply inject_Z_pos; lia | lra]. }
  apply Qmult_lt_r; [assumption|]. apply Qmult_lt_l; [assumption|].
  rewrite <- Zlt_Qlt. assumption.
Qed.

Lemma square_increasing (a b : Q) : 0 < a -> a < b -> a ^ 2 < b ^ 2.
Proof.
  intros Ha Hab. change (a * a < b * b). 
  apply Qlt_trans with (a * b).
  - apply Qmult_lt_l; assumption.
  - apply Qmult_lt_r; [lra | assumption].
Qed.

Lemma square_bounds (a : Q) : 0 < a -> a < 1 -> 0 < a ^ 2 /\ a ^ 2 < 1.
Proof.
  intros Ha H1. change (0 < a * a /\ a * a < 1). split.
  - apply Qmult_lt_0_compat; assumption.
  - apply Qlt_trans with (a * 1); [apply Qmult_lt_l; assumption | lra].
Qed.

(** [_uhrig_single_axis_offsets]: for [n >= 1] and a positive duration it
    returns [n] strictly increasing offsets strictly between [0] and the
    duration, the [k]-th being [duration * sin(pi k / (2n + 2))^2]. *)
Lemma uhrig_single_axis_offsets_shape (d : Q) (n : Z) :
  0 < d -> (1 <= n)%Z ->
  let offs := _uhrig_single_axis_offsets np_sin d n in
  List.length offs = Z.to_nat n /\
  StronglySorted Qlt offs /\
  Forall (fun x => 0 < x /\ x < d) offs.
Proof.
  intros Hd Hn offs. unfold offs, _uhrig_single_axis_offsets. cbv zeta.
  rewrite map_map. split; [|split].
  - rewrite length_map, py_range_length. f_equal. lia.
  - apply (StronglySorted_map Z.lt); [|apply py_range_increasing].
    intros i j Hi Hj Hij. apply py_range_In in Hi, Hj.
    destruct (uhrig_argument n i) as [Hi0 Hi1]; [lia|].
    destruct (uhrig_argument n j) as [Hj0 Hj1]; [lia|].
    apply Qmult_lt_l; [assumption|].
    apply square_increasing.
    + now apply np_sin_bounds.
    + apply np_sin_increasing; try assumption.
      apply uhrig_argument_increasing; [lia | assumption].
  - apply Forall_map, Forall_forall. intros k Hk. apply py_range_In in Hk.
    destruct (uhrig_argument n k) as [H0 H1]; [lia|].
    destruct (np_sin_bounds _ H0 H1) as [Hs0 Hs1].
    destruct (square_bounds _ Hs0 Hs1) as [Hq0 Hq1].
    split; [apply Qmult_lt_0_compat; assumption|].
    setoid_replace d with (d * 1) at 2 by ring.
    apply Qmult_lt_l; assumption.
Qed.

End UhrigOffsets.

(** X19.  With a sine that lies between 0 and 1 and increases on
    [(0, np.pi / 2)], a positive duration [d] and [1 <= n <= 10000], the
    Uhrig generator returns [n] strictly increasing offsets strictly
    between the boundary offsets [0] and [d]; each of them carries a rabi
    rotation of [np.pi] about the axis of azimuthal angle [np.pi / 2].  For
    more than 10000 offsets the generator raises the argument-validation
    error. *)
Theorem uhrig_sequence
    (np_sin : Q -> Q) (dur : option Q) (n : Z) (ppr : option bool) (nm : option string) :
  let d := or_default dur 1 in
  let p := or_default ppr false in
  let b := boundary_rabi p in
  let kw := mkKwargs dur (Some n) None None None None ppr nm [] in
  let offs := _uhrig_single_axis_offsets np_sin d n in
  let N := Z.to_nat n in
  (forall x, 0 < x -> x < np_pi / 2 -> 0 < np_sin x /\ np_sin x < 1) ->
  (forall x y, 0 < x -> x < y -> y < np_pi / 2 -> np_sin x < np_sin y) ->
  0 < d -> (1 <= n)%Z ->
  List.length offs = N /\
  StronglySorted Qlt offs /\
  Forall (fun x => 0 < x /\ x < d) offs /\
  ((n <= UPPER_BOUND_OFFSETS)%Z ->
   new_uhrig_single_axis_sequence np_sin kw
   = Return (mkSequence d (0 :: offs ++ [d]) (b :: repeat np_pi N ++ [b])
                        (0 :: repeat (np_pi / 2) N ++ [0]) (0 :: repeat 0 N ++ [0])
                        p (N + 2)%nat nm)) /\
  ((UPPER_BOUND_OFFSETS < n)%Z ->
   is_ArgumentsValueError (new_uhrig_single_axis_sequence np_sin kw) = true).
Proof.
  intros d p b kw offs N Hb Hi Hd Hn.
  destruct (uhrig_single_axis_offsets_shape np_sin Hb Hi d n Hd Hn) as (HL & HS & HI).
  fold offs in HL, HS, HI. fold N in HL.
  split; [assumption|]. split; [assumption|]. split; [assumption|].
  assert (Hdb := proj2 (Qle_bool_false d 0) Hd).
  assert (Hnb : (n <=? 0)%Z = false) by (apply Z.leb_gt; lia).
  assert (Hcall : new_uhrig_single_axis_sequence np_sin kw
                  = new_sequence d (Some offs) (Some (repeat np_pi N))
                                   (Some (repeat (np_pi / 2) N)) (Some (repeat 0 N)) p nm).
  { unfold new_uhrig_single_axis_sequence, kw.
    cbn [kw_duration kw_number_of_offsets or_default]. fold d. rewrite Hdb, Hnb.
    fold offs. rewrite HL. unfold call_constructor. rewrite leftover_number_of_offsets.
    cbn [kw_pre_post_rotation kw_name]. fold p.
    rewrite !map_const_zeros. reflexivity. }
  rewrite Hcall. split.
  - intro Hle.
    assert (HL2 : (N + 2)%nat = List.length (0 :: offs ++ [d]))
      by (cbn [List.length]; rewrite length_app, HL; simpl; lia).
    rewrite HL2.
    apply new_sequence_interior; try assumption; rewrite ?repeat_length; try (symmetry; assumption).
    + intro E. rewrite E in HL. simpl in HL. lia.
    + rewrite HL. unfold N. lia.
  - intro Hgt. apply new_sequence_too_many; [assumption|]. rewrite HL. unfold N. lia.
Qed.

Lemma uhrig_sequence_witness :
  let offs := _uhrig_single_axis_offsets ramp_sin 1 2 in
  List.length offs = 2%nat /\
  StronglySorted Qlt offs /\
  Forall (fun x => 0 < x /\ x < 1) offs /\
  ((2 <= UPPER_BOUND_OFFSETS)%Z ->
   new_uhrig_single_axis_sequence
     ramp_sin (mkKwargs (Some 1) (Some 2%Z) None None None None None None [])
   = Return (mkSequence 1 (0 :: offs ++ [1]) (0 :: repeat np_pi 2 ++ [0])
                        (0 :: repeat (np_pi / 2) 2 ++ [0]) (0 :: repeat 0 2 ++ [0])
                        false 4%nat None)) /\
  ((UPPER_BOUND_OFFSETS < 2)%Z ->
   is_ArgumentsValueError
     (new_uhrig_single_axis_sequence
        ramp_sin (mkKwargs (Some 1) (Some 2%Z) None None None None None None [])) = true).
Proof.
  apply (uhrig_sequence ramp_sin (Some 1) 2 None None
                        ramp_sin_bounds ramp_sin_increasing);
    [reflexivity | lia].
Defined.

(* ================================================================= *)
(** * The quadratic generator *)

Lemma StronglySorted_app_Qlt (l1 l2 : list Q) :
  StronglySorted Qlt l1 -> StronglySorted Qlt l2 ->
  (forall x y, In x l1 -> In y l2 -> x < y) ->
  StronglySorted Qlt (l1 ++ l2).
Proof.
  intros H1 H2 H. induction H1 as [|x l1 H1 IH Hall]; [assumption|].
  cbn [app]. constructor.
  - apply IH. intros u v Hu Hv. apply H; [now right | assumption].
  - apply Forall_app. split; [assumption|].
    apply Forall_forall. intros y Hy. apply H; [now left | assumption].
Qed.

Lemma StronglySorted_nth_lt (l : list Q) :
  StronglySorted Qlt l ->
  forall i j, (i < j < List.length l)%nat -> nth i l 0 < nth j l 0.
Proof.
  induction 1 as [|x l Hs IH Hall]; intros i j Hij; [simpl in Hij; lia|].
  destruct j as [|j]; [lia|]. destruct i as [|i].
  - cbn [nth]. rewrite Forall_forall in Hall. apply Hall, nth_In. simpl in Hij. lia.
  - cbn [nth]. apply IH. simpl in Hij. lia.
Qed.

Lemma map_const_seq {A : Type} (c : A) (a n : nat) : map (fun _ => c) (seq a n) = repeat c n.
Proof.
  revert a. induction n as [|n IH]; intro a; [reflexivity|].
  cbn [seq map repeat]. now rewrite IH.
Qed.

Lemma concat_repeat_length {A : Type} (row : list A) (m : nat) :
  List.length (List.concat (repeat row m)) = (m * List.length row)%nat.
Proof.
  induction m as [|m IH]; [reflexivity|].
  cbn [repeat List.concat]. rewrite length_app, IH. simpl. lia.
Qed.

(** Rows that each lie in their own interval [(bound r, bound (r+1)]] of
    an increasing chain follow one another in increasing order. *)
Lemma concat_blocks_sorted (F : nat -> list Q) (bound : nat -> Q) (top len : nat) :
  (forall i j, (i < j <= top)%nat -> bound i < bound j) ->
  forall a, (a + len <= top)%nat ->
    (forall r, (a <= r < a + len)%nat ->
       StronglySorted Qlt (F r) /\
       Forall (fun x => bound r < x /\ x <= bound (S r)) (F r)) ->
    StronglySorted Qlt (List.concat (map F (seq a len))) /\
    Forall (fun x => bound a < x /\ x <= bound (a + len)%nat)
           (List.concat (map F (seq a len))).
Proof.
  intro Hb. induction len as [|len IH]; intros a Ha HF.
  - cbn. split; constructor.
  - cbn [seq map List.concat].
    destruct (HF a) as [Hs Hin]; [lia|].
    destruct (IH (S a)) as [IHs IHin]; [lia | intros r Hr; apply HF; lia |].
    replace (S a + len)%nat with (a + S len)%nat in IHin by lia.
    rewrite Forall_forall in Hin, IHin.
    assert (Hle : bound (S a) <= bound (a + S len)%nat).
    { destruct (Nat.eq_dec (S a) (a + S len)) as [E | E].
      - rewrite <- E. apply Qle_refl.
      - apply Qlt_le_weak, Hb. lia. }
    assert (Hlt : bound a < bound (S a)) by (apply Hb; lia).
    split.
    + apply StronglySorted_app_Qlt; try assumption.
      intros x y Hx Hy. specialize (Hin x Hx). specialize (IHin y Hy).
      cbv beta in Hin, IHin. lra.
    + apply Forall_app. split; apply Forall_forall; intros x Hx.
      * specialize (Hin x Hx). cbv beta in Hin. lra.
      * specialize (IHin x Hx). cbv beta in IHin. lra.
Qed.

(** The entry [j] of row [r] in the concatenation of rows of equal
    length. *)
Lemma nth_concat_rows (F : nat -> list Q) (w len : nat) (rest : list Q) :
  forall a r j,
    (forall i, (a <= i < a + len)%nat -> List.length (F i) = w) ->
    (r < len)%nat -> (j < w)%nat ->
    nth (r * w + j) (List.concat (map F (seq a len)) ++ rest) 0 = nth j (F (a + r)%nat) 0.
Proof.
  induction len as [|len IH]; intros a r j HF Hr Hj; [lia|].
  cbn [seq map List.concat]. rewrite <- app_assoc.
  destruct r as [|r].
  - cbn [Nat.mul Nat.add]. rewrite Nat.add_0_r.
    apply app_nth1. rewrite HF; lia.
  - rewrite app_nth2 by (rewrite HF; [simpl; lia | lia]).
    rewrite HF by lia.
    replace (S r * w + j - w)%nat with (r * w + j)%nat by (simpl; lia).
    rewrite IH; [|intros i Hi; apply HF; lia | lia | assumption].
    f_equal. f_equal. lia.
Qed.

Lemma leftover_inner_outer (dur : option Q) (n_in n_out : option Z) (ppr : option bool)
    (nm : option string) :
  leftover_keywords [KwNumberInner; KwNumberOuter]
                    (mkKwargs dur None None n_in n_out None ppr nm []) = false.
Proof. unfold leftover_keywords. destruct n_in, n_out; reflexivity. Qed.

Lemma uhrig_single_axis_offsets_length (np_sin : Q -> Q) (d : Q) (n : Z) :
  List.length (_uhrig_single_axis_offsets np_sin d n) = Z.to_nat n.
Proof.
  unfold _uhrig_single_axis_offsets. rewrite !length_map, py_range_length. f_equal. lia.
Qed.

(** Dropping the last entry of the flattened rows [0 .. m]. *)
Lemma drop_last_rows {A : Type} (G G' : nat -> list A) (m : nat) (body : list A) (x : A) :
  (forall r, (r < m)%nat -> G r = G' r) -> G m = body ++ [x] ->
  drop_last 1 (List.concat (map G (seq 0 (S m)))) = List.concat (map G' (seq 0 m)) ++ body.
Proof.
  intros H1 H2. rewrite seq_S, map_app, concat_app. cbn [Nat.add map List.concat].
  rewrite app_nil_r, H2, app_assoc, drop_last_snoc. f_equal. f_equal.
  apply map_ext_in. intros r Hr. apply in_seq in Hr. apply H1. lia.
Qed.

(** X20.  With a sine that lies between 0 and 1 and increases on
    [(0, np.pi / 2)], a positive duration [d], [n_in >= 1] inner and
    [n_out >= 1] outer offsets, at most 10000 offsets in all, the quadratic
    generator returns [(n_out + 1) * (n_in + 1) - 1] strictly increasing
    offsets strictly between the boundary offsets [0] and [d].  They come
    in [n_out] groups of [n_in] detuning rotations of [np.pi] closed by one
    rabi rotation of [np.pi], followed by [n_in] more detuning rotations;
    the rabi rotations sit at the Uhrig offsets of the whole duration, and
    no azimuthal angle is set. *)
Theorem quadratic_sequence
    (np_sin : Q -> Q) (dur : option Q) (n_in n_out : Z) (ppr : option bool)
    (nm : option string) :
  let d := or_default dur 1 in
  let p := or_default ppr false in
  let b := boundary_rabi p in
  let kw := mkKwargs dur None None (Some n_in) (Some n_out) None ppr nm [] in
  let k := Z.to_nat n_in in
  let m := Z.to_nat n_out in
  let N := (m * (k + 1) + k)%nat in
  let rabi := List.concat (repeat (np_zeros k ++ [np_pi]) m) ++ np_zeros k in
  let det := List.concat (repeat (repeat np_pi k ++ [0]) m) ++ repeat np_pi k in
  (forall x, 0 < x -> x < np_pi / 2 -> 0 < np_sin x /\ np_sin x < 1) ->
  (forall x y, 0 < x -> x < y -> y < np_pi / 2 -> np_sin x < np_sin y) ->
  0 < d -> (1 <= n_in)%Z -> (1 <= n_out)%Z ->
  ((n_out + 1) * (n_in + 1) - 1 <= UPPER_BOUND_OFFSETS)%Z ->
  exists offs,
    new_quadratic_sequence np_sin kw
    = Return (mkSequence d (0 :: offs ++ [d]) (b :: rabi ++ [b])
                         (0 :: repeat 0 N ++ [0]) (0 :: det ++ [0])
                         p (N + 2)%nat nm) /\
    Z.of_nat N = ((n_out + 1) * (n_in + 1) - 1)%Z /\
    List.length offs = N /\ List.length rabi = N /\ List.length det = N /\
    StronglySorted Qlt offs /\
    Forall (fun x => 0 < x /\ x < d) offs /\
    forall r, (r < m)%nat ->
      nth (r * (k + 1) + k) offs 0 = nth r (_uhrig_single_axis_offsets np_sin d n_out) 0.
Proof.
  intros d p b kw k m N rabi det Hb Hi Hd Hin Hout Hmax.
  set (U := _uhrig_single_axis_offsets np_sin d n_out).
  destruct (uhrig_single_axis_offsets_shape np_sin Hb Hi d n_out Hd Hout) as (HUl & HUs & HUi).
  fold U in HUl, HUs, HUi. fold m in HUl.
  set (O := 0 :: U ++ [d]).
  set (bound := fun r => nth r O 0).
  assert (HOs : StronglySorted Qlt O).
  { unfold O. constructor.
    - apply StronglySorted_app_Qlt; [assumption | repeat constructor |].
      intros x y Hx [<- | []]. rewrite Forall_forall in HUi. now apply HUi.
    - apply Forall_app. split.
      + eapply Forall_impl; [|exact HUi]. now intros x [H _].
      + now repeat constructor. }
  assert (HOl : List.length O = (m + 2)%nat)
    by (unfold O; cbn [List.length]; rewrite length_app, HUl; cbn [List.length]; lia).
  assert (Hbound : forall i j, (i < j <= m + 1)%nat -> bound i < bound j).
  { intros i j Hij. apply StronglySorted_nth_lt; [assumption | rewrite HOl; lia]. }
  assert (Hb0 : bound 0%nat = 0) by reflexivity.
  assert (Hbd : bound (m + 1)%nat = d).
  { unfold bound, O. replace (m + 1)%nat with (S m) by lia. cbn [nth].
    rewrite <- HUl. now rewrite nth_middle. }
  assert (Hstarts : drop_last 1 O = 0 :: U)
    by (unfold O; change (0 :: U ++ [d]) with ((0 :: U) ++ [d]); apply drop_last_snoc).
  assert (Hstart : forall r, (r <= m)%nat -> nth r (0 :: U) 0 = bound r).
  { intros r Hr. unfold bound, O. change (0 :: U ++ [d]) with ((0 :: U) ++ [d]).
    symmetry. apply app_nth1. cbn [List.length]. rewrite HUl. lia. }
  set (durations := map (fun se : Q * Q => snd se - fst se) (combine (0 :: U) (U ++ [d]))).
  assert (Hdl : List.length durations = S m).
  { unfold durations. rewrite length_map, length_combine. cbn [List.length].
    rewrite length_app, HUl. cbn [List.length]. lia. }
  assert (Hdur : forall r, (r <= m)%nat -> nth r durations 0 = bound (S r) - bound r).
  { intros r Hr. unfold durations.
    rewrite (nth_map_within _ _ _ (0, 0)).
    2: { rewrite length_combine. cbn [List.length]. rewrite length_app, HUl. cbn [List.length]. lia. }
    rewrite combine_nth by (cbn [List.length]; rewrite length_app, HUl; cbn [List.length]; lia).
    cbn [fst snd]. now rewrite Hstart. }
  set (inner := fun r =>
                  map (fun x => x + nth r (0 :: U) 0)
                      (_uhrig_single_axis_offsets np_sin (nth r durations 0) n_in)).
  assert (Hinner : forall r, (r <= m)%nat ->
            List.length (inner r) = k /\
            StronglySorted Qlt (inner r) /\
            Forall (fun x => bound r < x /\ x < bound (S r)) (inner r)).
  { intros r Hr. unfold inner. rewrite (Hdur r Hr), (Hstart r Hr).
    assert (Hpos : 0 < bound (S r) - bound r).
    { assert (bound r < bound (S r)) by (apply Hbound; lia). lra. }
    destruct (uhrig_single_axis_offsets_shape np_sin Hb Hi _ n_in Hpos Hin)
      as (Hl & Hs & Hint).
    split; [now rewrite length_map|]. split.
    - apply (StronglySorted_map Qlt); [|assumption]. intros x y _ _ Hxy. lra.
    - apply Forall_map. eapply Forall_impl; [|exact Hint]. intros x Hx.
      cbv beta in Hx |- *. lra. }
  set (F := fun r => inner r ++ [bound (S r)]).
  set (offs := List.concat (map F (seq 0 m)) ++ inner m).
  assert (HF : forall r, (r < m)%nat ->
            List.length (F r) = (k + 1)%nat /\
            StronglySorted Qlt (F r) /\
            Forall (fun x => bound r < x /\ x <= bound (S r)) (F r)).
  { intros r Hr. destruct (Hinner r) as (Hl & Hs & Hint); [lia|]. unfold F.
    split; [rewrite length_app, Hl; reflexivity|]. split.
    - apply StronglySorted_app_Qlt; [assumption | repeat constructor |].
      intros x y Hx [<- | []]. rewrite Forall_forall in Hint. now apply Hint.
    - apply Forall_app. split.
      + eapply Forall_impl; [|exact Hint]. intros x Hx. cbv beta in Hx |- *.
        split; [tauto | apply Qlt_le_weak; tauto].
      + constructor; [|constructor]. split; [apply Hbound; lia | apply Qle_refl]. }
  destruct (concat_blocks_sorted F bound (m + 1) m Hbound 0) as [Hcs Hci];
    [lia | intros r Hr; apply HF; lia |].
  cbn [Nat.add] in Hci.
  destruct (Hinner m) as (Hlm & Hsm & Him); [lia|].
  replace (S m) with (m + 1)%nat in Him by lia. rewrite Hbd in Him.
  assert (Hbm : bound m < d) by (rewrite <- Hbd; apply Hbound; lia).
  assert (Hbm0 : 0 <= bound m).
  { destruct m as [|m']; [rewrite Hb0; apply Qle_refl|].
    rewrite <- Hb0. apply Qlt_le_weak, Hbound. lia. }
  assert (Hsorted : StronglySorted Qlt offs).
  { unfold offs. apply StronglySorted_app_Qlt; try assumption.
    intros x y Hx Hy. rewrite Forall_forall in Hci, Him.
    specialize (Hci x Hx). specialize (Him y Hy). cbv beta in Hci, Him. lra. }
  assert (Hinterior : Forall (fun x => 0 < x /\ x < d) offs).
  { unfold offs. apply Forall_app. split.
    - eapply Forall_impl; [|exact Hci]. intros x Hx. cbv beta in Hx |- *.
      rewrite Hb0 in Hx. lra.
    - eapply Forall_impl; [|exact Him]. intros x Hx. cbv beta in Hx |- *. lra. }
  assert (Hlen : List.length offs = N).
  { unfold offs, N. rewrite length_app, Hlm. f_equal.
    assert (forall len a, (forall r, (a <= r < a + len)%nat ->
                                     List.length (F r) = (k + 1)%nat) ->
                          List.length (List.concat (map F (seq a len)))
                          = (len * (k + 1))%nat) as Hgen.
    { induction len as [|len IH]; intros a' H'; [reflexivity|].
      cbn [seq map List.concat]. rewrite length_app, H', IH; [simpl; lia | | lia].
      intros r Hr. apply H'. lia. }
    apply Hgen. intros r Hr. apply HF. lia. }
  assert (Hrl : List.length rabi = N).
  { unfold rabi, N. rewrite length_app, concat_repeat_length, length_app.
    unfold np_zeros. rewrite repeat_length. cbn [List.length]. lia. }
  assert (Hzl : List.length det = N).
  { unfold det, N. rewrite length_app, concat_repeat_length, length_app, !repeat_length.
    cbn [List.length]. lia. }
  exists offs.
  split; [|split; [|split; [|split; [|split; [|split; [|split]]]]]];
    try assumption.
  - assert (Hdb := proj2 (Qle_bool_false d 0) Hd).
    assert (Hinb : (n_in <=? 0)%Z = false) by (apply Z.leb_gt; lia).
    assert (Houtb : (n_out <=? 0)%Z = false) by (apply Z.leb_gt; lia).
    unfold new_quadratic_sequence, kw.
    cbn [kw_duration kw_number_inner_offsets kw_number_outer_offsets or_default].
    fold d. rewrite Hdb, Hinb, Houtb. cbv zeta. fold U. fold O. fold k. fold m.
    rewrite Hstarts. change (tl O) with (U ++ [d]). fold durations. rewrite Hdl.
    assert (Hmm : (m <? m)%nat = false) by apply Nat.ltb_irrefl.
    rewrite (drop_last_rows _ F m (inner m) 0).
    2: { intros r Hr. apply Nat.ltb_lt in Hr. rewrite Hr. reflexivity. }
    2: { rewrite Hmm. reflexivity. }
    rewrite (drop_last_rows _ (fun _ => np_zeros k ++ [np_pi]) m (np_zeros k) 0).
    2: { intros r Hr. apply Nat.ltb_lt in Hr. rewrite Hr. reflexivity. }
    2: { rewrite Hmm. reflexivity. }
    rewrite (drop_last_rows _ (fun _ => repeat np_pi k ++ [0]) m (repeat np_pi k) 0).
    2: { intros r Hr. assert (Hr' : (r <? m + 1)%nat = true) by (apply Nat.ltb_lt; lia).
         rewrite Hr'. reflexivity. }
    2: { assert (Hr' : (m <? m + 1)%nat = true) by (apply Nat.ltb_lt; lia).
         rewrite Hr'. reflexivity. }
    rewrite !map_const_seq. fold offs rabi det. rewrite Hlen.
    unfold call_constructor. rewrite leftover_inner_outer.
    cbn [kw_pre_post_rotation kw_name]. fold p.
    assert (HL2 : (N + 2)%nat = List.length (0 :: offs ++ [d]))
      by (cbn [List.length]; rewrite length_app, Hlen; cbn [List.length]; lia).
    rewrite HL2. unfold np_zeros at 1.
    apply new_sequence_interior; try assumption.
    + intro E. rewrite E in Hlen. unfold N in Hlen. cbn [List.length] in Hlen. lia.
    + rewrite Hlen. unfold N, k, m. nia.
    + now rewrite Hrl, Hlen.
    + now rewrite repeat_length, Hlen.
    + now rewrite Hzl, Hlen.
  - unfold N, k, m. nia.
  - intros r Hr. unfold offs.
    rewrite (nth_concat_rows F (k + 1) m (inner m) 0 r k);
      [| intros i Hi0; apply HF; lia | assumption | lia].
    cbn [Nat.add]. unfold F. destruct (Hinner r) as (Hl & _ & _); [lia|].
    rewrite <- Hl at 1. rewrite nth_middle. unfold bound, O. cbn [nth].
    apply app_nth1. rewrite HUl. assumption.
Qed.

Lemma quadratic_sequence_witness :
  let rabi := List.concat (repeat (np_zeros 2 ++ [np_pi]) 1) ++ np_zeros 2 in
  let det := List.concat (repeat (repeat np_pi 2 ++ [0]) 1) ++ repeat np_pi 2 in
  exists offs,
    new_quadratic_sequence
      ramp_sin (mkKwargs (Some 1) None None (Some 2%Z) (Some 1%Z) None None None [])
    = Return (mkSequence 1 (0 :: offs ++ [1]) (0 :: rabi ++ [0])
                         (0 :: repeat 0 5 ++ [0]) (0 :: det ++ [0])
                         false 7%nat None) /\
    Z.of_nat 5 = ((1 + 1) * (2 + 1) - 1)%Z /\
    List.length offs = 5%nat /\ List.length rabi = 5%nat /\ List.length det = 5%nat /\
    StronglySorted Qlt offs /\
    Forall (fun x => 0 < x /\ x < 1) offs /\
    forall r, (r < 1)%nat ->
      nth (r * (2 + 1) + 2) offs 0 = nth r (_uhrig_single_axis_offsets ramp_sin 1 1) 0.
Proof.
  apply (quadratic_sequence ramp_sin (Some 1) 2 1 None None
                            ramp_sin_bounds ramp_sin_increasing);
    [reflexivity | lia | lia | unfold UPPER_BOUND_OFFSETS; lia].
Defined.

(* ================================================================= *)
(** * The XY-concatenated generator as a whole *)

Lemma time_steps_app (X Y : list Z) : time_steps (X ++ Y) = (time_steps X + time_steps Y)%nat.
Proof. unfold time_steps. now rewrite filter_app, length_app. Qed.

Lemma time_steps_firstn (k : nat) (X : list Z) : (time_steps (firstn k X) <= time_steps X)%nat.
Proof.
  rewrite <- (firstn_skipn k X) at 2. rewrite time_steps_app. lia.
Qed.

Lemma time_steps_drop_last (k : nat) (X : list Z) :
  (time_steps (drop_last k X) <= time_steps X)%nat.
Proof. apply time_steps_firstn. Qed.

Lemma time_steps_set_last (X : list Z) :
  (time_steps (set_last X (-3)%Z) <= time_steps X)%nat.
Proof.
  unfold set_last. destruct X as [|x X]; [lia|].
  rewrite time_steps_app, removelast_firstn_len.
  pose proof (time_steps_firstn (Nat.pred (List.length (x :: X))) (x :: X)).
  change (time_steps [(-3)%Z]) with 0%nat. lia.
Qed.

Lemma time_steps_xy_step (previous : list Z) :
  (time_steps (_concatenation_xy_step previous) <= 4 * time_steps previous)%nat.
Proof.
  unfold _concatenation_xy_step.
  set (c1 := drop_last 1 (previous ++ [(-1)%Z])).
  set (c2 := set_last c1 (-3)%Z).
  set (c3 := drop_last 2 (c2 ++ previous ++ [(-2)%Z])).
  set (c4 := drop_last 1 (c3 ++ previous ++ [(-1)%Z])).
  set (c5 := set_last c4 (-3)%Z).
  set (c6 := c5 ++ previous ++ [(-2)%Z]).
  assert (H1 : (time_steps c1 <= time_steps previous)%nat).
  { unfold c1. rewrite drop_last_snoc. lia. }
  assert (H2 : (time_steps c2 <= time_steps previous)%nat).
  { unfold c2. pose proof (time_steps_set_last c1). lia. }
  assert (H3 : (time_steps c3 <= 2 * time_steps previous)%nat).
  { unfold c3. pose proof (time_steps_drop_last 2 (c2 ++ previous ++ [(-2)%Z])) as H.
    rewrite !time_steps_app in H. change (time_steps [(-2)%Z]) with 0%nat in H. lia. }
  assert (H4 : (time_steps c4 <= 3 * time_steps previous)%nat).
  { unfold c4. pose proof (time_steps_drop_last 1 (c3 ++ previous ++ [(-1)%Z])) as H.
    rewrite !time_steps_app in H. change (time_steps [(-1)%Z]) with 0%nat in H. lia. }
  assert (H5 : (time_steps c5 <= 3 * time_steps previous)%nat).
  { unfold c5. pose proof (time_steps_set_last c4). lia. }
  assert (H6 : (time_steps c6 <= 4 * time_steps previous)%nat).
  { unfold c6. rewrite !time_steps_app. change (time_steps [(-2)%Z]) with 0%nat. lia. }
  destruct (_ && _); [|assumption].
  pose proof (time_steps_drop_last 2 c6). lia.
Qed.

(** The pattern of order [n] takes at most [4^n] unit steps. *)
Lemma time_steps_xy (n : positive) :
  (Z.of_nat (time_steps (_concatenation_xy n)) <= 4 ^ Z.pos n)%Z.
Proof.
  induction n as [|n IH] using Pos.peano_ind.
  - vm_compute. discriminate.
  - rewrite _concatenation_xy_succ, Pos2Z.inj_succ, Z.pow_succ_r by lia.
    pose proof (time_steps_xy_step (_concatenation_xy n)). lia.
Qed.

(** Every pattern begins with a unit step. *)
Lemma drop_last_length {A : Type} (k : nat) (l : list A) :
  List.length (drop_last k l) = (List.length l - k)%nat.
Proof. unfold drop_last. rewrite length_firstn. lia. Qed.

Lemma hd_drop_last (k : nat) (l : list Z) :
  (k < List.length l)%nat -> hd 0%Z (drop_last k l) = hd 0%Z l.
Proof.
  unfold drop_last. intro H. destruct l as [|x l]; [simpl in H; lia|].
  destruct (List.length (x :: l) - k)%nat eqn:E; [lia | reflexivity].
Qed.

Lemma set_last_length {A : Type} (l : list A) (v : A) :
  List.length (set_last l v) = List.length l.
Proof.
  unfold set_last. destruct l as [|x l]; [reflexivity|].
  rewrite length_app, removelast_firstn_len, length_firstn. simpl. lia.
Qed.

Lemma hd_set_last (l : list Z) (v : Z) :
  (2 <= List.length l)%nat -> hd 0%Z (set_last l v) = hd 0%Z l.
Proof.
  destruct l as [|x [|y l]]; simpl; try lia.
Qed.

Lemma hd_app (l1 l2 : list Z) : l1 <> [] -> hd 0%Z (l1 ++ l2) = hd 0%Z l1.
Proof. destruct l1; [congruence | reflexivity]. Qed.

Lemma _concatenation_xy_head (n : positive) :
  hd 0%Z (_concatenation_xy n) = 1%Z /\ (2 <= List.length (_concatenation_xy n))%nat.
Proof.
  induction n as [|n [Hh Hl]] using Pos.peano_ind.
  - split; [reflexivity | simpl; lia].
  - rewrite _concatenation_xy_succ. unfold _concatenation_xy_step.
    set (prev := _concatenation_xy n) in *.
    rewrite drop_last_snoc.
    set (c2 := set_last prev (-3)%Z).
    assert (L2 : List.length c2 = List.length prev) by apply set_last_length.
    assert (G2 : hd 0%Z c2 = 1%Z) by (unfold c2; rewrite hd_set_last; assumption).
    set (c3 := drop_last 2 (c2 ++ prev ++ [(-2)%Z])).
    assert (L3 : List.length c3 = (2 * List.length prev - 1)%nat).
    { unfold c3. rewrite drop_last_length, !length_app, L2. simpl. lia. }
    assert (G3 : hd 0%Z c3 = 1%Z).
    { unfold c3. rewrite hd_drop_last by (rewrite !length_app; simpl; lia).
      rewrite hd_app; [assumption|]. intro E. rewrite E in L2. simpl in L2. lia. }
    set (c4 := drop_last 1 (c3 ++ prev ++ [(-1)%Z])).
    assert (L4 : List.length c4 = (3 * List.length prev - 1)%nat).
    { unfold c4. rewrite drop_last_length, !length_app, L3. simpl. lia. }
    assert (G4 : hd 0%Z c4 = 1%Z).
    { unfold c4. rewrite hd_drop_last by (rewrite !length_app; simpl; lia).
      rewrite hd_app; [assumption|]. intro E. rewrite E in L3. simpl in L3. lia. }
    set (c5 := set_last c4 (-3)%Z).
    assert (L5 : List.length c5 = List.length c4) by apply set_last_length.
    assert (G5 : hd 0%Z c5 = 1%Z) by (unfold c5; rewrite hd_set_last; [assumption | lia]).
    set (c6 := c5 ++ prev ++ [(-2)%Z]).
    assert (L6 : List.length c6 = (4 * List.length prev)%nat).
    { unfold c6. rewrite !length_app, L5, L4. simpl. lia. }
    assert (G6 : hd 0%Z c6 = 1%Z).
    { unfold c6. rewrite hd_app; [assumption|]. intro E. rewrite E in L5. simpl in L5. lia. }
    destruct (_ && _).
    + rewrite hd_drop_last, drop_last_length by lia. split; [assumption | lia].
    + split; [assumption | lia].
Qed.

Lemma azimuthal_stream_time (u acc : Q) (X : list Z) :
  fold_left Qplus (stream_steps (-1) (-3) (-2) u X) acc
  == acc + inject_Z (Z.of_nat (time_steps X)) * u.
Proof.
  revert acc. unfold stream_steps, time_steps.
  induction X as [|c X IH]; intro acc; [simpl; ring|].
  stream_time_step IH c.
Qed.

(** The offsets of a stream lie between the first unit step and the time
    the whole pattern takes. *)
Lemma stream_offsets_range (drop1 drop2 pulse : Z) (u : Q) (X : list Z) (q : Q) :
  0 < u -> hd 0%Z X = 1%Z ->
  drop1 <> 1%Z -> drop2 <> 1%Z -> pulse <> 1%Z ->
  (forall acc, fold_left Qplus (stream_steps drop1 drop2 pulse u X) acc
               == acc + inject_Z (Z.of_nat (time_steps X)) * u) ->
  In q (stream_offsets drop1 drop2 pulse u X) ->
  u <= q /\ q <= inject_Z (Z.of_nat (time_steps X)) * u.
Proof.
  intros Hu Hh N1 N2 N3 Htime Hq.
  rewrite stream_offsets_steps in Hq.
  apply in_even_count_values in Hq as [(x & Hx & Ex) _].
  destruct X as [|c X']; [discriminate|]. cbn [hd] in Hh. subst c.
  pose proof (Htime 0) as Ht.
  pose proof (stream_steps_nonneg drop1 drop2 pulse u (1%Z :: X') Hu) as Hnn.
  unfold stream_steps in Hx, Ht, Hnn. cbn [filter] in Hx, Ht, Hnn.
  apply Z.eqb_neq in N1, N2, N3.
  rewrite Z.eqb_sym in N1, N2, N3.
  rewrite N1 in Hx, Ht, Hnn. cbn [negb filter] in Hx, Ht, Hnn.
  rewrite N2 in Hx, Ht, Hnn. cbn [negb map] in Hx, Ht, Hnn.
  rewrite N3 in Hx, Ht, Hnn. cbn [negb np_cumsum fold_left] in Hx, Ht, Hnn.
  fold (stream_steps drop1 drop2 pulse u X') in Hx, Ht, Hnn.
  inversion Hnn as [|? ? _ Hnn']; subst.
  assert (Ht' : fold_left Qplus (stream_steps drop1 drop2 pulse u X') (1 * u)
                == inject_Z (Z.of_nat (time_steps (1%Z :: X'))) * u).
  { transitivity (fold_left Qplus (stream_steps drop1 drop2 pulse u X') (0 + 1 * u)).
    - apply fold_left_Qplus_compat. ring.
    - rewrite Ht. ring. }
  rewrite <- Ex, <- Ht'.
  destruct Hx as [<- | Hx].
  - split; [lra|]. now apply fold_left_Qplus_lower.
  - pose proof (cumsum_from_lower_bound (1 * u) _ Hnn') as Hlow.
    pose proof (cumsum_from_upper_bound (1 * u) _ Hnn') as Hup.
    rewrite Forall_forall in Hlow, Hup.
    specialize (Hlow x Hx). specialize (Hup x Hx). cbv beta in Hlow, Hup.
    split; [lra | assumption].
Qed.

(** Every offset of the three streams of the XY pattern lies in
    [(0, duration]]. *)
Lemma xy_stream_offsets_range (d : Q) (n : positive) :
  0 < d ->
  Forall (fun x => 0 < x /\ x <= d) (xy_rabi_offsets d n) /\
  Forall (fun x => 0 < x /\ x <= d) (xy_azimuthal_offsets d n) /\
  Forall (fun x => 0 < x /\ x <= d) (xy_detuning_offsets d n).
Proof.
  intro Hd. unfold xy_rabi_offsets, xy_azimuthal_offsets, xy_detuning_offsets.
  set (u := d / inject_Z (2 ^ (Z.pos n * 2))).
  assert (Hu : 0 < u) by (apply unit_spacing_pos; [assumption | lia]).
  destruct (_concatenation_xy_head n) as [Hh _].
  pose proof (time_steps_xy n) as HT.
  set (T := time_steps (_concatenation_xy n)) in *.
  assert (Hpow : (2 ^ (Z.pos n * 2) = 4 ^ Z.pos n)%Z).
  { rewrite Z.mul_comm, Z.pow_mul_r by lia. reflexivity. }
  assert (Hp4 : (0 < 4 ^ Z.pos n)%Z) by (apply Z.pow_pos_nonneg; lia).
  assert (Htop : inject_Z (Z.of_nat T) * u <= d).
  { unfold u. rewrite Hpow.
    assert (H4 : 0 < inject_Z (4 ^ Z.pos n)) by now apply inject_Z_pos.
    assert (HTq : inject_Z (Z.of_nat T) <= inject_Z (4 ^ Z.pos n)) by now rewrite <- Zle_Qle.
    setoid_replace (inject_Z (Z.of_nat T) * (d / inject_Z (4 ^ Z.pos n)))
      with (inject_Z (Z.of_nat T) / inject_Z (4 ^ Z.pos n) * d) by (field; lra).
    assert (Hr : inject_Z (Z.of_nat T) / inject_Z (4 ^ Z.pos n) <= 1)
      by (apply Qle_shift_div_r; lra).
    setoid_replace d with (1 * d) at 2 by ring.
    apply Qmult_le_compat_r; lra. }
  repeat split; apply Forall_forall; intros q Hq.
  all: eapply stream_offsets_range in Hq;
    [ | assumption | assumption | discriminate | discriminate | discriminate
      | first [ intro acc; apply rabi_stream_time
              | intro acc; apply azimuthal_stream_time
              | intro acc; apply detuning_stream_time ] ].
  all: fold T in Hq; lra.
Qed.

(** An even count is at least two: the values [np.unique] reports with an
    even count are at most half as many as the entries. *)
Lemma group_counts_sum (l : list Q) :
  list_sum (map snd (group_counts l)) = List.length l.
Proof.
  induction l as [|x l IH]; [reflexivity|]. cbn [group_counts List.length].
  rewrite <- IH. destruct (group_counts l) as [|[y c] g]; [reflexivity|].
  destruct (Qeq_bool x y); reflexivity.
Qed.

Lemma group_counts_positive (l : list Q) :
  Forall (fun vc => (1 <= snd vc)%nat) (group_counts l).
Proof.
  induction l as [|x l IH]; [constructor|]. cbn [group_counts].
  destruct (group_counts l) as [|[y c] g]; [repeat constructor|].
  inversion IH as [|? ? Hc Hg]; subst.
  destruct (Qeq_bool x y); repeat constructor; simpl in *; try lia; try assumption.
Qed.

Lemma even_counts_half (g : list (Q * nat)) :
  Forall (fun vc => (1 <= snd vc)%nat) g ->
  (2 * List.length (filter (fun vc => Nat.even (snd vc)) g) <= list_sum (map snd g))%nat.
Proof.
  induction 1 as [|[v c] g Hc _ IH]; [simpl; lia|].
  cbn [filter map snd] in *.
  change (list_sum (c :: map snd g)) with (c + list_sum (map snd g))%nat.
  destruct (Nat.even c) eqn:E; [|lia].
  destruct c as [|[|c]]; [lia | discriminate |]. cbn [List.length]. lia.
Qed.

Lemma even_count_values_half (l : list Q) :
  (2 * List.length (even_count_values (np_unique l)) <= List.length l)%nat.
Proof.
  rewrite even_count_values_unique, length_map.
  eapply Nat.le_trans; [apply even_counts_half, group_counts_positive|].
  now rewrite group_counts_sum, np_sort_length.
Qed.

Lemma stream_offsets_half (drop1 drop2 pulse : Z) (u : Q) (X : list Z) :
  (2 * List.length (stream_offsets drop1 drop2 pulse u X)
   <= List.length (filter (fun c => negb (c =? drop2)%Z)
                          (filter (fun c => negb (c =? drop1)%Z) X)))%nat.
Proof.
  rewrite stream_offsets_steps.
  eapply Nat.le_trans; [apply even_count_values_half|].
  rewrite np_cumsum_length. unfold stream_steps. now rewrite !length_map.
Qed.

(** Up to concatenation order 6 the three streams hold at most 10000
    offsets. *)
Lemma xy_offsets_count (d : Q) (n : positive) :
  (Z.pos n <= 6)%Z ->
  (Z.of_nat (List.length (xy_rabi_offsets d n) + List.length (xy_azimuthal_offsets d n)
             + List.length (xy_detuning_offsets d n)) <= UPPER_BOUND_OFFSETS)%Z.
Proof.
  intro Hn. unfold xy_rabi_offsets, xy_azimuthal_offsets, xy_detuning_offsets.
  set (u := d / inject_Z (2 ^ (Z.pos n * 2))).
  set (X := _concatenation_xy n).
  pose proof (stream_offsets_half (-2) (-3) (-1) u X) as HR.
  pose proof (stream_offsets_half (-1) (-3) (-2) u X) as HA.
  pose proof (stream_offsets_half (-2) (-1) (-3) u X) as HD.
  assert (Hc : (Z.of_nat
                  (List.length (filter (fun c => negb (c =? -3)%Z)
                                       (filter (fun c => negb (c =? -2)%Z) X))
                   + List.length (filter (fun c => negb (c =? -3)%Z)
                                         (filter (fun c => negb (c =? -1)%Z) X))
                   + List.length (filter (fun c => negb (c =? -1)%Z)
                                         (filter (fun c => negb (c =? -2)%Z) X)))
                <= 20000)%Z).
  { unfold X.
    assert (Hcases : n = 1%positive \/ n = 2%positive \/ n = 3%positive \/
                     n = 4%positive \/ n = 5%positive \/ n = 6%positive) by lia.
    destruct Hcases as [-> | [-> | [-> | [-> | [-> | ->]]]]];
      apply Z.leb_le; vm_compute; reflexivity. }
  unfold UPPER_BOUND_OFFSETS. lia.
Qed.

(** The offsets array of the XY-concatenated generator holds the offsets of
    its three streams, once each. *)
Lemma xy_offsets_permutation (d : Q) (concatenation_order : positive) :
  0 < d ->
  Permutation (xy_offsets (xy_concatenated_arrays d concatenation_order))
              ((xy_rabi_offsets d concatenation_order
                ++ xy_azimuthal_offsets d concatenation_order)
               ++ xy_detuning_offsets d concatenation_order).
Proof.
  intro Hd.
  set (R := xy_rabi_offsets d concatenation_order).
  set (A := xy_azimuthal_offsets d concatenation_order).
  set (D := xy_detuning_offsets d concatenation_order).
  set (merged := xy_merged R A D).
  assert (HR : StronglySorted Qle R)
    by apply StronglySorted_Qlt_Qle, even_count_values_increasing.
  assert (HA : StronglySorted Qle A)
    by apply StronglySorted_Qlt_Qle, even_count_values_increasing.
  assert (HD : StronglySorted Qle D)
    by apply StronglySorted_Qlt_Qle, even_count_values_increasing.
  destruct (merge_rabi_azimuthal_offsets
              (List.length R + List.length A) R A []
              (np_zeros (List.length R + List.length A + List.length D))
              (mkXY (np_zeros (List.length R + List.length A + List.length D))
                    (np_zeros (List.length R + List.length A + List.length D))
                    (np_zeros (List.length R + List.length A + List.length D))
                    (np_zeros (List.length R + List.length A + List.length D))))
    as (M & EM & PM & SM); try assumption; try reflexivity.
  1: { unfold np_zeros. rewrite repeat_length. lia. }
  rewrite skipn_np_zeros in EM. cbn [List.length app] in EM.
  fold (xy_merged R A D) in EM. fold merged in EM.
  unfold xy_concatenated_arrays. fold R A D merged.
  unfold xy_with_detuning.
  destruct D as [|d0 D'] eqn:ED.
  - rewrite EM. cbn [np_zeros repeat List.length]. rewrite !app_nil_r. assumption.
  - rewrite <- ED in *.
    destruct (rabi_offset_after_shape d concatenation_order Hd) as (q & Hq & Hbound).
    fold R in Hq. fold D in Hbound.
    assert (Hlen : List.length (xy_offsets merged) = (List.length M + List.length D)%nat).
    { rewrite EM, length_app. unfold np_zeros. now rewrite repeat_length. }
    rewrite Hlen.
    destruct (insert_detuning_offsets (List.length M + List.length D)
                M D [] D 0 merged) as (F & EF & PF & SF);
      try assumption; try reflexivity.
    { rewrite ED. discriminate. }
    { exists q. split; [|assumption].
      eapply Permutation_in; [apply Permutation_sym, PM|].
      apply in_or_app. now left. }
    cbn [List.length app] in EF. rewrite EF.
    eapply Permutation_trans; [exact PF|].
    now apply Permutation_app_tail.
Qed.

(** X21.  For a positive duration [d] and a concatenation order from 1 to
    6, the XY-concatenated generator returns a sequence.  Its own offsets,
    at most 10000, all lie in [(0, d]]: the constructor puts the offset [0]
    in front of them, and [d] behind them unless the last one is [d]
    already, in which case [pre_post_rotation] overwrites the rabi rotation
    of that last pulse. *)
Theorem xy_concatenated_sequence
    (dur : option Q) (n : Z) (ppr : option bool) (nm : option string) :
  let d := or_default dur 1 in
  let p := or_default ppr false in
  let final := xy_concatenated_arrays d (Z.to_pos n) in
  let offs := xy_offsets final in
  let closing (v : Q) := if tail_missing d offs then [v] else [] in
  0 < d -> (1 <= n <= 6)%Z ->
  Forall (fun x => 0 < x /\ x <= d) offs /\
  (1 <= Z.of_nat (List.length offs) <= UPPER_BOUND_OFFSETS)%Z /\
  exists S,
    new_xy_concatenated_sequence (mkKwargs dur None None None None (Some n) ppr nm [])
    = Return S /\
    duration S = d /\
    offsets S = 0 :: offs ++ closing d /\
    azimuthal_angles S = 0 :: xy_azimuthal_angles final ++ closing 0 /\
    detuning_rotations S = 0 :: xy_detuning_rotations final ++ closing 0 /\
    rabi_rotations S
    = rabi_after_end d p offs (boundary_rabi p :: xy_rabi_rotations final).
Proof.
  intros d p final offs closing Hd Hn.
  set (R := xy_rabi_offsets d (Z.to_pos n)).
  set (A := xy_azimuthal_offsets d (Z.to_pos n)).
  set (D := xy_detuning_offsets d (Z.to_pos n)).
  pose proof (xy_offsets_permutation d (Z.to_pos n) Hd) as HP.
  fold final R A D in HP. fold offs in HP.
  destruct (xy_stream_offsets_range d (Z.to_pos n) Hd) as (HRr & HAr & HDr).
  fold R in HRr. fold A in HAr. fold D in HDr.
  assert (Hrange : Forall (fun x => 0 < x /\ x <= d) offs).
  { eapply Forall_Permutation; [apply Permutation_sym, HP|].
    apply Forall_app. split; [apply Forall_app; split|]; assumption. }
  assert (Hcount : (Z.of_nat (List.length offs) <= UPPER_BOUND_OFFSETS)%Z).
  { rewrite (Permutation_length HP), !length_app.
    apply xy_offsets_count. rewrite Z2Pos.id; lia. }
  assert (Hne : offs <> []).
  { destruct (rabi_offset_after_shape d (Z.to_pos n) Hd) as (q & Hq & _). fold R in Hq.
    intro E. rewrite E in HP. apply Permutation_nil in HP.
    destruct R; [destruct Hq | discriminate]. }
  assert (Hpos : (1 <= Z.of_nat (List.length offs))%Z).
  { destruct offs; [congruence | simpl; lia]. }
  destruct (xy_rotation_rows d (Z.to_pos n) Hd) as (rows & L & E1 & E2 & E3 & _).
  fold final in L, E1, E2, E3. fold offs in L.
  split; [assumption|]. split; [split; assumption|].
  assert (Hdb := proj2 (Qle_bool_false d 0) Hd).
  assert (Hnb : (n <=? 0)%Z = false) by (apply Z.leb_gt; lia).
  assert (Hcall : new_xy_concatenated_sequence
                    (mkKwargs dur None None None None (Some n) ppr nm [])
                  = new_sequence d (Some offs) (Some (xy_rabi_rotations final))
                                 (Some (xy_azimuthal_angles final))
                                 (Some (xy_detuning_rotations final)) p nm).
  { unfold new_xy_concatenated_sequence.
    cbn [kw_duration kw_concatenation_order or_default]. fold d. rewrite Hdb, Hnb.
    cbv zeta. fold final. unfold call_constructor.
    rewrite leftover_concatenation_order. reflexivity. }
  rewrite Hcall.
  destruct (new_sequence_accepts d (Some offs) (Some (xy_rabi_rotations final))
              (Some (xy_azimuthal_angles final)) (Some (xy_detuning_rotations final)) p nm)
    as (S & HS); try assumption.
  { eapply Forall_impl; [|exact Hrange]. intros x [H0 H1]. split; [lra | assumption]. }
  { cbn [default_offsets default_rabi_rotations]. now rewrite E1, length_map. }
  { cbn [default_offsets default_zeros]. now rewrite E2, length_map. }
  { cbn [default_offsets default_zeros]. now rewrite E3, length_map. }
  exists S. split; [assumption|].
  pose proof (new_sequence_shape _ _ _ _ _ _ _ _ HS) as Sh.
  unfold supplied in Sh. cbn [default_offsets default_rabi_rotations default_zeros] in Sh.
  assert (Hhead : head_missing offs = true).
  { unfold head_missing. apply negb_true_iff, Qeq_bool_false.
    destruct offs as [|x rest]; [congruence|]. cbn [hd].
    inversion Hrange as [|? ? [Hx _] _]; subst. intro E. rewrite E in Hx.
    exact (Qlt_irrefl _ Hx). }
  rewrite Hhead in Sh.
  destruct Sh as (_ & Hdur & _ & _ & _ & Ho & Ha & Hz & Hr & _).
  unfold rabi_after_start in Hr. rewrite Hhead in Hr.
  repeat split; assumption.
Qed.

Lemma xy_concatenated_sequence_witness :
  let final := xy_concatenated_arrays 1 (Z.to_pos 2) in
  let offs := xy_offsets final in
  let closing (v : Q) := if tail_missing 1 offs then [v] else [] in
  Forall (fun x => 0 < x /\ x <= 1) offs /\
  (1 <= Z.of_nat (List.length offs) <= UPPER_BOUND_OFFSETS)%Z /\
  exists S,
    new_xy_concatenated_sequence
      (mkKwargs (Some 1) None None None None (Some 2%Z) None None [])
    = Return S /\
    duration S = 1 /\
    offsets S = 0 :: offs ++ closing 1 /\
    azimuthal_angles S = 0 :: xy_azimuthal_angles final ++ closing 0 /\
    detuning_rotations S = 0 :: xy_detuning_rotations final ++ closing 0 /\
    rabi_rotations S
    = rabi_after_end 1 false offs (boundary_rabi false :: xy_rabi_rotations final).
Proof.
  apply (xy_concatenated_sequence (Some 1) 2 None None); [reflexivity | lia].
Defined.
(* ================================================================= *)
(** * Keywords a generator does not take *)

Lemma leftover_keywords_foreign (own : list keyword) (kw : kwargs) (k : keyword) :
  kw_other kw <> [] \/
  (keyword_given kw k = true /\ existsb (keyword_eqb k) own = false) ->
  leftover_keywords own kw = true.
Proof.
  unfold leftover_keywords. intros [H | [Hg Ho]].
  - destruct (kw_other kw); [congruence|]. apply orb_true_r.
  - apply orb_true_iff. left. apply existsb_exists. exists k. split.
    + destruct k; simpl; tauto.
    + now rewrite Ho, Hg.
Qed.

(** X22.  A keyword argument that the generator does not take itself is
    never ignored: once the generator's own checks of the duration and of
    its counts have passed, [**kwargs] carries the keyword to the
    constructor, which accepts only [pre_post_rotation] and [name], and
    the call raises a [TypeError].  This holds for the keywords of the
    other generators ([k] below) and for any unknown keyword
    ([kw_other]). *)
Theorem foreign_keyword_raises_TypeError
    (np_sin : Q -> Q) (kw : kwargs) (k : keyword) :
  let foreign (own : list keyword) :=
    kw_other kw <> [] \/ (keyword_given kw k = true /\ ~ In k own) in
  0 < or_default (kw_duration kw) 1 ->
  (foreign [] ->
     new_ramsey_sequence kw = Raise TypeError /\
     new_spin_echo_sequence kw = Raise TypeError) /\
  (foreign [KwNumberOfOffsets] ->
   (1 <= or_default (kw_number_of_offsets kw) 1)%Z ->
     new_carr_purcell_sequence kw = Raise TypeError /\
     new_carr_purcell_meiboom_gill_sequence kw = Raise TypeError /\
     new_uhrig_single_axis_sequence np_sin kw = Raise TypeError /\
     new_periodic_single_axis_sequence kw = Raise TypeError) /\
  (foreign [KwPaleyOrder] ->
   (1 <= or_default (kw_paley_order kw) 1 <= 2000)%Z ->
     new_walsh_single_axis_sequence np_sin kw = Raise TypeError) /\
  (foreign [KwNumberInner; KwNumberOuter] ->
   (1 <= or_default (kw_number_inner_offsets kw) 1)%Z ->
   (1 <= or_default (kw_number_outer_offsets kw) 1)%Z ->
     new_quadratic_sequence np_sin kw = Raise TypeError) /\
  (foreign [KwConcatenationOrder] ->
   (1 <= or_default (kw_concatenation_order kw) 1)%Z ->
     new_x_concatenated_sequence kw = Raise TypeError /\
     new_xy_concatenated_sequence kw = Raise TypeError).
Proof.
  intros foreign Hd.
  assert (Hdb := proj2 (Qle_bool_false _ 0) Hd).
  assert (Hleft : forall own, foreign own -> leftover_keywords own kw = true).
  { intros own [H | [Hg Hn]]; apply (leftover_keywords_foreign own kw k); [now left|].
    right. split; [assumption|].
    destruct (existsb (keyword_eqb k) own) eqn:E; [|reflexivity].
    exfalso. apply Hn. apply existsb_exists in E as (x & Hx & Ex).
    destruct k, x; simpl in Ex; try discriminate; assumption. }
  split; [|split; [|split; [|split]]].
  - intro Hf. split.
    + unfold new_ramsey_sequence. rewrite Hdb. cbv zeta.
      unfold call_constructor. now rewrite (Hleft _ Hf).
    + unfold new_spin_echo_sequence. rewrite Hdb. cbv zeta.
      unfold call_constructor. now rewrite (Hleft _ Hf).
  - intros Hf Hn.
    assert (Hn' : (or_default (kw_number_of_offsets kw) 1 <=? 0)%Z = false)
      by (apply Z.leb_gt; lia).
    split; [|split; [|split]].
    + unfold new_carr_purcell_sequence. rewrite Hdb. cbv zeta. rewrite Hn'.
      unfold call_constructor. now rewrite (Hleft _ Hf).
    + unfold new_carr_purcell_meiboom_gill_sequence. rewrite Hdb. cbv zeta. rewrite Hn'.
      unfold call_constructor. now rewrite (Hleft _ Hf).
    + unfold new_uhrig_single_axis_sequence. rewrite Hdb. cbv zeta. rewrite Hn'.
      unfold call_constructor. now rewrite (Hleft _ Hf).
    + unfold new_periodic_single_axis_sequence. rewrite Hdb. cbv zeta. rewrite Hn'.
      unfold call_constructor. now rewrite (Hleft _ Hf).
  - intros Hf Hn.
    assert (Hn' : (or_default (kw_paley_order kw) 1 <? 1)%Z
                  || (2000 <? or_default (kw_paley_order kw) 1)%Z = false)
      by (apply orb_false_iff; split; apply Z.ltb_ge; lia).
    unfold new_walsh_single_axis_sequence. rewrite Hdb. cbv zeta. rewrite Hn'.
    unfold call_constructor. now rewrite (Hleft _ Hf).
  - intros Hf Hi Ho.
    assert (Hi' : (or_default (kw_number_inner_offsets kw) 1 <=? 0)%Z = false)
      by (apply Z.leb_gt; lia).
    assert (Ho' : (or_default (kw_number_outer_offsets kw) 1 <=? 0)%Z = false)
      by (apply Z.leb_gt; lia).
    unfold new_quadratic_sequence. rewrite Hdb. cbv zeta. rewrite Hi', Ho'.
    unfold call_constructor. now rewrite (Hleft _ Hf).
  - intros Hf Hn.
    assert (Hn' : (or_default (kw_concatenation_order kw) 1 <=? 0)%Z = false)
      by (apply Z.leb_gt; lia).
    split.
    + unfold new_x_concatenated_sequence. rewrite Hdb. cbv zeta. rewrite Hn'.
      unfold call_constructor. now rewrite (Hleft _ Hf).
    + unfold new_xy_concatenated_sequence. rewrite Hdb. cbv zeta. rewrite Hn'.
      unfold call_constructor. now rewrite (Hleft _ Hf).
Qed.

Lemma foreign_keyword_raises_TypeError_witness :
  let kw := mkKwargs (Some 1) (Some 3%Z) None None None None None None [] in
  let foreign (own : list keyword) :=
    kw_other kw <> [] \/ (keyword_given kw KwNumberOfOffsets = true /\
                          ~ In KwNumberOfOffsets own) in
  (foreign [] ->
     new_ramsey_sequence kw = Raise TypeError /\
     new_spin_echo_sequence kw = Raise TypeError) /\
  (foreign [KwNumberOfOffsets] ->
   (1 <= or_default (kw_number_of_offsets kw) 1)%Z ->
     new_carr_purcell_sequence kw = Raise TypeError /\
     new_carr_purcell_meiboom_gill_sequence kw = Raise TypeError /\
     new_uhrig_single_axis_sequence square_sin kw = Raise TypeError /\
     new_periodic_single_axis_sequence kw = Raise TypeError) /\
  (foreign [KwPaleyOrder] ->
   (1 <= or_default (kw_paley_order kw) 1 <= 2000)%Z ->
     new_walsh_single_axis_sequence square_sin kw = Raise TypeError) /\
  (foreign [KwNumberInner; KwNumberOuter] ->
   (1 <= or_default (kw_number_inner_offsets kw) 1)%Z ->
   (1 <= or_default (kw_number_outer_offsets kw) 1)%Z ->
     new_quadratic_sequence square_sin kw = Raise TypeError) /\
  (foreign [KwConcatenationOrder] ->
   (1 <= or_default (kw_concatenation_order kw) 1)%Z ->
     new_x_concatenated_sequence kw = Raise TypeError /\
     new_xy_concatenated_sequence kw = Raise TypeError).
Proof.
  apply (foreign_keyword_raises_TypeError
           square_sin (mkKwargs (Some 1) (Some 3%Z) None None None None None None [])
           KwNumberOfOffsets).
  reflexivity.
Defined.
